(** * theSakura: the particle-tree generator and the expansion state

    A shallow embedding of [utils/geometry.ts] ([generateTree],
    [createPhotoData]) and of the expansion update of
    [components/Scene.tsx], with the properties the specification states
    about them.

    Conventions of the embedding.
    - A JavaScript [number] is a real number ([R]): arithmetic is exact, and
      [NaN], the infinities and rounding (also the rounding of
      [Float32Array]) are outside the model, with one exception: where the
      rounding of a sum decides a count, in [branchCount], the sum is
      rounded to a double ([binary64]).  Integers that only count
      ([depth], [count], loop bounds) are in [Z] or [nat].
    - [Math.random()] reads the next element of a stream of reals of
      [[0, 1)]; the position in the stream is threaded through the code in
      the order in which the source evaluates its calls.
    - The buffers and the leaf list that [growBranch] mutates are the
      fields of an explicit state; a computation returns, throws or runs
      out of the fuel that bounds the recursion of the model. *)

From Stdlib Require Import Reals Lra Lia ZArith Bool List String Permutation.
From Stdlib Require Import Zfloor DecimalString DecimalNat.
Import ListNotations.

Local Open Scope R_scope.

(** ** The parts of three.js the code uses *)

Module THREE.

Record Vector3 : Type := mkVector3 { x : R; y : R; z : R }.
Record Color : Type := mkColor { r : R; g : R; b : R }.
(* three's Euler keeps its angles in [_x], [_y], [_z] *)
Record Euler : Type := mkEuler { ex : R; ey : R; ez : R }.

Definition add (a c : Vector3) : Vector3 :=
  mkVector3 (x a + x c) (y a + y c) (z a + z c).

Definition multiplyScalar (a : Vector3) (s : R) : Vector3 :=
  mkVector3 (x a * s) (y a * s) (z a * s).

Definition crossVectors (a c : Vector3) : Vector3 :=
  mkVector3 (y a * z c - z a * y c)
            (z a * x c - x a * z c)
            (x a * y c - y a * x c).

Definition length (a : Vector3) : R :=
  sqrt (x a * x a + y a * y a + z a * z a).

(* [divideScalar(this.length() || 1)] *)
Definition normalize (a : Vector3) : Vector3 :=
  let l := length a in
  multiplyScalar a (1 / (if Req_dec_T l 0 then 1 else l)).

Definition lerpVectors (v1 v2 : Vector3) (alpha : R) : Vector3 :=
  mkVector3 (x v1 + (x v2 - x v1) * alpha)
            (y v1 + (y v2 - y v1) * alpha)
            (z v1 + (z v2 - z v1) * alpha).

(* [Color.lerp(color, alpha)] *)
Definition lerp (c1 c2 : Color) (alpha : R) : Color :=
  mkColor (r c1 + (r c2 - r c1) * alpha)
          (g c1 + (g c2 - g c1) * alpha)
          (b c1 + (b c2 - b c1) * alpha).

(* [new THREE.Color('#rrggbb')]: the three channels of the hex code over
   255; the conversion to the working colour space is not modelled. *)
Definition ColorHex (h : Z) : Color :=
  mkColor (IZR (Z.land (Z.shiftr h 16) 255) / 255)
          (IZR (Z.land (Z.shiftr h 8) 255) / 255)
          (IZR (Z.land h 255) / 255).

(* [THREE.MathUtils.lerp] *)
Definition MathUtils_lerp (a c t : R) : R := (1 - t) * a + t * c.

End THREE.

(** ** The parts of [Math] the code uses *)

(* [Math.pow] on a base that is not negative (the only bases the code
   passes: a [Math.random()] value and [(0.25 - t) * 6.0] under [t < 0.25]). *)
Definition Math_pow (base e : R) : R :=
  if Req_dec_T base 0
  then (if Req_dec_T e 0 then 1 else 0)
  else Rpower base e.

Definition Math_cbrt (a : R) : R :=
  if Req_dec_T a 0 then 0
  else if Rlt_dec 0 a then Rpower a (1 / 3) else - Rpower (- a) (1 / 3).

(* the comparison [a < c] of two numbers, as a boolean *)
Definition Rltb (a c : R) : bool := if Rlt_dec a c then true else false.

Definition Math_floor (a : R) : Z := Zfloor a.
Definition Math_ceil (a : R) : Z := Zceil a.
Definition Math_acos (a : R) : R := acos a.

(** ** Rounding to a double *)

(* [2 ^ e] for an integer exponent *)
Definition pow2 (e : Z) : R :=
  if (0 <=? e)%Z then IZR (2 ^ e) else / IZR (2 ^ (- e)).

(* the nearest integer, the even one of two that are equally near *)
Definition roundTiesToEven (a : R) : Z :=
  let f := Zfloor a in
  let d := a - IZR f in
  if Rltb d (1 / 2) then f
  else if Rltb (1 / 2) d then (f + 1)%Z
  else if Z.even f then f else (f + 1)%Z.

(* the exponent of a positive number: [2 ^ e <= a < 2 ^ (e + 1)] *)
Definition binary64_exponent (a : R) : Z := Zfloor (ln a / ln 2).

(** The double nearest to a real number, ties to even: a multiple of
    [2 ^ (e - 52)] for the exponent [e] of the number.  Subnormal numbers
    and the overflow to an infinity are not modelled. *)
Definition binary64 (a : R) : R :=
  if Rltb 0 a then
    let ulp := pow2 (binary64_exponent a - 52) in
    IZR (roundTiesToEven (a / ulp)) * ulp
  else if Rltb a 0 then
    let ulp := pow2 (binary64_exponent (- a) - 52) in
    - (IZR (roundTiesToEven (- a / ulp)) * ulp)
  else 0.

(** ** Outcomes and the two effects of the generator *)

Inductive result (A : Type) : Type :=
| Ok (a : A)
| Throw (e : string)
| OutOfFuel.
Arguments Ok {A} a.
Arguments Throw {A} e.
Arguments OutOfFuel {A}.

(** [Math.random]: a stream of numbers of [[0, 1)]. *)
Record RandomSource : Type := mkRandomSource {
  draw : nat -> R;
  draw_range : forall n, 0 <= draw n < 1
}.

(** A computation that only draws random numbers: from the position in the
    stream to a value and the next position. *)
Definition Rand (A : Type) : Type := nat -> A * nat.

Definition Rret {A} (a : A) : Rand A := fun c => (a, c).
Definition Rbind {A B} (m : Rand A) (k : A -> Rand B) : Rand B :=
  fun c => let (a, c') := m c in k a c'.

Declare Scope rand_scope.
Delimit Scope rand_scope with rand.
Notation "v <- m ;; k" := (Rbind m (fun v => k))
  (at level 61, m at next level, right associativity) : rand_scope.

(** ** ParticleBuffer *)

Definition Float32Array : Type := list R.
Definition Float32Array_from (l : list R) : Float32Array := l.

Record ParticleData : Type := mkParticleData {
  positions : Float32Array;
  targetPositions : Float32Array;
  colors : Float32Array;
  sizes : Float32Array;
  drifts : Float32Array;
  phases : Float32Array
}.

Module ParticleBuffer.

Record t : Type := mk {
  positions : list R;
  targetPositions : list R;
  colors : list R;
  sizes : list R;
  drifts : list R;
  phases : list R
}.

(* a new buffer: every array is empty *)
Definition new : t := mk [] [] [] [] [] [].

Definition add (this : t) (pos targetPos : THREE.Vector3)
    (color : THREE.Color) (size : R) (drift : THREE.Vector3) (phase : R) : t :=
  mk (positions this ++ [THREE.x pos; THREE.y pos; THREE.z pos])
     (targetPositions this
        ++ [THREE.x targetPos; THREE.y targetPos; THREE.z targetPos])
     (colors this ++ [THREE.r color; THREE.g color; THREE.b color])
     (sizes this ++ [size])
     (drifts this ++ [THREE.x drift; THREE.y drift; THREE.z drift])
     (phases this ++ [phase]).

Definition toData (this : t) : ParticleData :=
  mkParticleData
    (Float32Array_from (positions this))
    (Float32Array_from (targetPositions this))
    (Float32Array_from (colors this))
    (Float32Array_from (sizes this))
    (Float32Array_from (drifts this))
    (Float32Array_from (phases this)).

End ParticleBuffer.

Record TreeData : Type := mkTreeData {
  wood : ParticleData;
  blossoms : ParticleData;
  leafNodes : list THREE.Vector3
}.

Record TreeGenParams : Type := mkTreeGenParams {
  depth : Z;
  branchLength : R;
  startPos : THREE.Vector3
}.

Record PhotoData : Type := mkPhotoData {
  id : nat;
  position : THREE.Vector3;
  rotation : THREE.Euler;
  url : string;
  targetSpacePos : THREE.Vector3;
  targetSpaceRot : THREE.Euler
}.

(** One call of [ParticleBuffer.add]: its six arguments. *)
Record Particle : Type := mkParticle {
  pos : THREE.Vector3;
  targetPos : THREE.Vector3;
  color : THREE.Color;
  size : R;
  drift : THREE.Vector3;
  phase : R
}.

Definition addParticle (buf : ParticleBuffer.t) (p : Particle) : ParticleBuffer.t :=
  ParticleBuffer.add buf (pos p) (targetPos p) (color p) (size p) (drift p) (phase p).

(** The variables that the closures of [generateTree] share, with the
    position in the random stream. *)
Module Closure.
Record t : Type := mk {
  cursor : nat;
  woodBuffer : ParticleBuffer.t;
  blossomBuffer : ParticleBuffer.t;
  leafNodes : list THREE.Vector3
}.
End Closure.

Definition Gen (A : Type) : Type := Closure.t -> result (A * Closure.t).

Definition Gret {A} (a : A) : Gen A := fun s => Ok (a, s).
Definition Gbind {A B} (m : Gen A) (k : A -> Gen B) : Gen B :=
  fun s =>
    match m s with
    | Ok (a, s') => k a s'
    | Throw e => Throw e
    | OutOfFuel => OutOfFuel
    end.
Definition Gthrow {A} (e : string) : Gen A := fun _ => Throw e.

Declare Scope gen_scope.
Delimit Scope gen_scope with gen.
Notation "v <- m ;; k" := (Gbind m (fun v => k))
  (at level 61, m at next level, right associativity) : gen_scope.
Notation "m ;; k" := (Gbind m (fun _ => k))
  (at level 61, right associativity) : gen_scope.

(** Random draws inside the generator move the cursor of the closure. *)
Definition rnd {A} (m : Rand A) : Gen A :=
  fun s =>
    let (a, c) := m (Closure.cursor s) in
    Ok (a, Closure.mk c (Closure.woodBuffer s) (Closure.blossomBuffer s)
                     (Closure.leafNodes s)).

Definition woodBuffer_add (p : Particle) : Gen unit :=
  fun s =>
    Ok (tt, Closure.mk (Closure.cursor s) (addParticle (Closure.woodBuffer s) p)
                      (Closure.blossomBuffer s) (Closure.leafNodes s)).

(* [blossomBuffer.add(p, ..., color, ...)] with [color = blossomColors[colorIdx]]:
   reading [color.r] of [undefined] is a TypeError. *)
Definition blossomBuffer_add (p : option Particle) : Gen unit :=
  match p with
  | Some p =>
      fun s =>
        Ok (tt, Closure.mk (Closure.cursor s) (Closure.woodBuffer s)
                          (addParticle (Closure.blossomBuffer s) p)
                          (Closure.leafNodes s))
  | None => Gthrow "TypeError: Cannot read properties of undefined (reading 'r')"
  end.

Definition leafNodes_push (v : THREE.Vector3) : Gen unit :=
  fun s =>
    Ok (tt, Closure.mk (Closure.cursor s) (Closure.woodBuffer s)
                      (Closure.blossomBuffer s) (Closure.leafNodes s ++ [v])).

(** [for (let i = start; i < start + n; i++) body(i)] *)
Fixpoint forLoop (start n : nat) (body : nat -> Gen unit) : Gen unit :=
  match n with
  | O => Gret tt
  | S n' => (body start ;; forLoop (S start) n' body)%gen
  end.

(* [arr[i]] for a number [i] that is an integer: [undefined] out of range *)
Definition array_get {A} (arr : list A) (i : Z) : option A :=
  if (i <? 0)%Z then None else nth_error arr (Z.to_nat i).

(** ** generateTree *)

Section Generator.

Variable rs : RandomSource.

Local Open Scope rand_scope.

Definition Math_random : Rand R := fun c => (draw rs c, S c).

Definition randomRange (min max : R) : Rand R :=
  v <- Math_random ;; Rret (v * (max - min) + min).

Definition woodColorBase : THREE.Color := THREE.ColorHex 0x1a0b08.
Definition woodColorVar : THREE.Color := THREE.ColorHex 0x3e2b24.

Definition blossomColors : list THREE.Color :=
  [ THREE.ColorHex 0xffb7c5; THREE.ColorHex 0xffc0cb; THREE.ColorHex 0xffe4e1;
    THREE.ColorHex 0xffffff; THREE.ColorHex 0xff9eb5 ].

Definition getRandomSpacePos : Rand THREE.Vector3 :=
  r <- randomRange 80 200 ;;
  theta <- randomRange 0 (PI * 2) ;;
  a <- randomRange (-1) 1 ;;
  let phi := Math_acos a in
  Rret (THREE.mkVector3 (r * sin phi * cos theta)
                        (r * sin phi * sin theta)
                        (r * cos phi)).

(** The body of the wood loop up to the call of [woodBuffer.add]: the
    particle of iteration [i]. *)
Definition woodParticle (isTrunk : bool) (start end_ u v : THREE.Vector3)
    (radius : R) (segmentParticles : Z) (i : nat) : Rand Particle :=
  let t := INR i / IZR segmentParticles in
  let pos0 := THREE.lerpVectors start end_ t in
  rt <- Math_random ;;
  let theta := rt * PI * 2 in
  rr <- Math_random ;;
  let r0 := rr * radius in
  r1 <- (if (isTrunk && Rltb t 0.25)%bool
         then
           let flare := Math_pow ((0.25 - t) * 6.0) 2.5 in
           f <- randomRange 0.8 2.0 ;; Rret (r0 + flare * f)
         else Rret r0) ;;
  roughness <- (if isTrunk then randomRange 0.9 1.2 else randomRange 0.9 1.1) ;;
  let r2 := r1 * roughness in
  let pos1 := THREE.add pos0 (THREE.multiplyScalar u (cos theta * r2)) in
  let pos2 := THREE.add pos1 (THREE.multiplyScalar v (sin theta * r2)) in
  colorMix <- Math_random ;;
  let woodColor := THREE.lerp woodColorBase woodColorVar (Math_pow colorMix 3.0) in
  let sizeBase := if isTrunk then 5.0 else 3.0 in
  target <- getRandomSpacePos ;;
  sz <- randomRange (sizeBase * 0.9) (sizeBase * 1.5) ;;
  dx <- randomRange (-0.05) 0.05 ;;
  dy <- randomRange (-0.02) 0.02 ;;
  dz <- randomRange (-0.05) 0.05 ;;
  ph <- Math_random ;;
  Rret (mkParticle pos2 target woodColor sz (THREE.mkVector3 dx dy dz) (ph * PI * 2)).

(** [branchCount]: the number of children of a branch that recurses.  The
    sum of [randomRange] reaches [Math.floor] as a double: for a draw that
    is a double the product by [5 - 3] or [4 - 2] is exact and the sum is
    rounded once, and a sum within half a unit in the last place of [max]
    is rounded to [max] itself. *)
Definition branchCount (isTrunk : bool) : Rand Z :=
  if isTrunk
  then (v <- randomRange 3 5 ;; Rret (Math_floor (binary64 v)))
  else (v <- randomRange 2 4 ;; Rret (Math_floor (binary64 v))).

(** The body of the recursion loop up to the recursive call: the direction
    of child [i]. *)
Definition childDirection (isTrunk : bool) (depth currentDepth : Z)
    (direction tangent bitangent : THREE.Vector3) (count : Z) (i : nat)
    : Rand THREE.Vector3 :=
  let angleStep := (PI * 2) / IZR count in
  j <- randomRange (-0.3) 0.3 ;;
  let azimuth := INR i * angleStep + j in
  spreadAngle <- (if isTrunk then randomRange 0.3 0.6
                  else if (currentDepth >? depth - 3)%Z then randomRange 0.4 0.9
                  else randomRange 0.3 0.8) ;;
  let x := cos azimuth * sin spreadAngle in
  let y := sin azimuth * sin spreadAngle in
  let z := cos spreadAngle in
  let nextDir :=
    THREE.normalize
      (THREE.add (THREE.add (THREE.multiplyScalar direction z)
                            (THREE.multiplyScalar tangent x))
                 (THREE.multiplyScalar bitangent y)) in
  let lifted :=
    THREE.mkVector3 (THREE.x nextDir)
                    (THREE.y nextDir + (if negb isTrunk then 0.15 else 0.4))
                    (THREE.z nextDir) in
  Rret (THREE.normalize lifted).

(** The random parameters of one blossom cluster: its centre and its
    three spreads. *)
Record Cluster : Type := mkCluster {
  clusterCenter : THREE.Vector3;
  spreadX : R;
  spreadY : R;
  spreadZ : R
}.

Definition blossomCluster (end_ : THREE.Vector3) : Rand Cluster :=
  ox <- randomRange (-8) 8 ;;
  oy <- randomRange (-4) 8 ;;
  oz <- randomRange (-8) 8 ;;
  let clusterOffset := THREE.mkVector3 ox oy oz in
  let center := THREE.add end_ clusterOffset in
  sx <- randomRange 6 10 ;;
  sy <- randomRange 4 7 ;;
  sz <- randomRange 6 10 ;;
  Rret (mkCluster center sx sy sz).

(** The body of the inner blossom loop up to the call of
    [blossomBuffer.add]; no particle when [blossomColors[colorIdx]] is
    [undefined]. *)
Definition blossomParticle (cl : Cluster) : Rand (option Particle) :=
  let p := clusterCenter cl in
  u <- Math_random ;;
  v <- Math_random ;;
  let theta := 2 * PI * u in
  let phi := Math_acos (2 * v - 1) in
  rc <- Math_random ;;
  let rRaw := Math_cbrt rc in
  let sinPhi := sin phi in
  let x := rRaw * sinPhi * cos theta in
  let y := rRaw * sinPhi * sin theta in
  let z := rRaw * cos phi in
  let px := THREE.x p + x * spreadX cl in
  let py := THREE.y p + y * spreadY cl in
  let pz := THREE.z p + z * spreadZ cl in
  let weepFactor := Rmax 0 (Rabs x - 2) * 0.6 in
  coin <- Math_random ;;
  py' <- (if Rltb 0.3 coin
          then (w <- Math_random ;; Rret (py - w * (3.0 + weepFactor * 2.0)))
          else Rret py) ;;
  ci <- Math_random ;;
  let colorIdx := Math_floor (ci * INR (List.length blossomColors)) in
  let color := array_get blossomColors colorIdx in
  let sizeBase := 6.0 in
  sv <- randomRange 0 3.0 ;;
  let sizeVar := (1.2 - rRaw) * sizeBase + sv in
  dx <- randomRange (-0.8) 0.8 ;;
  dy <- randomRange 0.2 1.6 ;;
  dz <- randomRange (-0.8) 0.8 ;;
  target <- getRandomSpacePos ;;
  ph <- Math_random ;;
  Rret (option_map
          (fun c => mkParticle (THREE.mkVector3 px py' pz) target c sizeVar
                               (THREE.mkVector3 dx dy dz) (ph * PI * 2))
          color).

Local Open Scope gen_scope.

(** [growBranch]; [depth] is the parameter of the enclosing
    [generateTree], [fuel] bounds the recursion of the model. *)
Fixpoint growBranch (fuel : nat) (depth : Z) (start direction : THREE.Vector3)
    (length radius : R) (currentDepth : Z) {struct fuel} : Gen unit :=
  match fuel with
  | O => fun _ => OutOfFuel
  | S fuel' =>
      let end_ := THREE.add start (THREE.multiplyScalar direction length) in
      let isTrunk := (currentDepth =? depth)%Z in
      (* 1. wood *)
      let densityMultiplier := if isTrunk then 32.0 else 12.0 in
      let segmentParticles := Math_ceil (length * radius * densityMultiplier) in
      let axis := if Rltb 0.9 (Rabs (THREE.y direction))
                  then THREE.mkVector3 1 0 0 else THREE.mkVector3 0 1 0 in
      let u := THREE.normalize (THREE.crossVectors direction axis) in
      let v := THREE.normalize (THREE.crossVectors direction u) in
      forLoop 0 (Z.to_nat segmentParticles)
        (fun i =>
           p <- rnd (woodParticle isTrunk start end_ u v radius segmentParticles i) ;;
           woodBuffer_add p) ;;
      (* 2. recursion *)
      if (currentDepth >? 0)%Z then
        count <- rnd (branchCount isTrunk) ;;
        let tangent := THREE.normalize (THREE.crossVectors direction axis) in
        let bitangent := THREE.normalize (THREE.crossVectors direction tangent) in
        forLoop 0 (Z.to_nat count)
          (fun i =>
             nextDir <- rnd (childDirection isTrunk depth currentDepth
                               direction tangent bitangent count i) ;;
             let nextLength := length * 0.82 in
             let nextRadius := radius * 0.65 in
             growBranch fuel' depth end_ nextDir nextLength nextRadius
                        (currentDepth - 1))
      else
        (* 3. blossoms *)
        leafNodes_push end_ ;;
        let clusters := 5%nat in
        forLoop 0 clusters
          (fun c =>
             cl <- rnd (blossomCluster end_) ;;
             let particlesPerCluster := 90%nat in
             forLoop 0 particlesPerCluster
               (fun k => p <- rnd (blossomParticle cl) ;; blossomBuffer_add p))
  end.

(** [generateTree]: fresh buffers, the trunk, then the three results. *)
Definition generateTree (fuel : nat) (params : TreeGenParams)
    : nat -> result (TreeData * nat) :=
  fun c =>
    let s0 := Closure.mk c ParticleBuffer.new ParticleBuffer.new [] in
    match growBranch fuel (depth params) (startPos params)
            (THREE.mkVector3 0 1 0) (branchLength params) 10.0 (depth params) s0 with
    | Ok (_, s) =>
        Ok (mkTreeData (ParticleBuffer.toData (Closure.woodBuffer s))
                       (ParticleBuffer.toData (Closure.blossomBuffer s))
                       (Closure.leafNodes s),
            Closure.cursor s)
    | Throw e => Throw e
    | OutOfFuel => OutOfFuel
    end.

End Generator.

(** ** createPhotoData *)

(** [Array.prototype.sort] with a comparison function that draws random
    numbers.  The order in which an engine calls the function is its own;
    the model inserts the elements one by one, from the last to the first.
    The properties below use only that the result is a permutation. *)
Fixpoint insertBy {A} (comparefn : A -> A -> Rand R) (a : A) (sorted : list A)
    : Rand (list A) :=
  match sorted with
  | [] => Rret [a]
  | h :: rest =>
      (v <- comparefn h a ;;
       if Rltb 0 v
       then Rret (a :: h :: rest)
       else (rest' <- insertBy comparefn a rest ;; Rret (h :: rest')))%rand
  end.

Fixpoint Array_sort {A} (comparefn : A -> A -> Rand R) (arr : list A)
    : Rand (list A) :=
  match arr with
  | [] => Rret []
  | a :: rest =>
      (sorted <- Array_sort comparefn rest ;; insertBy comparefn a sorted)%rand
  end.

(** [arr.slice(0, end_)] for an integer [end_]: a negative [end_] counts
    from the end of the array. *)
Definition Array_slice0 {A} (arr : list A) (end_ : Z) : list A :=
  let len := Z.of_nat (List.length arr) in
  let final := if (end_ <? 0)%Z then Z.max (len + end_) 0 else Z.min end_ len in
  firstn (Z.to_nat final) arr.

(** [arr.forEach((node, index) => ...)] for a callback that draws random
    numbers and pushes one element: the elements pushed, in order. *)
Fixpoint forEach_from {A B} (f : A -> nat -> Rand B) (index : nat) (arr : list A)
    : Rand (list B) :=
  match arr with
  | [] => Rret []
  | node :: rest =>
      (p <- f node index ;;
       ps <- forEach_from f (S index) rest ;;
       Rret (p :: ps))%rand
  end.

(* the decimal digits of a natural number, as template strings print it *)
Definition Number_toString (n : nat) : string :=
  NilZero.string_of_uint (Nat.to_uint n).

Section Photos.

Variable rs : RandomSource.

Local Open Scope rand_scope.

Definition photoOf (node : THREE.Vector3) (index : nat) : Rand PhotoData :=
  r <- randomRange rs 100 200 ;;
  theta <- randomRange rs 0 (PI * 2) ;;
  a <- randomRange rs (-1) 1 ;;
  let phi := Math_acos a in
  rx <- randomRange rs (-0.15) 0.15 ;;
  ry <- randomRange rs 0 (PI * 2) ;;
  rz <- randomRange rs (-0.15) 0.15 ;;
  tx <- Math_random rs ;;
  ty <- Math_random rs ;;
  tz <- Math_random rs ;;
  Rret (mkPhotoData
          index
          (THREE.add node (THREE.mkVector3 0 (-10.0) 0))
          (THREE.mkEuler rx ry rz)
          ("https://picsum.photos/seed/" ++ Number_toString (index + 420)
             ++ "/300/400.jpg")%string
          (THREE.mkVector3 (r * sin phi * cos theta)
                           (r * sin phi * sin theta)
                           (r * cos phi))
          (THREE.mkEuler (tx * PI) (ty * PI) (tz * PI))).

Definition createPhotoData (leafNodes : list THREE.Vector3) (count : Z)
    : Rand (list PhotoData) :=
  match leafNodes with
  | [] => Rret []
  | _ :: _ =>
      let safeCount := Z.min count (Z.of_nat (List.length leafNodes)) in
      sorted <- Array_sort
                  (fun _ _ => v <- Math_random rs ;; Rret (0.5 - v)) leafNodes ;;
      let chosenNodes := Array_slice0 sorted safeCount in
      forEach_from photoOf 0 chosenNodes
  end.

End Photos.

(** ** Scene *)

(** The [useMemo] of [Scene]: the tree that is rendered and the photos. *)
Definition Scene_params : TreeGenParams :=
  mkTreeGenParams 6 35 (THREE.mkVector3 0 (-60) 0).

Definition Scene_useMemo (rs : RandomSource) (fuel : nat)
    : nat -> result ((TreeData * list PhotoData) * nat) :=
  fun c =>
    match generateTree rs fuel Scene_params c with
    | Ok (treeData, c1) =>
        match generateTree rs fuel Scene_params c1 with
        | Ok (second, c2) =>
            let (photos, c3) := createPhotoData rs (leafNodes second) 16 c2 in
            Ok ((treeData, photos), c3)
        | Throw e => Throw e
        | OutOfFuel => OutOfFuel
        end
    | Throw e => Throw e
    | OutOfFuel => OutOfFuel
    end.

(** The state that [useFrame] keeps in refs and its update by one frame:
    the expansion and the hue (the background colour and the camera are not
    modelled). *)
Record SceneRefs : Type := mkSceneRefs {
  expansionRef : R;
  hueRef : R
}.

(** [targetExpansion]: the current value, replaced under the two gestures. *)
Definition targetExpansion (gesture : string) (current : R) : R :=
  let targetExpansion := current in
  let targetExpansion := if (gesture =? "FIST")%string then 0 else targetExpansion in
  let targetExpansion := if (gesture =? "OPEN_HAND")%string then 1 else targetExpansion in
  targetExpansion.

Definition useFrame (gesture : string) (delta : R) (refs : SceneRefs) : SceneRefs :=
  let target := targetExpansion gesture (expansionRef refs) in
  let expansion := THREE.MathUtils_lerp (expansionRef refs) target (delta * 2.0) in
  let hue := if (gesture =? "ONE_FINGER")%string
             then hueRef refs + delta * 0.5 else hueRef refs in
  mkSceneRefs expansion hue.

(** The refs after a list of frames, each a gesture and a delta. *)
Fixpoint runFrames (frames : list (string * R)) (refs : SceneRefs) : SceneRefs :=
  match frames with
  | [] => refs
  | (gesture, delta) :: rest => runFrames rest (useFrame gesture delta refs)
  end.

(** The expansion after [n] frames of one gesture and one delta, from the
    initial refs of [Scene] ([useRef(0)] for both). *)
Definition expansionAfter (gesture : string) (delta : R) (n : nat) : R :=
  expansionRef (runFrames (repeat (gesture, delta) n) (mkSceneRefs 0 0)).

(** ** Reading the arrays back *)

(** Entry [i] of an array that holds three numbers per particle, as the
    buffer attributes of item size 3 are read. *)
Definition vec3At (arr : list R) (i : nat) : option THREE.Vector3 :=
  match nth_error arr (3 * i), nth_error arr (3 * i + 1), nth_error arr (3 * i + 2) with
  | Some a, Some b, Some c => Some (THREE.mkVector3 a b c)
  | _, _, _ => None
  end.

(** Particle [i] of a particle set: entry [i] of each of its six arrays. *)
Definition particleAt (d : ParticleData) (i : nat) : option Particle :=
  match vec3At (positions d) i, vec3At (targetPositions d) i, vec3At (colors d) i,
        nth_error (sizes d) i, vec3At (drifts d) i, nth_error (phases d) i with
  | Some p, Some t, Some c, Some s, Some dr, Some ph =>
      Some (mkParticle p t (THREE.mkColor (THREE.x c) (THREE.y c) (THREE.z c)) s dr ph)
  | _, _, _, _, _, _ => None
  end.

(** The particle set that a sequence of calls of [add] on a new buffer
    exports. *)
Definition dataOf (ps : list Particle) : ParticleData :=
  ParticleBuffer.toData (fold_left addParticle ps ParticleBuffer.new).

(** The number of particles of a particle set: one size per particle. *)
Definition particleCount (d : ParticleData) : nat := List.length (sizes d).

(** The arrays of [d] are parallel and hold the particles [ps], in order:
    three entries per particle in [positions], [targetPositions], [colors]
    and [drifts], one in [sizes] and [phases], and entry [i] of every array
    belongs to particle [i]. *)
Definition ParallelArrays (d : ParticleData) (ps : list Particle) : Prop :=
  d = dataOf ps
  /\ particleCount d = List.length ps
  /\ List.length (positions d) = (3 * List.length ps)%nat
  /\ List.length (targetPositions d) = (3 * List.length ps)%nat
  /\ List.length (colors d) = (3 * List.length ps)%nat
  /\ List.length (sizes d) = List.length ps
  /\ List.length (drifts d) = (3 * List.length ps)%nat
  /\ List.length (phases d) = List.length ps
  /\ (forall i, particleAt d i = nth_error ps i)
  /\ (forall i, vec3At (positions d) i = option_map pos (nth_error ps i))
  /\ (forall i, vec3At (targetPositions d) i = option_map targetPos (nth_error ps i))
  /\ (forall i, nth_error (sizes d) i = option_map size (nth_error ps i)).

(** A point whose distance from the origin lies in [[lo, hi]]. *)
Definition in_shell (lo hi : R) (v : THREE.Vector3) : Prop :=
  lo <= THREE.length v <= hi.

(** ** A logic of emissions *)

(** What a piece of the generator does to the closure: the particles it
    adds to the two buffers, the leaf nodes it pushes and the number of
    random numbers it draws. *)
Record Emit : Type := mkEmit {
  e_wood : list Particle;
  e_blossom : list Particle;
  e_leaves : list THREE.Vector3;
  e_draws : nat
}.

Definition Emit_nil : Emit := mkEmit [] [] [] 0.

Definition Emit_app (e1 e2 : Emit) : Emit :=
  mkEmit (e_wood e1 ++ e_wood e2) (e_blossom e1 ++ e_blossom e2)
         (e_leaves e1 ++ e_leaves e2) (e_draws e1 + e_draws e2).

Definition emitted (s s' : Closure.t) (e : Emit) : Prop :=
  Closure.woodBuffer s' = fold_left addParticle (e_wood e) (Closure.woodBuffer s)
  /\ Closure.blossomBuffer s'
     = fold_left addParticle (e_blossom e) (Closure.blossomBuffer s)
  /\ Closure.leafNodes s' = Closure.leafNodes s ++ e_leaves e
  /\ Closure.cursor s' = (Closure.cursor s + e_draws e)%nat.

(** [m] returns from every state, and its value and emission satisfy [Q]. *)
Definition Emits {A} (m : Gen A) (Q : A -> Emit -> Prop) : Prop :=
  forall s, exists a s' e, m s = Ok (a, s') /\ emitted s s' e /\ Q a e.

(** The value of a random computation satisfies [Q], and it draws [n]
    numbers with [P n]. *)
Definition Rand_spec {A} (m : Rand A) (Q : A -> Prop) (P : nat -> Prop) : Prop :=
  forall c, Q (fst (m c)) /\ exists n, snd (m c) = (c + n)%nat /\ P n.

(** The galaxy target of a particle lies in the shell of the generator. *)
Definition target_ok (p : Particle) : Prop := in_shell 80 200 (targetPos p).

(** What a call of [growBranch] at [currentDepth] emits. *)
Definition GrowPost (currentDepth : Z) (end_ : THREE.Vector3) (e : Emit) : Prop :=
  Forall target_ok (e_wood e)
  /\ Forall target_ok (e_blossom e)
  /\ List.length (e_blossom e) = (450 * List.length (e_leaves e))%nat
  /\ (2 ^ Z.to_nat currentDepth <= List.length (e_leaves e)
      <= 5 ^ Z.to_nat currentDepth)%nat
  /\ ((currentDepth <= 0)%Z -> e_leaves e = [end_])
  /\ (1 <= e_draws e)%nat.

(** The constant stream of a number of [[0, 1)]. *)
Definition constantSource (v : R) (H : 0 <= v < 1) : RandomSource :=
  mkRandomSource (fun _ => v) (fun _ => H).

(** Two constant streams, and the parameters of the end-to-end scenario of
    the specification. *)
Definition zeroSource : RandomSource :=
  constantSource 0 (conj (Rle_refl 0) Rlt_0_1).

Definition halfSource : RandomSource :=
  constantSource (1 / 2) ltac:(lra).

(** The constant streams of the last two doubles below 1: [1 - 2 ^ -52]
    and [1 - 2 ^ -53]. *)
Definition nearOneSource : RandomSource :=
  constantSource (1 - / 4503599627370496) ltac:(lra).

Definition largestSource : RandomSource :=
  constantSource (1 - / 9007199254740992) ltac:(lra).

Definition scenarioParams : TreeGenParams :=
  mkTreeGenParams 2 10 (THREE.mkVector3 0 0 0).

(** Parameters with a negative depth. *)
Definition negativeDepthParams : TreeGenParams :=
  mkTreeGenParams (-1) 10 (THREE.mkVector3 0 0 0).

(** [m'] returns whatever [m] returns. *)
Definition refines {A} (m m' : Gen A) : Prop :=
  forall s r, m s = Ok r -> m' s = Ok r.

(** The expansion rule in the words of the specification, for comparison
    with [useFrame]: the state is the value and the target, a frame whose
    gesture is neither the collapse nor the expand label keeps the target,
    and the value moves towards the target. *)
Definition spec_holdTarget_frame (gesture : string) (delta : R) (st : R * R) : R * R :=
  let (value, target) := st in
  let target := if (gesture =? "FIST")%string then 0
                else if (gesture =? "OPEN_HAND")%string then 1
                else target in
  (value + (target - value) * 2.0 * delta, target).

Fixpoint spec_holdTarget_run (frames : list (string * R)) (st : R * R) : R * R :=
  match frames with
  | [] => st
  | (gesture, delta) :: rest =>
      spec_holdTarget_run rest (spec_holdTarget_frame gesture delta st)
  end.

(** A gesture that is neither the collapse nor the expand label. *)
Definition neutral (gesture : string) : bool :=
  negb (gesture =? "FIST")%string && negb (gesture =? "OPEN_HAND")%string.

(** ** The camera joystick of [useFrame] *)

(* [Math.sign] *)
Definition Math_sign (a : R) : R :=
  if Rltb 0 a then 1 else if Rltb a 0 then -1 else 0.

(** [azimuthRate] and [polarRate]: zero inside the dead zone around the
    centre 0.5, outside it the sign of the offset times the share of the
    way from the dead zone to the edge, times the maximal speed. *)
Definition azimuthRate (handPos_x : R) : R :=
  let deadZone := 0.15 in
  let centerX := 0.5 in
  let dx := handPos_x - centerX in
  if Rltb deadZone (Rabs dx)
  then
    let sign := Math_sign dx in
    let magnitude := (Rabs dx - deadZone) / (0.5 - deadZone) in
    sign * magnitude * 2.0
  else 0.

Definition polarRate (handPos_y : R) : R :=
  let deadZone := 0.15 in
  let centerY := 0.5 in
  let dy := handPos_y - centerY in
  if Rltb deadZone (Rabs dy)
  then
    let sign := Math_sign dy in
    let magnitude := (Rabs dy - deadZone) / (0.5 - deadZone) in
    sign * magnitude * 1.5
  else 0.

(** The third part of [useFrame]: from the hand position, the delta and the
    two angles that the controls report, the angles that are passed to
    [setAzimuthalAngle] and to [setPolarAngle]; nothing when the ref of the
    controls is empty.  What the controls do with them is not modelled. *)
Definition cameraControl (handPos : R * R) (delta : R) (controls : option (R * R))
    : option (R * R) :=
  match controls with
  | None => None
  | Some (currentAzimuth, currentPolar) =>
      let nextPolar := currentPolar + polarRate (snd handPos) * delta in
      Some (currentAzimuth + azimuthRate (fst handPos) * delta,
            Rmax 0.5 (Rmin (PI - 0.5) nextPolar))
  end.

(** The sum of the deltas of the frames of one gesture. *)
Fixpoint gestureTime (gesture : string) (frames : list (string * R)) : R :=
  match frames with
  | [] => 0
  | (g, delta) :: rest =>
      (if (g =? gesture)%string then delta else 0) + gestureTime gesture rest
  end.

(** ** HandTracker and the handler of [App] *)

Definition result_bind {A B} (m : result A) (k : A -> result B) : result B :=
  match m with
  | Ok a => k a
  | Throw e => Throw e
  | OutOfFuel => OutOfFuel
  end.

Declare Scope result_scope.
Delimit Scope result_scope with result.
Notation "v <- m ;; k" := (result_bind m (fun v => k))
  (at level 61, m at next level, right associativity) : result_scope.

(** A hand landmark: its normalized image coordinates. *)
Module Landmark.
Record t : Type := mk { x : R; y : R }.
End Landmark.

(** The argument of [onUpdate]. *)
Module HandData.
Record t : Type := mk {
  fingerCount : nat;
  gesture : string;
  position : R * R;
  isTracking : bool
}.
End HandData.

(* [landmarks[i]] followed by the read of a coordinate: a TypeError when
   the landmark is [undefined] *)
Definition landmarkAt (landmarks : list Landmark.t) (i : nat) : result Landmark.t :=
  match nth_error landmarks i with
  | Some l => Ok l
  | None => Throw "TypeError: Cannot read properties of undefined"
  end.

Definition isFingerUp (landmarks : list Landmark.t) (tipIdx pipIdx : nat)
    : result bool :=
  (tip <- landmarkAt landmarks tipIdx ;;
   pip <- landmarkAt landmarks pipIdx ;;
   Ok (Rltb (Landmark.y tip) (Landmark.y pip)))%result.

(* [Math.hypot] of two numbers *)
Definition Math_hypot (a c : R) : R := sqrt (a * a + c * c).

(** The five tests of the finger counter: thumb, index, middle, ring,
    pinky. *)
Definition fingersUp (landmarks : list Landmark.t)
    : result (bool * bool * bool * bool * bool) :=
  (thumbTip <- landmarkAt landmarks 4 ;;
   pinkyKnuckle <- landmarkAt landmarks 17 ;;
   let distance := Math_hypot (Landmark.x thumbTip - Landmark.x pinkyKnuckle)
                              (Landmark.y thumbTip - Landmark.y pinkyKnuckle) in
   let thumbOpen := Rltb 0.25 distance in
   indexUp <- isFingerUp landmarks 8 6 ;;
   middleUp <- isFingerUp landmarks 12 10 ;;
   ringUp <- isFingerUp landmarks 16 14 ;;
   pinkyUp <- isFingerUp landmarks 20 18 ;;
   Ok (thumbOpen, indexUp, middleUp, ringUp, pinkyUp))%result.

(** [count]: one more for each test that holds. *)
Definition countFingers (thumbOpen indexUp middleUp ringUp pinkyUp : bool) : nat :=
  let count := 0%nat in
  let count := if thumbOpen then S count else count in
  let count := if indexUp then S count else count in
  let count := if middleUp then S count else count in
  let count := if ringUp then S count else count in
  let count := if pinkyUp then S count else count in
  count.

(** The gesture mapping. *)
Definition gestureOf (count : nat) (indexUp middleUp : bool) : string :=
  if (count =? 0)%nat then "FIST"
  else if (count =? 5)%nat then "OPEN_HAND"
  else if ((count =? 1)%nat && indexUp)%bool then "ONE_FINGER"
  else if ((count =? 2)%nat && indexUp && middleUp)%bool then "TWO_FINGERS"
  else ("COUNT_" ++ Number_toString count)%string.

(** The callback of [hands.onResults], without its drawing: the update that
    is passed to [onUpdate], none when the canvas or its context is
    missing.  [multiHandLandmarks] is [None] when the field is absent. *)
Definition onResults (canvasReady : bool)
    (multiHandLandmarks : option (list (list Landmark.t)))
    : result (option HandData.t) :=
  if canvasReady then
    match multiHandLandmarks with
    | Some (landmarks :: _) =>
        (fingers <- fingersUp landmarks ;;
         let '(thumbOpen, indexUp, middleUp, ringUp, pinkyUp) := fingers in
         let count := countFingers thumbOpen indexUp middleUp ringUp pinkyUp in
         let gesture := gestureOf count indexUp middleUp in
         palm <- landmarkAt landmarks 9 ;;
         let normalizedPos := (1.0 - Landmark.x palm, Landmark.y palm) in
         Ok (Some (HandData.mk count gesture normalizedPos true)))%result
    | _ => Ok (Some (HandData.mk 0 "NONE" (0.5, 0.5) false))
    end
  else Ok None.

(** The state of [App] that the handler sets, and [handleHandUpdate]. *)
Record AppState : Type := mkAppState {
  hudData : nat * string;
  currentGesture : string;
  handPosition : R * R
}.

Definition App_initial : AppState := mkAppState (0%nat, "NONE"%string) "NONE" (0.5, 0.5).

Definition handleHandUpdate (data : HandData.t) (st : AppState) : AppState :=
  mkAppState (HandData.fingerCount data, HandData.gesture data)
             (HandData.gesture data)
             (if HandData.isTracking data then HandData.position data
              else handPosition st).

(** ** The shaders of SakuraTree *)

(** The functions of GLSL that the shaders use, on real numbers.  [pow] is
    [Math_pow]: GLSL leaves it undefined for a negative base. *)
Definition GLSL_clamp (a lo hi : R) : R := Rmin (Rmax a lo) hi.

Definition GLSL_smoothstep (edge0 edge1 a : R) : R :=
  let t := GLSL_clamp ((a - edge0) / (edge1 - edge0)) 0 1 in
  t * t * (3 - 2 * t).

Definition GLSL_mix (a c t : R) : R := a * (1 - t) + c * t.

Definition GLSL_mix3 (a c : THREE.Vector3) (t : R) : THREE.Vector3 :=
  THREE.mkVector3 (GLSL_mix (THREE.x a) (THREE.x c) t)
                  (GLSL_mix (THREE.y a) (THREE.y c) t)
                  (GLSL_mix (THREE.z a) (THREE.z c) t).

(* [atan(y, x)]: the angle of the point [(x, y)]; GLSL leaves it undefined
   at the origin, where the model takes 0 *)
Definition GLSL_atan2 (b a : R) : R :=
  if Rltb 0 a then atan (b / a)
  else if Rltb a 0 then (if Rltb b 0 then atan (b / a) - PI else atan (b / a) + PI)
  else if Rltb 0 b then PI / 2
  else if Rltb b 0 then - (PI / 2)
  else 0.

Definition GLSL_dot (a c : THREE.Vector3) : R :=
  THREE.x a * THREE.x c + THREE.y a * THREE.y c + THREE.z a * THREE.z c.

Definition easeInOutCubic (a : R) : R :=
  if Rltb a 0.5 then 4.0 * a * a * a
  else 1.0 - Math_pow (-2.0 * a + 2.0) 3.0 / 2.0.

Definition hueRotate (col : THREE.Vector3) (angle : R) : THREE.Vector3 :=
  let k := THREE.mkVector3 0.57735 0.57735 0.57735 in
  let c := cos angle in
  let s := sin angle in
  THREE.add (THREE.add (THREE.multiplyScalar col c)
                       (THREE.multiplyScalar (THREE.crossVectors k col) s))
            (THREE.multiplyScalar k (GLSL_dot k col * (1.0 - c))).

(** The uniforms and the attributes of one vertex. *)
Record Uniforms : Type := mkUniforms {
  uTime : R;
  uExpansion : R;
  uPixelRatio : R;
  uHueOffset : R;
  uIsWood : R
}.

Record Vertex : Type := mkVertex {
  a_position : THREE.Vector3;
  aTargetPos : THREE.Vector3;
  aSize : R;
  a_color : THREE.Vector3;
  aRotation : R
}.

(** The position of a vertex in the space of the model, before the view
    matrix: the blend of the two positions, then the sway or the orbit. *)
Definition vertexPos (u : Uniforms) (v : Vertex) : THREE.Vector3 :=
  let t := easeInOutCubic (uExpansion u) in
  let pos := GLSL_mix3 (a_position v) (aTargetPos v) t in
  if Rltb (uExpansion u) 0.5
  then
    let wind := sin (uTime u * 1.5 + THREE.y pos * 0.05) * 0.3
                * (THREE.y pos * 0.01 + 1.0) in
    let px := THREE.x pos + wind in
    let pz := THREE.z pos + cos (uTime u * 1.2 + px * 0.05) * 0.2 in
    THREE.mkVector3 px (THREE.y pos) pz
  else
    let orbitSpeed := 0.2 in
    let r := sqrt (THREE.x pos * THREE.x pos + THREE.z pos * THREE.z pos) in
    let theta := GLSL_atan2 (THREE.z pos) (THREE.x pos)
                 + uTime u * orbitSpeed * (100.0 / (r + 10.0)) in
    let px := r * cos theta in
    let pz := r * sin theta in
    let py := THREE.y pos + sin (uTime u + px) * 0.5 in
    THREE.mkVector3 px py pz.

Definition vertexColor (u : Uniforms) (v : Vertex) : THREE.Vector3 :=
  if Rltb 0.01 (uHueOffset u)
  then hueRotate (a_color v) (uHueOffset u + THREE.y (a_position v) * 0.02)
  else a_color v.

Definition vertexRotation (u : Uniforms) (v : Vertex) : R :=
  if Rltb (uExpansion u) 0.5 then aRotation v else aRotation v + uTime u.

(** [woodFade] and [vAlpha]; [viewDepth] is [-mvPosition.z], the depth of
    the vertex in front of the camera. *)
Definition woodFade (u : Uniforms) : R :=
  if Rltb 0.5 (uIsWood u) then 1.0 - GLSL_smoothstep 0.0 0.2 (uExpansion u) else 1.0.

Definition vAlpha (u : Uniforms) (viewDepth : R) : R :=
  let camDistAlpha := GLSL_smoothstep 10.0 30.0 viewDepth in
  camDistAlpha * woodFade u.

Definition gl_PointSize (u : Uniforms) (v : Vertex) (viewDepth : R) : R :=
  aSize v * uPixelRatio u * (200.0 / viewDepth).

(** The fragment shader: the coordinate at which the texture is read, and
    the colour written, none when the fragment is discarded.  [texColor]
    is the sample of the texture, its alpha last. *)
Definition rotatedCoord (vRotation : R) (gl_PointCoord : R * R) : R * R :=
  let mid := 0.5 in
  let c := cos vRotation in
  let s := sin vRotation in
  (c * (fst gl_PointCoord - mid) + s * (snd gl_PointCoord - mid) + mid,
   c * (snd gl_PointCoord - mid) - s * (fst gl_PointCoord - mid) + mid).

Definition fragmentMain (vColor : THREE.Vector3) (alpha : R) (texColor : THREE.Vector3 * R)
    : option (THREE.Vector3 * R) :=
  if Rltb (snd texColor) 0.3 then None
  else if Rltb alpha 0.01 then None
  else Some (vColor, alpha * snd texColor).

(** ** The geometry of SakuraTree *)

(** The [rotations] array of [SakuraTree]: [count] is the length of
    [positions] over 3, [new Float32Array(count)] has the integer part of
    [count] as its length, and the loop draws a number for every [i] below
    [count]; a write beyond the length of a typed array is ignored. *)
Fixpoint fillRotations (rs : RandomSource) (len i n : nat) (rotations : list R)
    : Rand (list R) :=
  match n with
  | O => Rret rotations
  | S n' =>
      (v <- Math_random rs ;;
       fillRotations rs len (S i) n'
         (if (i <? len)%nat then rotations ++ [v * PI * 2] else rotations))%rand
  end.

Definition SakuraTree_rotations (rs : RandomSource) (data : ParticleData)
    : Rand (list R) :=
  let count := INR (List.length (positions data)) / 3 in
  let len := Z.to_nat (Zfloor count) in
  fillRotations rs len 0 (Z.to_nat (Zceil count)) [].

(** The number of items of a buffer attribute: the length of its array over
    the item size, the integer part of it. *)
Definition BufferAttribute_count (array : Float32Array) (itemSize : nat) : nat :=
  (List.length array / itemSize)%nat.

(** Vertex [i] of the geometry: item [i] of each of the five attributes. *)
Definition geometryVertex (data : ParticleData) (rotations : list R) (i : nat)
    : option Vertex :=
  match vec3At (positions data) i, vec3At (targetPositions data) i,
        vec3At (colors data) i, nth_error (sizes data) i, nth_error rotations i with
  | Some p, Some t, Some c, Some s, Some r => Some (mkVertex p t s c r)
  | _, _, _, _, _ => None
  end.

(** ** FloatingGallery *)

(* [Vector3.lerp(v, alpha)] *)
Definition Vector3_lerp (this v : THREE.Vector3) (alpha : R) : THREE.Vector3 :=
  THREE.mkVector3 (THREE.x this + (THREE.x v - THREE.x this) * alpha)
                  (THREE.y this + (THREE.y v - THREE.y this) * alpha)
                  (THREE.z this + (THREE.z v - THREE.z this) * alpha).

(* [Vector3.distanceTo(v)] *)
Definition Vector3_distanceTo (this v : THREE.Vector3) : R :=
  sqrt ((THREE.x this - THREE.x v) * (THREE.x this - THREE.x v)
        + (THREE.y this - THREE.y v) * (THREE.y this - THREE.y v)
        + (THREE.z this - THREE.z v) * (THREE.z this - THREE.z v)).

(** The group of a polaroid: its position, its rotation and its scale. *)
Record Group : Type := mkGroup {
  g_position : THREE.Vector3;
  g_rotation : THREE.Euler;
  g_scale : THREE.Vector3
}.

Section Gallery.

(** [dummy.lookAt(camera.position)] of three.js, for a dummy object at a
    position: the rotation that makes it face the camera.  It is a
    parameter of the model. *)
Variable Object3D_lookAt : THREE.Vector3 -> THREE.Vector3 -> THREE.Euler.

(** The target of a polaroid in a frame: position, rotation and scale. *)
Definition polaroidTarget (data : PhotoData) (index total : nat) (isRevealed : bool)
    (expansion : R) (cameraPosition : THREE.Vector3)
    : THREE.Vector3 * THREE.Euler * R :=
  let isExploded := Rltb 0.5 expansion in
  if isRevealed then
    let radius := 35 in
    let angleStep := 0.4 in
    let centerOffset := (INR total * angleStep) / 2 in
    let currentAngle := INR index * angleStep - centerOffset in
    let targetPos :=
      THREE.mkVector3 (sin currentAngle * radius)
                      ((if Nat.even index then 1 else -1) * 3)
                      (cos currentAngle * radius + 20) in
    (targetPos, Object3D_lookAt targetPos cameraPosition, 2.5)
  else if isExploded then (targetSpacePos data, targetSpaceRot data, 0.5)
  else (position data, rotation data, 0.3).

(** The frame callback of a polaroid; nothing happens while the ref of the
    group is empty. *)
Definition Polaroid_useFrame (data : PhotoData) (index total : nat) (isRevealed : bool)
    (expansion : R) (cameraPosition : THREE.Vector3)
    (elapsedTime randomOffset delta : R) (mesh : option Group) : option Group :=
  match mesh with
  | None => None
  | Some m =>
      let '(targetPos, targetRot, targetScale) :=
        polaroidTarget data index total isRevealed expansion cameraPosition in
      let lerpSpeed := if isRevealed then 3.0 else 1.5 in
      let time := elapsedTime + randomOffset in
      let floatY := sin (time * (if isRevealed then 1.0 else 0.5))
                    * (if isRevealed then 0.5 else 0.2) in
      let newPosition :=
        Vector3_lerp (g_position m)
          (THREE.mkVector3 (THREE.x targetPos) (THREE.y targetPos + floatY)
                           (THREE.z targetPos))
          (delta * lerpSpeed) in
      let newRotation :=
        THREE.mkEuler
          (THREE.MathUtils_lerp (THREE.ex (g_rotation m)) (THREE.ex targetRot)
                                (delta * lerpSpeed))
          (THREE.MathUtils_lerp (THREE.ey (g_rotation m)) (THREE.ey targetRot)
                                (delta * lerpSpeed))
          (THREE.MathUtils_lerp (THREE.ez (g_rotation m)) (THREE.ez targetRot)
                                (delta * lerpSpeed)) in
      let currentScale := THREE.x (g_scale m) in
      let s := THREE.MathUtils_lerp currentScale targetScale (delta * 2) in
      Some (mkGroup newPosition newRotation (THREE.mkVector3 s s s))
  end.

End Gallery.

(** ** The attributes of the emitted particles *)

(** A wood particle: its size, its colour between the two wood colours and
    its phase. *)
Definition wood_particle_ok (p : Particle) : Prop :=
  2.7 <= size p < 7.5
  /\ (exists t, 0 <= t < 1 /\ color p = THREE.lerp woodColorBase woodColorVar t)
  /\ 0 <= phase p < PI * 2.

(** A position in the box around a leaf node in which its blossoms lie. *)
Definition near_leaf (leaf v : THREE.Vector3) : Prop :=
  Rabs (THREE.x v - THREE.x leaf) < 18
  /\ -14 < THREE.y v - THREE.y leaf < 15
  /\ Rabs (THREE.z v - THREE.z leaf) < 18.

(** A blossom particle of a leaf node: its size, its colour in the palette,
    its phase, its upward drift and its position near the leaf. *)
Definition blossom_particle_ok (leaf : THREE.Vector3) (p : Particle) : Prop :=
  1.2 < size p < 10.2
  /\ In (color p) blossomColors
  /\ 0 <= phase p < PI * 2
  /\ 0.2 <= THREE.y (drift p) < 1.6
  /\ near_leaf leaf (pos p).

(** A cluster of a leaf node: its centre and its spreads. *)
Definition cluster_ok (leaf : THREE.Vector3) (cl : Cluster) : Prop :=
  Rabs (THREE.x (clusterCenter cl) - THREE.x leaf) <= 8
  /\ -4 <= THREE.y (clusterCenter cl) - THREE.y leaf < 8
  /\ Rabs (THREE.z (clusterCenter cl) - THREE.z leaf) <= 8
  /\ 6 <= spreadX cl < 10 /\ 4 <= spreadY cl < 7 /\ 6 <= spreadZ cl < 10.

(** The blossoms of an emission, leaf by leaf: one chunk of 450 particles
    per leaf node, in the order of the leaf nodes. *)
Definition blossoms_by_leaf (e : Emit) : Prop :=
  exists chunks,
    e_blossom e = List.concat chunks
    /\ Forall2 (fun leaf chunk =>
                  List.length chunk = 450%nat
                  /\ Forall (blossom_particle_ok leaf) chunk)
               (e_leaves e) chunks.

(** What a call of [growBranch] emits, in more detail: [own] is the number
    of wood particles of the branch itself. *)
Definition GrowDetail (own : nat) (currentDepth : Z) (e : Emit) : Prop :=
  Forall wood_particle_ok (e_wood e)
  /\ (own <= List.length (e_wood e))%nat
  /\ ((currentDepth <= 0)%Z -> List.length (e_wood e) = own)
  /\ blossoms_by_leaf e.

(** ** WebcamInput: the centroid of the motion *)

(** The sums of the loop over the pixels. *)
Record Motion : Type := mkMotion { sumX : Z; sumY : Z; motionCount : Z }.

(** The body of the loop at byte offset [i], a multiple of 4: the pixel
    counts when its green bytes differ by more than 25.  A read outside an
    array is [undefined], the difference is then NaN and the test fails. *)
Definition motionStep (w : Z) (currentData prevData : list Z) (i : nat)
    (acc : Motion) : Motion :=
  match nth_error currentData (i + 1), nth_error prevData (i + 1) with
  | Some cur, Some prev =>
      let diff := Z.abs (cur - prev) in
      if (25 <? diff)%Z
      then
        let pixelIndex := (Z.of_nat i / 4)%Z in
        let x := (pixelIndex mod w)%Z in
        let y := (pixelIndex / w)%Z in
        mkMotion (sumX acc + x) (sumY acc + y) (motionCount acc + 1)
      else acc
  | _, _ => acc
  end.

(** [for (let i = ...; i < currentData.length; i += 4)], by fuel: every
    turn raises [i], so the length of the array is fuel enough. *)
Fixpoint motionLoop (w : Z) (currentData prevData : list Z) (fuel i : nat)
    (acc : Motion) : Motion :=
  match fuel with
  | O => acc
  | S fuel' =>
      if (i <? List.length currentData)%nat
      then motionLoop w currentData prevData fuel' (i + 4)
             (motionStep w currentData prevData i acc)
      else acc
  end.

(** One call of [processFrame] on the bytes that [getImageData] returns:
    the arguments of [onMotionUpdate] and the new [prevFrameRef].  [ready]
    says that the video, the canvas and its context are there; nothing
    happens otherwise. *)
Definition processFrame (ready : bool) (currentData : list Z)
    (prevFrameRef : option (list Z))
    : option (R * R * R) * option (list Z) :=
  if ready then
    let w := 64%Z in
    let h := 48%Z in
    let m :=
      match prevFrameRef with
      | Some prevData =>
          motionLoop w currentData prevData (List.length currentData) 0
            (mkMotion 0 0 0)
      | None => mkMotion 0 0 0
      end in
    let update :=
      if (5 <? motionCount m)%Z
      then
        let avgX := IZR (sumX m) / IZR (motionCount m) / IZR w in
        let avgY := IZR (sumY m) / IZR (motionCount m) / IZR h in
        let normX := (avgX - 0.5) * 2 in
        let normY := - (avgY - 0.5) * 2 in
        let intensity := Rmin (IZR (motionCount m) / (IZR w * IZR h * 0.1)) 1.0 in
        (normX, normY, intensity)
      else (0, 0, 0) in
    (Some update, Some currentData)
  else (None, prevFrameRef).

(** The sums stay within what the pixels of a 64 x 48 frame allow. *)
Definition Motion_ok (m : Motion) : Prop :=
  (0 <= motionCount m
   /\ 0 <= sumX m <= 63 * motionCount m
   /\ 0 <= sumY m <= 47 * motionCount m)%Z.

(** * Properties *)

(** ** Rounding to a double *)

Lemma roundTiesToEven_range (n m : Z) (a : R) :
  IZR n <= a <= IZR m -> (n <= roundTiesToEven a <= m)%Z.
Proof.
  intros [Hlo Hhi]. unfold roundTiesToEven, Rltb; cbv zeta.
  pose proof (Zfloor_bound a) as [Hf0 Hf1].
  pose proof (Zfloor_lub n a Hlo) as Hn.
  assert (Hm : (Zfloor a <= m)%Z) by (apply le_IZR; lra).
  destruct (Rlt_dec (a - IZR (Zfloor a)) (1 / 2)) as [Hd|Hd]; [lia|].
  assert (Hlt : (Zfloor a < m)%Z).
  { apply lt_IZR. lra. }
  destruct (Rlt_dec (1 / 2) (a - IZR (Zfloor a))); [lia|].
  destruct (Z.even (Zfloor a)); lia.
Qed.

Lemma roundTiesToEven_up (f : Z) (a : R) :
  IZR f + 1 / 2 <= a < IZR f + 1 -> Z.even f = false ->
  roundTiesToEven a = (f + 1)%Z.
Proof.
  intros [Hlo Hhi] Hodd. unfold roundTiesToEven, Rltb; cbv zeta.
  rewrite (Zfloor_eq f a) by lra.
  destruct (Rlt_dec (a - IZR f) (1 / 2)); [lra|].
  destruct (Rlt_dec (1 / 2) (a - IZR f)); [reflexivity|].
  now rewrite Hodd.
Qed.

Lemma ln_2_pos : 0 < ln 2.
Proof. pose proof ln_lt_2. lra. Qed.

Lemma ln_le_compat (a c : R) : 0 < a -> a <= c -> ln a <= ln c.
Proof.
  intros Ha [Hlt | ->]; [|lra].
  left. now apply ln_increasing.
Qed.

Lemma binary64_exponent_1 (a : R) : 2 <= a < 4 -> binary64_exponent a = 1%Z.
Proof.
  intros [Hlo Hhi]. unfold binary64_exponent.
  pose proof ln_2_pos as H2.
  assert (H4 : ln 4 = 2 * ln 2).
  { replace 4 with (2 * 2) by lra. rewrite ln_mult by lra. lra. }
  pose proof (ln_le_compat 2 a ltac:(lra) Hlo) as Ha.
  pose proof (ln_increasing a 4 ltac:(lra) Hhi) as Hb.
  apply Zfloor_eq. split.
  - apply Rmult_le_reg_r with (ln 2); [lra|].
    unfold Rdiv. rewrite Rmult_assoc, Rinv_l by lra. lra.
  - apply Rmult_lt_reg_r with (ln 2); [lra|].
    unfold Rdiv. rewrite Rmult_assoc, Rinv_l by lra. lra.
Qed.

Lemma binary64_exponent_2 (a : R) : 4 <= a < 8 -> binary64_exponent a = 2%Z.
Proof.
  intros [Hlo Hhi]. unfold binary64_exponent.
  pose proof ln_2_pos as H2.
  assert (H4 : ln 4 = 2 * ln 2).
  { replace 4 with (2 * 2) by lra. rewrite ln_mult by lra. lra. }
  assert (H8 : ln 8 = 3 * ln 2).
  { replace 8 with (4 * 2) by lra. rewrite ln_mult by lra. lra. }
  pose proof (ln_le_compat 4 a ltac:(lra) Hlo) as Ha.
  pose proof (ln_increasing a 8 ltac:(lra) Hhi) as Hb.
  apply Zfloor_eq. split.
  - apply Rmult_le_reg_r with (ln 2); [lra|].
    unfold Rdiv. rewrite Rmult_assoc, Rinv_l by lra. lra.
  - apply Rmult_lt_reg_r with (ln 2); [lra|].
    unfold Rdiv. rewrite Rmult_assoc, Rinv_l by lra. lra.
Qed.

(** On [[2, 8)] a double is a multiple of [2 ^ -51] below 4 and of
    [2 ^ -50] from 4 on. *)
Lemma binary64_2_8 (a : R) :
  2 <= a < 8 ->
  binary64 a
  = if Rltb a 4
    then IZR (roundTiesToEven (a * 2251799813685248)) / 2251799813685248
    else IZR (roundTiesToEven (a * 1125899906842624)) / 1125899906842624.
Proof.
  intros [Hlo Hhi]. unfold binary64, Rltb.
  destruct (Rlt_dec 0 a); [|lra]. cbv zeta.
  destruct (Rlt_dec a 4).
  - rewrite binary64_exponent_1 by lra.
    change (pow2 (1 - 52)) with (/ 2251799813685248).
    unfold Rdiv. now rewrite Rinv_inv.
  - rewrite binary64_exponent_2 by lra.
    change (pow2 (2 - 52)) with (/ 1125899906842624).
    unfold Rdiv. now rewrite Rinv_inv.
Qed.

(** Rounding keeps a number of [[2, 8)] between the integers around it. *)
Lemma binary64_between (lo hi : Z) (a : R) :
  (2 <= lo)%Z -> (hi <= 8)%Z -> IZR lo <= a <= IZR hi -> a < 8 ->
  IZR lo <= binary64 a <= IZR hi.
Proof.
  intros Hlo Hhi [Ha0 Ha1] Ha8.
  assert (H2 : 2 <= IZR lo) by (apply IZR_le; lia).
  rewrite binary64_2_8 by lra. unfold Rltb.
  destruct (Rlt_dec a 4).
  - pose proof (roundTiesToEven_range (lo * 2251799813685248) (hi * 2251799813685248)
                  (a * 2251799813685248)) as Hr.
    rewrite !mult_IZR in Hr. destruct Hr as [Hr0 Hr1]; [lra|].
    apply IZR_le in Hr0, Hr1. rewrite mult_IZR in Hr0, Hr1. lra.
  - pose proof (roundTiesToEven_range (lo * 1125899906842624) (hi * 1125899906842624)
                  (a * 1125899906842624)) as Hr.
    rewrite !mult_IZR in Hr. destruct Hr as [Hr0 Hr1]; [lra|].
    apply IZR_le in Hr0, Hr1. rewrite mult_IZR in Hr0, Hr1. lra.
Qed.

Lemma Math_floor_binary64_between (lo hi : Z) (a : R) :
  (2 <= lo)%Z -> (hi <= 8)%Z -> IZR lo <= a <= IZR hi -> a < 8 ->
  (lo <= Math_floor (binary64 a) <= hi)%Z.
Proof.
  intros Hlo Hhi Ha Ha8.
  destruct (binary64_between lo hi a Hlo Hhi Ha Ha8) as [H0 H1].
  unfold Math_floor. split.
  - now apply Zfloor_lub.
  - apply le_IZR. pose proof (Zfloor_bound (binary64 a)). lra.
Qed.

Lemma Math_floor_binary64_IZR (k : Z) (a : R) :
  (2 <= k < 8)%Z -> a = IZR k -> Math_floor (binary64 a) = k.
Proof.
  intros Hk ->.
  assert (H8 : IZR k < 8) by (apply IZR_lt; lia).
  pose proof (Math_floor_binary64_between k k (IZR k)
                ltac:(lia) ltac:(lia) ltac:(lra) H8).
  lia.
Qed.

(** The sum [v * 2 + 3] at the last double but one below 1, and
    [v * 2 + 2] at the last one, lie half way between two doubles and are
    rounded to the even one: 5, and 4. *)
Lemma binary64_rounds_to_5 :
  binary64 ((1 - / 4503599627370496) * (5 - 3) + 3) = 5.
Proof.
  rewrite binary64_2_8 by lra. unfold Rltb.
  destruct (Rlt_dec _ 4); [lra|].
  rewrite (roundTiesToEven_up 5629499534213119); [|lra|reflexivity].
  change (5629499534213119 + 1)%Z with 5629499534213120%Z. lra.
Qed.

Lemma binary64_rounds_to_4 :
  binary64 ((1 - / 9007199254740992) * (4 - 2) + 2) = 4.
Proof.
  rewrite binary64_2_8 by lra. unfold Rltb.
  destruct (Rlt_dec _ 4); [|lra].
  rewrite (roundTiesToEven_up 9007199254740991); [|lra|reflexivity].
  change (9007199254740991 + 1)%Z with 9007199254740992%Z. lra.
Qed.


(** ** The rules of the logic of emissions *)

Lemma Emit_app_nil_l (e : Emit) : Emit_app Emit_nil e = e.
Proof. destruct e; reflexivity. Qed.

Lemma Emit_app_nil_r (e : Emit) : Emit_app e Emit_nil = e.
Proof.
  destruct e; unfold Emit_app; simpl.
  now rewrite !app_nil_r, Nat.add_0_r.
Qed.

Lemma Emit_app_assoc (e1 e2 e3 : Emit) :
  Emit_app (Emit_app e1 e2) e3 = Emit_app e1 (Emit_app e2 e3).
Proof.
  unfold Emit_app; simpl.
  now rewrite <- !app_assoc, Nat.add_assoc.
Qed.

Lemma emitted_refl (s : Closure.t) : emitted s s Emit_nil.
Proof.
  unfold emitted; simpl.
  now rewrite app_nil_r, Nat.add_0_r.
Qed.

Lemma emitted_trans (s s1 s2 : Closure.t) (e1 e2 : Emit) :
  emitted s s1 e1 -> emitted s1 s2 e2 -> emitted s s2 (Emit_app e1 e2).
Proof.
  intros (Hw1 & Hb1 & Hl1 & Hc1) (Hw2 & Hb2 & Hl2 & Hc2).
  unfold emitted; simpl.
  rewrite !fold_left_app, <- Hw1, <- Hb1, Hl2, Hl1, Hc2, Hc1.
  repeat split; auto.
  - now rewrite app_assoc.
  - lia.
Qed.

Lemma Emits_weaken {A} (m : Gen A) (P Q : A -> Emit -> Prop) :
  Emits m P -> (forall a e, P a e -> Q a e) -> Emits m Q.
Proof.
  intros Hm HPQ s.
  destruct (Hm s) as (a & s' & e & Hrun & Hem & HP).
  exists a, s', e; auto.
Qed.

Lemma Emits_ret {A} (a : A) (Q : A -> Emit -> Prop) :
  Q a Emit_nil -> Emits (Gret a) Q.
Proof.
  intros HQ s. exists a, s, Emit_nil.
  repeat split; auto using emitted_refl; apply emitted_refl.
Qed.

Lemma Emits_bind {A B} (m : Gen A) (k : A -> Gen B)
    (P : A -> Emit -> Prop) (Q : B -> Emit -> Prop) :
  Emits m P ->
  (forall a e1, P a e1 -> Emits (k a) (fun b e2 => Q b (Emit_app e1 e2))) ->
  Emits (Gbind m k) Q.
Proof.
  intros Hm Hk s.
  destruct (Hm s) as (a & s1 & e1 & Hrun1 & Hem1 & HP).
  destruct (Hk a e1 HP s1) as (b & s2 & e2 & Hrun2 & Hem2 & HQ).
  exists b, s2, (Emit_app e1 e2).
  unfold Gbind; rewrite Hrun1.
  eauto using emitted_trans.
Qed.

Lemma Emits_rnd {A} (m : Rand A) (Q : A -> Prop) (P : nat -> Prop) :
  Rand_spec m Q P ->
  Emits (rnd m) (fun a e => Q a /\ exists n, e = mkEmit [] [] [] n /\ P n).
Proof.
  intros Hm s.
  destruct (Hm (Closure.cursor s)) as (HQ & n & Hn & HP).
  unfold rnd. destruct (m (Closure.cursor s)) as [a c] eqn:Hrun.
  simpl in HQ, Hn.
  eexists a, _, (mkEmit [] [] [] n); split; [reflexivity|].
  unfold emitted; simpl. rewrite app_nil_r.
  repeat split; eauto.
Qed.

Lemma Emits_woodBuffer_add (p : Particle) :
  Emits (woodBuffer_add p) (fun _ e => e = mkEmit [p] [] [] 0).
Proof.
  intros s. eexists tt, _, (mkEmit [p] [] [] 0); split; [reflexivity|].
  unfold emitted; simpl. rewrite app_nil_r, Nat.add_0_r. auto.
Qed.

Lemma Emits_blossomBuffer_add (p : Particle) :
  Emits (blossomBuffer_add (Some p)) (fun _ e => e = mkEmit [] [p] [] 0).
Proof.
  intros s. eexists tt, _, (mkEmit [] [p] [] 0); split; [reflexivity|].
  unfold emitted; simpl. rewrite app_nil_r, Nat.add_0_r. auto.
Qed.

Lemma Emits_leafNodes_push (v : THREE.Vector3) :
  Emits (leafNodes_push v) (fun _ e => e = mkEmit [] [] [v] 0).
Proof.
  intros s. eexists tt, _, (mkEmit [] [] [v] 0); split; [reflexivity|].
  unfold emitted; simpl. rewrite Nat.add_0_r. auto.
Qed.

(** The loop rule: [Inv k acc] holds of the emission [acc] of the first [k]
    iterations. *)
Lemma Emits_forLoop (Inv : nat -> Emit -> Prop) (body : nat -> Gen unit) :
  forall (n start : nat),
    Inv 0%nat Emit_nil ->
    (forall k acc, (k < n)%nat -> Inv k acc ->
       Emits (body (start + k)%nat) (fun _ e => Inv (S k) (Emit_app acc e))) ->
    Emits (forLoop start n body) (fun _ e => Inv n e).
Proof.
  intros n; revert Inv.
  induction n as [|n IH]; intros Inv start H0 Hbody.
  - simpl. now apply Emits_ret.
  - simpl.
    apply Emits_bind with (P := fun _ e => Inv 1%nat e).
    + specialize (Hbody 0%nat Emit_nil (Nat.lt_0_succ n) H0).
      rewrite Nat.add_0_r in Hbody.
      eapply Emits_weaken; [exact Hbody|].
      intros ? e He. cbv beta in He. now rewrite Emit_app_nil_l in He.
    + intros ? e1 He1.
      apply (IH (fun k acc => Inv (S k) (Emit_app e1 acc)) (S start)).
      * now rewrite Emit_app_nil_r.
      * intros k acc Hk Hacc.
        specialize (Hbody (S k) (Emit_app e1 acc) (proj1 (Nat.succ_lt_mono k n) Hk) Hacc).
        rewrite Nat.add_succ_r in Hbody. simpl.
        eapply Emits_weaken; [exact Hbody|].
        intros ? e He. cbv beta in He. now rewrite Emit_app_assoc in He.
Qed.

(** ** The rules for random computations *)

Lemma Rand_ret {A} (a : A) (Q : A -> Prop) (P : nat -> Prop) :
  Q a -> P 0%nat -> Rand_spec (Rret a) Q P.
Proof.
  intros HQ HP c; simpl; split; auto.
  exists 0%nat; split; auto.
Qed.

Lemma Rand_bind {A B} (m : Rand A) (k : A -> Rand B)
    (Q1 : A -> Prop) (P1 : nat -> Prop) (Q : B -> Prop) (P : nat -> Prop) :
  Rand_spec m Q1 P1 ->
  (forall a n1, Q1 a -> P1 n1 -> Rand_spec (k a) Q (fun n2 => P (n1 + n2)%nat)) ->
  Rand_spec (Rbind m k) Q P.
Proof.
  intros Hm Hk c.
  destruct (Hm c) as (HQ1 & n1 & Hn1 & HP1).
  unfold Rbind. destruct (m c) as [a c1]; simpl in *.
  destruct (Hk a n1 HQ1 HP1 c1) as (HQ & n2 & Hn2 & HP).
  split; auto.
  exists (n1 + n2)%nat; split; auto. lia.
Qed.

Lemma Rand_weaken {A} (m : Rand A) (Q1 Q : A -> Prop) (P1 P : nat -> Prop) :
  Rand_spec m Q1 P1 -> (forall a, Q1 a -> Q a) -> (forall n, P1 n -> P n) ->
  Rand_spec m Q P.
Proof.
  intros Hm HQ HP c.
  destruct (Hm c) as (H1 & n & Hn & H2).
  split; auto. exists n; auto.
Qed.

Section RandomFacts.

Variable rs : RandomSource.

Lemma Math_random_spec :
  Rand_spec (Math_random rs) (fun v => 0 <= v < 1) (fun n => n = 1%nat).
Proof.
  intros c; simpl; split.
  - apply draw_range.
  - exists 1%nat; split; auto. lia.
Qed.

Lemma randomRange_spec (lo hi : R) :
  lo <= hi ->
  Rand_spec (randomRange rs lo hi) (fun v => lo <= v <= hi) (fun n => n = 1%nat).
Proof.
  intros Hle. unfold randomRange.
  eapply Rand_bind; [apply Math_random_spec|].
  intros v n Hv ->.
  apply Rand_ret; [nra | reflexivity].
Qed.

Lemma randomRange_strict (lo hi : R) :
  lo < hi ->
  Rand_spec (randomRange rs lo hi) (fun v => lo <= v < hi) (fun n => n = 1%nat).
Proof.
  intros Hlt. unfold randomRange.
  eapply Rand_bind; [apply Math_random_spec|].
  intros v n Hv ->.
  apply Rand_ret; [nra | reflexivity].
Qed.

(** Specifications that only say that the computation returns. *)
Lemma Rand_any_ret {A} (a : A) :
  Rand_spec (Rret a) (fun _ => True) (fun _ => True).
Proof. now apply Rand_ret. Qed.

Lemma Rand_any_bind {A B} (m : Rand A) (k : A -> Rand B) :
  Rand_spec m (fun _ => True) (fun _ => True) ->
  (forall a, Rand_spec (k a) (fun _ => True) (fun _ => True)) ->
  Rand_spec (Rbind m k) (fun _ => True) (fun _ => True).
Proof.
  intros Hm Hk. eapply Rand_bind; [exact Hm|].
  intros a n _ _. apply Hk.
Qed.

Lemma Rand_any_random :
  Rand_spec (Math_random rs) (fun _ => True) (fun _ => True).
Proof. eapply Rand_weaken; [apply Math_random_spec| |]; auto. Qed.

Lemma Rand_any_randomRange (lo hi : R) :
  Rand_spec (randomRange rs lo hi) (fun _ => True) (fun _ => True).
Proof.
  unfold randomRange. apply Rand_any_bind; [apply Rand_any_random|].
  intros a. apply Rand_any_ret.
Qed.

(** The point of spherical coordinates [(r, phi, theta)] is at distance
    [r] from the origin. *)
Lemma spherical_length (r phi theta : R) :
  0 <= r ->
  THREE.length (THREE.mkVector3 (r * sin phi * cos theta)
                                (r * sin phi * sin theta)
                                (r * cos phi)) = r.
Proof.
  intros Hr. unfold THREE.length; simpl.
  pose proof (sin2_cos2 phi) as Hphi.
  pose proof (sin2_cos2 theta) as Htheta.
  unfold Rsqr in Hphi, Htheta.
  replace (r * sin phi * cos theta * (r * sin phi * cos theta)
           + r * sin phi * sin theta * (r * sin phi * sin theta)
           + r * cos phi * (r * cos phi))
    with (r * r * (sin phi * sin phi * (sin theta * sin theta + cos theta * cos theta)
                   + cos phi * cos phi)) by ring.
  rewrite Htheta, Rmult_1_r, Hphi, Rmult_1_r.
  now apply sqrt_square.
Qed.

Lemma getRandomSpacePos_spec :
  Rand_spec (getRandomSpacePos rs) (in_shell 80 200) (fun _ => True).
Proof.
  unfold getRandomSpacePos.
  eapply Rand_bind; [apply (randomRange_spec 80 200); lra|].
  intros r n Hr _.
  eapply Rand_bind; [apply Rand_any_randomRange|].
  intros theta n1 _ _.
  eapply Rand_bind; [apply Rand_any_randomRange|].
  intros a n2 _ _.
  apply Rand_ret; auto.
  unfold in_shell. rewrite spherical_length; lra.
Qed.

Lemma Rand_any_getRandomSpacePos :
  Rand_spec (getRandomSpacePos rs) (fun _ => True) (fun _ => True).
Proof. eapply Rand_weaken; [apply getRandomSpacePos_spec| |]; auto. Qed.

End RandomFacts.

(** Discharges the specifications that only say that a random computation
    returns, and skips such a step of a longer computation. *)
Ltac rand_any :=
  repeat first
    [ apply Rand_any_ret
    | apply Rand_any_random
    | apply Rand_any_randomRange
    | apply Rand_any_getRandomSpacePos
    | apply Rand_any_bind; [|intros ?]
    | match goal with
      | |- Rand_spec (if ?c then _ else _) _ _ => destruct c
      end ].

Ltac rand_skip :=
  eapply Rand_bind; [solve [rand_any] | intros ? ? _ _].

Section ParticleFacts.

Variable rs : RandomSource.

Lemma woodParticle_spec (isTrunk : bool) (start end_ u v : THREE.Vector3)
    (radius : R) (segmentParticles : Z) (i : nat) :
  Rand_spec (woodParticle rs isTrunk start end_ u v radius segmentParticles i)
            target_ok (fun _ => True).
Proof.
  unfold woodParticle; cbv zeta.
  do 5 rand_skip.
  eapply Rand_bind; [apply getRandomSpacePos_spec|].
  intros target ntarget Htarget _.
  do 5 rand_skip.
  apply Rand_ret; auto.
Qed.

Lemma Zfloor_range (a c : Z) (v : R) :
  IZR a <= v < IZR c -> (a <= Zfloor v < c)%Z.
Proof.
  intros [Hlo Hhi]. split.
  - now apply Zfloor_lub.
  - apply lt_IZR. pose proof (Zfloor_bound v). lra.
Qed.

Lemma branchCount_spec (isTrunk : bool) :
  Rand_spec (branchCount rs isTrunk)
            (fun n => if isTrunk then (3 <= n <= 5)%Z else (2 <= n <= 4)%Z)
            (fun _ => True).
Proof.
  unfold branchCount.
  destruct isTrunk.
  - eapply Rand_bind; [apply (randomRange_strict rs 3 5); lra|].
    intros v n Hv _. apply Rand_ret; auto.
    apply Math_floor_binary64_between; try lia; lra.
  - eapply Rand_bind; [apply (randomRange_strict rs 2 4); lra|].
    intros v n Hv _. apply Rand_ret; auto.
    apply Math_floor_binary64_between; try lia; lra.
Qed.

Lemma childDirection_spec (isTrunk : bool) (depth currentDepth : Z)
    (direction tangent bitangent : THREE.Vector3) (count : Z) (i : nat) :
  Rand_spec (childDirection rs isTrunk depth currentDepth direction tangent
                            bitangent count i)
            (fun _ => True) (fun _ => True).
Proof. unfold childDirection; cbv zeta. rand_any. Qed.

Lemma blossomCluster_spec (end_ : THREE.Vector3) :
  Rand_spec (blossomCluster rs end_) (fun _ => True) (fun n => (1 <= n)%nat).
Proof.
  unfold blossomCluster; cbv zeta.
  eapply Rand_bind; [apply (randomRange_spec rs (-8) 8); lra|].
  intros ox n _ ->.
  do 5 (eapply Rand_bind; [solve [rand_any] | intros ? ? _ _]).
  apply Rand_ret; auto. lia.
Qed.

Lemma blossomColors_get (ci : R) :
  0 <= ci < 1 ->
  exists c, array_get blossomColors
              (Math_floor (ci * INR (List.length blossomColors))) = Some c.
Proof.
  intros Hci. unfold Math_floor.
  assert (Hr : IZR 0 <= ci * INR (List.length blossomColors) < IZR 5)
    by (simpl; lra).
  apply Zfloor_range in Hr.
  set (idx := Zfloor (ci * INR (List.length blossomColors))) in *.
  assert (Hcase : idx = 0%Z \/ idx = 1%Z \/ idx = 2%Z \/ idx = 3%Z \/ idx = 4%Z) by lia.
  destruct Hcase as [-> | [-> | [-> | [-> | ->]]]]; eexists; reflexivity.
Qed.

Lemma blossomParticle_spec (cl : Cluster) :
  Rand_spec (blossomParticle rs cl)
            (fun o => exists p, o = Some p /\ target_ok p) (fun _ => True).
Proof.
  unfold blossomParticle; cbv zeta.
  do 5 rand_skip.
  eapply Rand_bind; [apply Math_random_spec|].
  intros ci nci Hci _.
  do 4 rand_skip.
  eapply Rand_bind; [apply getRandomSpacePos_spec|].
  intros target ntarget Htarget _.
  rand_skip.
  apply Rand_ret; auto.
  destruct (blossomColors_get ci Hci) as [c ->].
  simpl. eexists; split; [reflexivity|]. exact Htarget.
Qed.

End ParticleFacts.

(** ** What the loops of [growBranch] emit *)

Section GrowBranchFacts.

Variable rs : RandomSource.

Lemma wood_loop_emits (isTrunk : bool) (start end_ u v : THREE.Vector3)
    (radius : R) (segmentParticles : Z) (n : nat) :
  Emits (forLoop 0 n
           (fun i =>
              Gbind (rnd (woodParticle rs isTrunk start end_ u v radius
                                       segmentParticles i))
                    (fun p => woodBuffer_add p)))
        (fun _ e => Forall target_ok (e_wood e)
                    /\ e_blossom e = [] /\ e_leaves e = []).
Proof.
  apply (Emits_forLoop
           (fun _ e => Forall target_ok (e_wood e)
                       /\ e_blossom e = [] /\ e_leaves e = [])).
  - simpl; auto.
  - intros k acc _ (Hw & Hb & Hl).
    eapply Emits_bind; [apply Emits_rnd, woodParticle_spec|].
    intros p e1 (Hp & d & -> & _).
    eapply Emits_weaken; [apply Emits_woodBuffer_add|].
    intros ? e ->; simpl.
    rewrite Hb, Hl. repeat split; auto.
    apply Forall_app; split; auto.
Qed.

Lemma blossom_loop_emits (cl : Cluster) (n : nat) :
  Emits (forLoop 0 n
           (fun k =>
              Gbind (rnd (blossomParticle rs cl)) (fun p => blossomBuffer_add p)))
        (fun _ e => e_wood e = [] /\ Forall target_ok (e_blossom e)
                    /\ List.length (e_blossom e) = n /\ e_leaves e = []).
Proof.
  apply (Emits_forLoop
           (fun k e => e_wood e = [] /\ Forall target_ok (e_blossom e)
                       /\ List.length (e_blossom e) = k /\ e_leaves e = [])).
  - simpl; auto.
  - intros k acc _ (Hw & Hb & Hn & Hl).
    eapply Emits_bind; [apply Emits_rnd, blossomParticle_spec|].
    intros o e1 ((p & -> & Hp) & d & -> & _).
    eapply Emits_weaken; [apply Emits_blossomBuffer_add|].
    intros ? e ->; simpl.
    rewrite Hw, Hl, length_app, Hn; simpl. repeat split; auto.
    + apply Forall_app; split; auto.
    + lia.
Qed.

Lemma clusters_emit (end_ : THREE.Vector3) :
  Emits (forLoop 0 5
           (fun c =>
              Gbind (rnd (blossomCluster rs end_))
                (fun cl =>
                   forLoop 0 90
                     (fun k =>
                        Gbind (rnd (blossomParticle rs cl))
                              (fun p => blossomBuffer_add p)))))
        (fun _ e => e_wood e = [] /\ Forall target_ok (e_blossom e)
                    /\ List.length (e_blossom e) = 450%nat /\ e_leaves e = []
                    /\ (1 <= e_draws e)%nat).
Proof.
  eapply Emits_weaken.
  - apply (Emits_forLoop
             (fun k e => e_wood e = [] /\ Forall target_ok (e_blossom e)
                         /\ List.length (e_blossom e) = (90 * k)%nat
                         /\ e_leaves e = []
                         /\ (1 <= k -> 1 <= e_draws e)%nat)).
    + simpl; repeat split; auto.
    + intros k acc _ (Hw & Hb & Hn & Hl & Hd).
      eapply Emits_bind; [apply Emits_rnd, blossomCluster_spec|].
      intros cl e1 (_ & d & -> & Hd1).
      eapply Emits_weaken; [apply blossom_loop_emits|].
      intros ? e (Hw2 & Hb2 & Hn2 & Hl2); simpl.
      rewrite Hw, Hl, Hw2, Hl2, length_app, Hn, Hn2; simpl.
      repeat split; auto; try lia.
      apply Forall_app; split; auto.
  - intros ? e (Hw & Hb & Hn & Hl & Hd). repeat split; auto; lia.
Qed.

End GrowBranchFacts.

Section GrowBranchSpec.

Variable rs : RandomSource.

Lemma pow5_pos (n : nat) : (1 <= 5 ^ n)%nat.
Proof. pose proof (Nat.pow_nonzero 5 n). lia. Qed.

(** With more fuel than [currentDepth], [growBranch] returns, and its
    emission satisfies [GrowPost]. *)
Lemma growBranch_emits :
  forall (fuel : nat) (depth : Z) (start direction : THREE.Vector3)
         (length radius : R) (currentDepth : Z),
    (Z.to_nat currentDepth < fuel)%nat ->
    Emits (growBranch rs fuel depth start direction length radius currentDepth)
          (fun _ e =>
             GrowPost currentDepth
               (THREE.add start (THREE.multiplyScalar direction length)) e).
Proof.
  induction fuel as [|fuel IH];
    intros depth start direction length radius currentDepth Hfuel; [lia|].
  cbn [growBranch]. cbv zeta.
  eapply Emits_bind; [apply wood_loop_emits|].
  intros ? e1 (Hw1 & Hb1 & Hl1).
  destruct (currentDepth >? 0)%Z eqn:Hcd.
  - (* the branch recurses *)
    apply Z.gtb_lt in Hcd.
    eapply Emits_bind; [apply Emits_rnd, branchCount_spec|].
    intros count e2 (Hcount & d & -> & _).
    assert (Hc : (2 <= count <= 5)%Z)
      by (destruct (currentDepth =? depth)%Z; lia).
    set (n := Z.to_nat (currentDepth - 1)).
    assert (Hn : Z.to_nat currentDepth = S n) by lia.
    eapply Emits_weaken.
    + apply (Emits_forLoop
               (fun k e =>
                  Forall target_ok (e_wood e)
                  /\ Forall target_ok (e_blossom e)
                  /\ List.length (e_blossom e) = (450 * List.length (e_leaves e))%nat
                  /\ (k * 2 ^ n <= List.length (e_leaves e) <= k * 5 ^ n)%nat
                  /\ (1 <= k -> 1 <= e_draws e)%nat)).
      * simpl; repeat split; auto.
      * intros k acc _ (Aw & Ab & An & Al & Ad).
        eapply Emits_bind; [apply Emits_rnd, childDirection_spec|].
        intros nextDir e3 (_ & d3 & -> & _).
        eapply Emits_weaken; [apply IH; lia|].
        intros ? e (Gw & Gb & Gn & Gl & _ & Gd). simpl.
        fold n in Gl.
        rewrite !length_app.
        repeat split; try lia.
        -- apply Forall_app; split; auto.
        -- apply Forall_app; split; auto.
    + intros ? e (Aw & Ab & An & Al & Ad).
      unfold GrowPost; simpl. rewrite Hb1, Hl1, Hn; simpl.
      assert (Hk : (2 <= Z.to_nat count <= 5)%nat) by lia.
      assert (Hmul : (Z.to_nat count * 5 ^ n <= 5 * 5 ^ n)%nat)
        by (apply Nat.mul_le_mono_r; lia).
      assert (Hmul2 : (2 * 2 ^ n <= Z.to_nat count * 2 ^ n)%nat)
        by (apply Nat.mul_le_mono_r; lia).
      repeat split; auto; try lia.
      apply Forall_app; split; auto.
  - (* the branch is terminal *)
    rewrite Z.gtb_ltb in Hcd. apply Z.ltb_ge in Hcd.
    eapply Emits_bind; [apply Emits_leafNodes_push|].
    intros ? e2 ->.
    eapply Emits_weaken; [apply clusters_emit|].
    intros ? e (Cw & Cb & Cn & Cl & Cd).
    unfold GrowPost; simpl. rewrite Hb1, Hl1, Cw, Cl; simpl. rewrite Cn.
    replace (Z.to_nat currentDepth) with 0%nat by lia. simpl.
    repeat split; auto; try lia.
    now rewrite app_nil_r.
Qed.

End GrowBranchSpec.

(** ** The arrays of a buffer *)

Lemma fold_addParticle (ps : list Particle) (buf : ParticleBuffer.t) :
  fold_left addParticle ps buf
  = ParticleBuffer.mk
      (ParticleBuffer.positions buf
         ++ flat_map (fun p => [THREE.x (pos p); THREE.y (pos p); THREE.z (pos p)]) ps)
      (ParticleBuffer.targetPositions buf
         ++ flat_map (fun p => [THREE.x (targetPos p); THREE.y (targetPos p);
                                THREE.z (targetPos p)]) ps)
      (ParticleBuffer.colors buf
         ++ flat_map (fun p => [THREE.r (color p); THREE.g (color p);
                                THREE.b (color p)]) ps)
      (ParticleBuffer.sizes buf ++ flat_map (fun p => [size p]) ps)
      (ParticleBuffer.drifts buf
         ++ flat_map (fun p => [THREE.x (drift p); THREE.y (drift p);
                                THREE.z (drift p)]) ps)
      (ParticleBuffer.phases buf ++ flat_map (fun p => [phase p]) ps).
Proof.
  revert buf. induction ps as [|p ps IH]; intros buf.
  - simpl. rewrite !app_nil_r. now destruct buf.
  - simpl fold_left. rewrite IH.
    unfold addParticle, ParticleBuffer.add; simpl.
    now rewrite <- !app_assoc.
Qed.

Lemma length_flat_map3 {A} (f1 f2 f3 : A -> R) (l : list A) :
  List.length (flat_map (fun p => [f1 p; f2 p; f3 p]) l) = (3 * List.length l)%nat.
Proof. induction l as [|a l IH]; simpl; [reflexivity | rewrite IH; lia]. Qed.

Lemma length_flat_map1 {A} (f : A -> R) (l : list A) :
  List.length (flat_map (fun p => [f p]) l) = List.length l.
Proof. induction l as [|a l IH]; simpl; [reflexivity | now rewrite IH]. Qed.

Lemma nth_error_flat_map1 {A} (f : A -> R) (l : list A) (i : nat) :
  nth_error (flat_map (fun p => [f p]) l) i = option_map f (nth_error l i).
Proof.
  revert i. induction l as [|a l IH]; intros [|i]; simpl; auto.
Qed.

Lemma vec3At_flat_map3 {A} (f1 f2 f3 : A -> R) (l : list A) (i : nat) :
  vec3At (flat_map (fun p => [f1 p; f2 p; f3 p]) l) i
  = option_map (fun p => THREE.mkVector3 (f1 p) (f2 p) (f3 p)) (nth_error l i).
Proof.
  revert i. induction l as [|a l IH]; intros i.
  - unfold vec3At. simpl flat_map.
    replace (nth_error (@nil R) (3 * i)) with (@None R)
      by (now destruct (3 * i)%nat).
    now destruct i.
  - destruct i as [|i].
    + reflexivity.
    + specialize (IH i). unfold vec3At in *.
      replace (3 * S i)%nat with (S (S (S (3 * i)))) by lia.
      simpl flat_map. simpl nth_error. exact IH.
Qed.

Lemma ParallelArrays_dataOf (ps : list Particle) : ParallelArrays (dataOf ps) ps.
Proof.
  unfold ParallelArrays, dataOf, particleCount.
  rewrite fold_addParticle.
  unfold ParticleBuffer.toData, Float32Array_from, particleAt; simpl.
  rewrite !length_flat_map3, !length_flat_map1.
  repeat split; auto; intros i;
    rewrite ?vec3At_flat_map3, ?nth_error_flat_map1;
    destruct (nth_error ps i) as [p|]; simpl; auto.
  - destruct p as [[? ? ?] [? ? ?] [? ? ?] ? [? ? ?] ?]; reflexivity.
  - destruct p as [[? ? ?] ? ? ? ? ?]; reflexivity.
  - destruct p as [? [? ? ?] ? ? ? ?]; reflexivity.
Qed.

(** ** What [generateTree] returns *)

Lemma generateTree_emits (rs : RandomSource) (fuel : nat) (params : TreeGenParams)
    (c : nat) :
  (Z.to_nat (depth params) < fuel)%nat ->
  exists t e,
    generateTree rs fuel params c = Ok (t, (c + e_draws e)%nat)
    /\ wood t = dataOf (e_wood e)
    /\ blossoms t = dataOf (e_blossom e)
    /\ leafNodes t = e_leaves e
    /\ GrowPost (depth params)
         (THREE.add (startPos params)
            (THREE.multiplyScalar (THREE.mkVector3 0 1 0) (branchLength params))) e.
Proof.
  intros Hfuel. unfold generateTree.
  destruct (growBranch_emits rs fuel (depth params) (startPos params)
              (THREE.mkVector3 0 1 0) (branchLength params) 10.0 (depth params) Hfuel
              (Closure.mk c ParticleBuffer.new ParticleBuffer.new []))
    as ([] & s' & e & Hrun & (Hw & Hb & Hl & Hc) & Hpost).
  rewrite Hrun. simpl in Hw, Hb, Hl, Hc.
  eexists _, e; split; [rewrite Hc; reflexivity|].
  unfold dataOf; simpl. rewrite Hw, Hb, Hl. auto.
Qed.

(** ** More fuel changes nothing *)

Lemma refines_refl {A} (m : Gen A) : refines m m.
Proof. intros s r H; exact H. Qed.

Lemma refines_bind {A B} (m m' : Gen A) (k k' : A -> Gen B) :
  refines m m' -> (forall a, refines (k a) (k' a)) ->
  refines (Gbind m k) (Gbind m' k').
Proof.
  intros Hm Hk s r. unfold Gbind.
  destruct (m s) as [[a s1]| |] eqn:Hrun; try discriminate.
  rewrite (Hm _ _ Hrun). apply Hk.
Qed.

Lemma refines_forLoop (body body' : nat -> Gen unit) :
  (forall i, refines (body i) (body' i)) ->
  forall n start, refines (forLoop start n body) (forLoop start n body').
Proof.
  intros Hbody. induction n as [|n IH]; intros start; simpl.
  - apply refines_refl.
  - apply refines_bind; auto.
Qed.

Lemma growBranch_fuel_mono (rs : RandomSource) :
  forall (fuel fuel' : nat) (depth : Z) (start direction : THREE.Vector3)
         (length radius : R) (currentDepth : Z),
    (fuel <= fuel')%nat ->
    refines (growBranch rs fuel depth start direction length radius currentDepth)
            (growBranch rs fuel' depth start direction length radius currentDepth).
Proof.
  induction fuel as [|fuel IH];
    intros fuel' depth start direction length radius currentDepth Hle.
  - intros s r H. discriminate H.
  - destruct fuel' as [|fuel']; [lia|].
    cbn [growBranch]. cbv zeta.
    apply refines_bind; [apply refines_refl|]. intros _.
    destruct (currentDepth >? 0)%Z; [|apply refines_refl].
    apply refines_bind; [apply refines_refl|]. intros count.
    apply refines_forLoop. intros i.
    apply refines_bind; [apply refines_refl|]. intros nextDir.
    apply IH. lia.
Qed.

Lemma generateTree_fuel_mono (rs : RandomSource) (fuel fuel' : nat)
    (params : TreeGenParams) (c : nat) (r : TreeData * nat) :
  (fuel <= fuel')%nat ->
  generateTree rs fuel params c = Ok r -> generateTree rs fuel' params c = Ok r.
Proof.
  intros Hle. unfold generateTree.
  destruct (growBranch rs fuel _ _ _ _ _ _ _) as [[a s]| |] eqn:Hrun; try discriminate.
  now rewrite (growBranch_fuel_mono rs fuel fuel' _ _ _ _ _ _ Hle _ _ Hrun).
Qed.

Lemma Gbind_out_of_fuel {A B} (m : Gen A) (k : A -> Gen B)
    (Q : A -> Emit -> Prop) :
  Emits m Q ->
  (forall a e, Q a e -> forall s1, k a s1 = OutOfFuel) ->
  forall s, Gbind m k s = OutOfFuel.
Proof.
  intros Hm Hk s.
  destruct (Hm s) as (a & s1 & e & Hrun & _ & HQ).
  unfold Gbind. rewrite Hrun. eauto.
Qed.

Lemma Gbind_out_of_fuel_first {A B} (m : Gen A) (k : A -> Gen B) (s : Closure.t) :
  m s = OutOfFuel -> Gbind m k s = OutOfFuel.
Proof. intros H. unfold Gbind. now rewrite H. Qed.

(** With no more fuel than [currentDepth] the model runs out of fuel: the
    recursion goes exactly [currentDepth + 1] calls deep. *)
Lemma growBranch_needs_fuel (rs : RandomSource) :
  forall (fuel : nat) (depth : Z) (start direction : THREE.Vector3)
         (length radius : R) (currentDepth : Z) (s : Closure.t),
    (fuel <= Z.to_nat currentDepth)%nat ->
    growBranch rs fuel depth start direction length radius currentDepth s = OutOfFuel.
Proof.
  induction fuel as [|fuel IH];
    intros depth start direction length radius currentDepth s Hle; [reflexivity|].
  cbn [growBranch]. cbv zeta.
  revert s. eapply Gbind_out_of_fuel; [apply wood_loop_emits|].
  intros ? e1 _.
  assert (Hcd : (currentDepth >? 0)%Z = true) by (apply Z.gtb_lt; lia).
  rewrite Hcd.
  eapply Gbind_out_of_fuel; [apply Emits_rnd, branchCount_spec|].
  intros count e2 (Hcount & _) s2.
  assert (Hc : exists m, Z.to_nat count = S m).
  { exists (Nat.pred (Z.to_nat count)).
    destruct (currentDepth =? depth)%Z; lia. }
  destruct Hc as [m ->].
  cbn [forLoop].
  apply Gbind_out_of_fuel_first.
  revert s2. eapply Gbind_out_of_fuel; [apply Emits_rnd, childDirection_spec|].
  intros nextDir e3 _ s3.
  apply IH. lia.
Qed.

(** ** The particle sets of [generateTree] *)

(** C1.  [generateTree] returns two particle sets whose six arrays are
    parallel: each set is what a sequence of calls of [add] exports, so that
    [positions], [targetPositions], [colors] and [drifts] hold three entries
    per particle, [sizes] and [phases] hold one, and entry [i] of every
    array belongs to the particle of the [i]-th call. *)
Theorem generateTree_parallel_arrays (rs : RandomSource) (fuel : nat)
    (params : TreeGenParams) (c : nat) :
  (Z.to_nat (depth params) < fuel)%nat ->
  exists t c' woodParticles blossomParticles,
    generateTree rs fuel params c = Ok (t, c')
    /\ ParallelArrays (wood t) woodParticles
    /\ ParallelArrays (blossoms t) blossomParticles.
Proof.
  intros Hfuel.
  destruct (generateTree_emits rs fuel params c Hfuel)
    as (t & e & Hrun & Hw & Hb & _).
  exists t, (c + e_draws e)%nat, (e_wood e), (e_blossom e).
  rewrite Hw, Hb.
  auto using ParallelArrays_dataOf.
Qed.

Lemma generateTree_parallel_arrays_witness :
  exists t c' woodParticles blossomParticles,
    generateTree zeroSource 3 scenarioParams 0 = Ok (t, c')
    /\ ParallelArrays (wood t) woodParticles
    /\ ParallelArrays (blossoms t) blossomParticles.
Proof.
  apply (generateTree_parallel_arrays zeroSource 3 scenarioParams 0).
  simpl. lia.
Defined.

(** C2.  For a depth that is not negative and a positive branch length,
    [generateTree] returns: every amount of fuel above [depth] gives the
    same result, no smaller amount gives any, so the recursion is exactly
    [depth + 1] calls deep, and the tree has between [2 ^ depth] and
    [5 ^ depth] leaves: a branch has at least 2 and at most 5 children. *)
Theorem generateTree_terminates (rs : RandomSource) (params : TreeGenParams)
    (c : nat) :
  (0 <= depth params)%Z ->
  0 < branchLength params ->
  exists t c',
    (forall fuel, (Z.to_nat (depth params) < fuel)%nat ->
                  generateTree rs fuel params c = Ok (t, c'))
    /\ (forall fuel, (fuel <= Z.to_nat (depth params))%nat ->
                     generateTree rs fuel params c = OutOfFuel)
    /\ (2 ^ Z.to_nat (depth params) <= List.length (leafNodes t)
        <= 5 ^ Z.to_nat (depth params))%nat.
Proof.
  intros Hdepth Hlength.
  destruct (generateTree_emits rs (S (Z.to_nat (depth params))) params c
              (Nat.lt_succ_diag_r _))
    as (t & e & Hrun & _ & _ & Hl & (_ & _ & _ & Hleaves & _)).
  exists t, (c + e_draws e)%nat. repeat split.
  - intros fuel Hfuel.
    apply (generateTree_fuel_mono rs (S (Z.to_nat (depth params)))); auto.
  - intros fuel Hfuel. unfold generateTree.
    now rewrite growBranch_needs_fuel.
  - rewrite Hl; lia.
  - rewrite Hl; lia.
Qed.

Lemma generateTree_terminates_witness :
  exists t c',
    (forall fuel, (Z.to_nat (depth scenarioParams) < fuel)%nat ->
                  generateTree zeroSource fuel scenarioParams 0 = Ok (t, c'))
    /\ (forall fuel, (fuel <= Z.to_nat (depth scenarioParams))%nat ->
                     generateTree zeroSource fuel scenarioParams 0 = OutOfFuel)
    /\ (2 ^ Z.to_nat (depth scenarioParams) <= List.length (leafNodes t)
        <= 5 ^ Z.to_nat (depth scenarioParams))%nat.
Proof.
  apply (generateTree_terminates zeroSource scenarioParams 0); simpl.
  - lia.
  - lra.
Defined.

(** C10.  A terminal call of [growBranch] ([currentDepth <= 0]) pushes one
    leaf node, the end of the branch, and adds 450 particles to the blossom
    buffer; the blossom set of a generated tree has 450 particles per leaf
    node. *)
Theorem blossoms_per_leaf (rs : RandomSource) (fuel : nat) (params : TreeGenParams)
    (c : nat) (start direction : THREE.Vector3) (length radius : R)
    (currentDepth : Z) (s : Closure.t) :
  (Z.to_nat (depth params) < fuel)%nat ->
  (currentDepth <= 0)%Z ->
  (exists s',
     growBranch rs fuel (depth params) start direction length radius currentDepth s
     = Ok (tt, s')
     /\ Closure.leafNodes s'
        = Closure.leafNodes s
            ++ [THREE.add start (THREE.multiplyScalar direction length)]
     /\ List.length (ParticleBuffer.sizes (Closure.blossomBuffer s'))
        = (List.length (ParticleBuffer.sizes (Closure.blossomBuffer s)) + 450)%nat)
  /\ (exists t c',
        generateTree rs fuel params c = Ok (t, c')
        /\ particleCount (blossoms t) = (450 * List.length (leafNodes t))%nat).
Proof.
  intros Hfuel Hleaf. split.
  - assert (Hf : (Z.to_nat currentDepth < fuel)%nat) by lia.
    destruct (growBranch_emits rs fuel (depth params) start direction length radius
                currentDepth Hf s)
      as ([] & s' & e & Hrun & (_ & Hb & Hl & _) & (_ & _ & Hn & _ & Hone & _)).
    exists s'. rewrite Hrun, Hl, Hb, (Hone Hleaf), fold_addParticle; simpl.
    rewrite length_app, length_flat_map1, Hn, (Hone Hleaf). simpl.
    repeat split; lia.
  - destruct (generateTree_emits rs fuel params c Hfuel)
      as (t & e & Hrun & _ & Hb & Hl & (_ & _ & Hn & _)).
    exists t, (c + e_draws e)%nat. split; auto.
    rewrite Hb, Hl, <- Hn.
    apply (ParallelArrays_dataOf (e_blossom e)).
Qed.

Lemma blossoms_per_leaf_witness :
  (exists s',
     growBranch zeroSource 3 (depth scenarioParams) (THREE.mkVector3 0 0 0)
       (THREE.mkVector3 0 1 0) 10 10 0
       (Closure.mk 0 ParticleBuffer.new ParticleBuffer.new [])
     = Ok (tt, s')
     /\ Closure.leafNodes s'
        = [] ++ [THREE.add (THREE.mkVector3 0 0 0)
                   (THREE.multiplyScalar (THREE.mkVector3 0 1 0) 10)]
     /\ List.length (ParticleBuffer.sizes (Closure.blossomBuffer s'))
        = (0 + 450)%nat)
  /\ (exists t c',
        generateTree zeroSource 3 scenarioParams 0 = Ok (t, c')
        /\ particleCount (blossoms t) = (450 * List.length (leafNodes t))%nat).
Proof.
  apply (blossoms_per_leaf zeroSource 3 scenarioParams 0 (THREE.mkVector3 0 0 0)
           (THREE.mkVector3 0 1 0) 10 10 0
           (Closure.mk 0 ParticleBuffer.new ParticleBuffer.new [])).
  - simpl. lia.
  - lia.
Defined.

(** ** Parameters that the specification calls invalid *)

(** [generateTree] validates nothing.  With a negative depth the trunk is at
    once a terminal branch. *)
Lemma generateTree_terminal_trunk (rs : RandomSource) (fuel : nat)
    (params : TreeGenParams) (c : nat) :
  (depth params <= 0)%Z ->
  (1 <= fuel)%nat ->
  exists t c',
    generateTree rs fuel params c = Ok (t, c')
    /\ leafNodes t
       = [THREE.add (startPos params)
            (THREE.multiplyScalar (THREE.mkVector3 0 1 0) (branchLength params))]
    /\ particleCount (blossoms t) = 450%nat.
Proof.
  intros Hdepth Hfuel.
  assert (Hf : (Z.to_nat (depth params) < fuel)%nat) by lia.
  destruct (generateTree_emits rs fuel params c Hf)
    as (t & e & Hrun & _ & Hb & Hl & (_ & _ & Hn & _ & Hone & _)).
  exists t, (c + e_draws e)%nat. repeat split; auto.
  - rewrite Hl. auto.
  - rewrite Hb.
    replace (particleCount (dataOf (e_blossom e))) with (List.length (e_blossom e))
      by (symmetry; apply (ParallelArrays_dataOf (e_blossom e))).
    rewrite Hn, (Hone Hdepth). reflexivity.
Qed.

(** C3, as stated, fails: with depth [-1] the call throws nothing and
    returns a tree of one leaf node and 450 blossom particles. *)
Lemma generateTree_negative_depth_counterexample :
  (depth negativeDepthParams < 0)%Z
  /\ ~ (exists e, generateTree zeroSource 1 negativeDepthParams 0 = Throw e)
  /\ exists t c',
       generateTree zeroSource 1 negativeDepthParams 0 = Ok (t, c')
       /\ List.length (leafNodes t) = 1%nat
       /\ particleCount (blossoms t) = 450%nat.
Proof.
  assert (Hd : (depth negativeDepthParams <= 0)%Z) by (simpl; lia).
  destruct (generateTree_terminal_trunk zeroSource 1 negativeDepthParams 0 Hd
              (Nat.le_refl 1))
    as (t & c' & Hrun & Hl & Hn).
  split; [simpl; lia|]. split.
  - intros [e He]. rewrite Hrun in He. discriminate He.
  - exists t, c'. rewrite Hl. auto.
Qed.

(** C3, amended.  For a negative depth [generateTree] reports no error: it
    returns, the trunk being a terminal branch, a tree with one leaf node,
    the end of the trunk, and 450 blossom particles. *)
Theorem generateTree_negative_depth (rs : RandomSource) (fuel : nat)
    (params : TreeGenParams) (c : nat) :
  (depth params < 0)%Z ->
  (1 <= fuel)%nat ->
  exists t c',
    generateTree rs fuel params c = Ok (t, c')
    /\ leafNodes t
       = [THREE.add (startPos params)
            (THREE.multiplyScalar (THREE.mkVector3 0 1 0) (branchLength params))]
    /\ particleCount (blossoms t) = 450%nat.
Proof.
  intros Hdepth Hfuel.
  apply generateTree_terminal_trunk; auto. lia.
Qed.

Lemma generateTree_negative_depth_witness :
  exists t c',
    generateTree zeroSource 1 negativeDepthParams 0 = Ok (t, c')
    /\ leafNodes t
       = [THREE.add (startPos negativeDepthParams)
            (THREE.multiplyScalar (THREE.mkVector3 0 1 0)
               (branchLength negativeDepthParams))]
    /\ particleCount (blossoms t) = 450%nat.
Proof.
  apply (generateTree_negative_depth zeroSource 1 negativeDepthParams 0).
  - simpl. lia.
  - lia.
Defined.

(** ** createPhotoData *)

Lemma insertBy_Permutation {A} (comparefn : A -> A -> Rand R) (a : A) :
  forall (sorted : list A) (c : nat),
    Permutation (a :: sorted) (fst (insertBy comparefn a sorted c)).
Proof.
  induction sorted as [|h rest IH]; intros c; simpl.
  - reflexivity.
  - unfold Rbind. destruct (comparefn h a c) as [v c1].
    destruct (Rltb 0 v); simpl.
    + reflexivity.
    + specialize (IH c1).
      destruct (insertBy comparefn a rest c1) as [rest' c2]; simpl in *.
      rewrite perm_swap. now apply perm_skip.
Qed.

Lemma Array_sort_Permutation {A} (comparefn : A -> A -> Rand R) :
  forall (arr : list A) (c : nat),
    Permutation arr (fst (Array_sort comparefn arr c)).
Proof.
  induction arr as [|a rest IH]; intros c; simpl.
  - reflexivity.
  - unfold Rbind. specialize (IH c).
    destruct (Array_sort comparefn rest c) as [sorted c1]; simpl in *.
    rewrite <- insertBy_Permutation. now apply perm_skip.
Qed.

Lemma forEach_from_length {A B} (f : A -> nat -> Rand B) :
  forall (arr : list A) (index c : nat),
    List.length (fst (forEach_from f index arr c)) = List.length arr.
Proof.
  induction arr as [|a rest IH]; intros index c; simpl; auto.
  unfold Rbind. destruct (f a index c) as [p c1].
  specialize (IH (S index) c1).
  destruct (forEach_from f (S index) rest c1) as [ps c2]; simpl in *.
  now rewrite IH.
Qed.

Lemma forEach_from_nth_error {A B} (f : A -> nat -> Rand B)
    (Q : A -> nat -> B -> Prop) :
  (forall a i c, Q a i (fst (f a i c))) ->
  forall (arr : list A) (index c j : nat) (p : B),
    nth_error (fst (forEach_from f index arr c)) j = Some p ->
    exists a, nth_error arr j = Some a /\ Q a (index + j)%nat p.
Proof.
  intros Hf. induction arr as [|a rest IH]; intros index c j p; simpl.
  - now destruct j.
  - unfold Rbind. pose proof (Hf a index c) as Ha.
    destruct (f a index c) as [p0 c1].
    specialize (IH (S index) c1).
    destruct (forEach_from f (S index) rest c1) as [ps c2]; simpl in *.
    destruct j as [|j]; simpl.
    + intros [= <-]. exists a. now rewrite Nat.add_0_r.
    + intros Hj. destruct (IH j p Hj) as (a' & Ha' & HQ).
      exists a'. now rewrite Nat.add_succ_r.
Qed.

(** The photo of a node: its index, the node lowered by 10, and a galaxy
    position in the shell of the photos. *)
Lemma photoOf_spec (rs : RandomSource) (node : THREE.Vector3) (index c : nat) :
  let ph := fst (photoOf rs node index c) in
  id ph = index
  /\ position ph = THREE.add node (THREE.mkVector3 0 (-10.0) 0)
  /\ in_shell 100 200 (targetSpacePos ph).
Proof.
  assert (H : Rand_spec (photoOf rs node index)
                (fun ph => id ph = index
                           /\ position ph = THREE.add node (THREE.mkVector3 0 (-10.0) 0)
                           /\ in_shell 100 200 (targetSpacePos ph))
                (fun _ => True)).
  { unfold photoOf; cbv zeta.
    eapply Rand_bind; [apply (randomRange_spec rs 100 200); lra|].
    intros r n Hr _.
    do 8 rand_skip.
    apply Rand_ret; auto. simpl. repeat split; auto.
    - rewrite spherical_length; lra.
    - rewrite spherical_length; lra. }
  apply H.
Qed.

Lemma Array_slice0_firstn {A} (arr : list A) (end_ : Z) :
  (0 <= end_)%Z ->
  Array_slice0 arr end_ = firstn (Z.to_nat end_) arr.
Proof.
  intros Hend. unfold Array_slice0.
  destruct (end_ <? 0)%Z eqn:Hneg; [apply Z.ltb_lt in Hneg; lia|].
  destruct (Z.le_ge_cases end_ (Z.of_nat (List.length arr))) as [Hle | Hge].
  - now rewrite Z.min_l.
  - rewrite Z.min_r, Nat2Z.id by assumption.
    rewrite !firstn_all2; auto; lia.
Qed.

(** The array operations on small inputs. *)
Example Array_slice0_prefix : Array_slice0 [1; 2; 3]%nat 2 = [1; 2]%nat.
Proof. reflexivity. Qed.

Example Array_slice0_beyond : Array_slice0 [1; 2; 3]%nat 100 = [1; 2; 3]%nat.
Proof. reflexivity. Qed.

Example Array_slice0_negative : Array_slice0 [1; 2; 3]%nat (-1) = [1; 2]%nat.
Proof. reflexivity. Qed.

Example array_get_undefined :
  array_get [1; 2; 3]%nat 3 = None /\ array_get [1; 2; 3]%nat (-1) = None
  /\ array_get [1; 2; 3]%nat 2 = Some 3%nat.
Proof. repeat split. Qed.

Example Number_toString_420 : Number_toString (0 + 420) = "420"%string.
Proof. reflexivity. Qed.

Lemma In_firstn {A} (n : nat) (l : list A) (a : A) :
  In a (firstn n l) -> In a l.
Proof.
  intros H. rewrite <- (firstn_skipn n l). apply in_or_app. now left.
Qed.

(** The photos are made, in order, from a slice of a permutation of the
    leaf nodes. *)
Lemma createPhotoData_chosen (rs : RandomSource) (leafNodes : list THREE.Vector3)
    (count : Z) (c : nat) :
  exists sorted c1,
    Permutation leafNodes sorted
    /\ createPhotoData rs leafNodes count c
       = forEach_from (photoOf rs) 0
           (Array_slice0 sorted (Z.min count (Z.of_nat (List.length leafNodes)))) c1.
Proof.
  destruct leafNodes as [|node rest].
  - exists [], c. split; [reflexivity|].
    unfold Array_slice0. simpl. now rewrite firstn_nil.
  - unfold createPhotoData.
    set (comparefn := fun _ _ : THREE.Vector3 =>
                        Rbind (Math_random rs) (fun v => Rret (0.5 - v))).
    pose proof (Array_sort_Permutation comparefn (node :: rest) c) as Hperm.
    unfold Rbind at 1.
    destruct (Array_sort comparefn (node :: rest) c) as [sorted c1].
    exists sorted, c1. split; [exact Hperm | reflexivity].
Qed.

Lemma createPhotoData_photo (rs : RandomSource) (leafNodes : list THREE.Vector3)
    (count : Z) (c j : nat) (ph : PhotoData) :
  nth_error (fst (createPhotoData rs leafNodes count c)) j = Some ph ->
  exists node,
    In node leafNodes
    /\ id ph = j
    /\ position ph = THREE.add node (THREE.mkVector3 0 (-10.0) 0)
    /\ in_shell 100 200 (targetSpacePos ph).
Proof.
  destruct (createPhotoData_chosen rs leafNodes count c)
    as (sorted & c1 & Hperm & ->).
  intros Hj.
  apply (forEach_from_nth_error (photoOf rs)
           (fun node i p =>
              id p = i
              /\ position p = THREE.add node (THREE.mkVector3 0 (-10.0) 0)
              /\ in_shell 100 200 (targetSpacePos p))) in Hj;
    [|intros; apply photoOf_spec].
  destruct Hj as (node & Hnode & Hid & Hpos & Hshell).
  exists node. split; [|auto].
  apply nth_error_In in Hnode. unfold Array_slice0 in Hnode.
  apply In_firstn in Hnode.
  now apply (Permutation_in _ (Permutation_sym Hperm)).
Qed.

Lemma createPhotoData_length (rs : RandomSource) (leafNodes : list THREE.Vector3)
    (count : Z) (c : nat) :
  (0 <= count)%Z ->
  List.length (fst (createPhotoData rs leafNodes count c))
  = Nat.min (Z.to_nat count) (List.length leafNodes).
Proof.
  intros Hcount.
  destruct (createPhotoData_chosen rs leafNodes count c)
    as (sorted & c1 & Hperm & ->).
  rewrite forEach_from_length, Array_slice0_firstn by lia.
  rewrite length_firstn, <- (Permutation_length Hperm). lia.
Qed.

(** C6.  For a count that is not negative, [createPhotoData] returns
    [min(count, leafNodes.length)] photos, none when there is no leaf node;
    photo [j] has id [j] and hangs 10 below leaf node [f j], for an injective
    [f]: no node is used twice. *)
Theorem createPhotoData_distinct_nodes (rs : RandomSource)
    (leafNodes : list THREE.Vector3) (count : Z) (c : nat) :
  (0 <= count)%Z ->
  let photos := fst (createPhotoData rs leafNodes count c) in
  List.length photos = Nat.min (Z.to_nat count) (List.length leafNodes)
  /\ (leafNodes = [] -> photos = [])
  /\ exists f : nat -> nat,
       (forall i j, f i = f j -> i = j)
       /\ forall j ph,
            nth_error photos j = Some ph ->
            exists node,
              nth_error leafNodes (f j) = Some node
              /\ id ph = j
              /\ position ph = THREE.add node (THREE.mkVector3 0 (-10.0) 0).
Proof.
  intros Hcount photos. subst photos.
  split; [|split].
  - now apply createPhotoData_length.
  - intros ->. reflexivity.
  - destruct (createPhotoData_chosen rs leafNodes count c)
      as (sorted & c1 & Hperm & ->).
    apply Permutation_nth_error in Hperm.
    destruct Hperm as (_ & f & Hinj & Hf).
    exists f. split; [exact Hinj|].
    intros j ph Hj.
    apply (forEach_from_nth_error (photoOf rs)
             (fun node i p =>
                id p = i
                /\ position p = THREE.add node (THREE.mkVector3 0 (-10.0) 0)
                /\ in_shell 100 200 (targetSpacePos p))) in Hj;
      [|intros; apply photoOf_spec].
    destruct Hj as (node & Hnode & Hid & Hpos & _).
    exists node. repeat split; auto.
    rewrite Array_slice0_firstn, nth_error_firstn in Hnode by lia.
    destruct (j <? _)%nat; [|discriminate].
    now rewrite <- Hf.
Qed.

Lemma createPhotoData_distinct_nodes_witness :
  let leaves := [THREE.mkVector3 1 0 0; THREE.mkVector3 2 0 0; THREE.mkVector3 3 0 0] in
  let photos := fst (createPhotoData zeroSource leaves 100 0%nat) in
  List.length photos = Nat.min (Z.to_nat 100) (List.length leaves)
  /\ (leaves = [] -> photos = [])
  /\ exists f : nat -> nat,
       (forall i j, f i = f j -> i = j)
       /\ forall j ph,
            nth_error photos j = Some ph ->
            exists node,
              nth_error leaves (f j) = Some node
              /\ id ph = j
              /\ position ph = THREE.add node (THREE.mkVector3 0 (-10.0) 0).
Proof.
  intros leaves.
  apply (createPhotoData_distinct_nodes zeroSource leaves 100 0%nat).
  lia.
Defined.

(** ** Galaxy targets *)

Lemma dataOf_targets_in_shell (ps : list Particle) :
  Forall target_ok ps ->
  forall i v, vec3At (targetPositions (dataOf ps)) i = Some v -> in_shell 80 200 v.
Proof.
  intros Hps i v Hv.
  destruct (ParallelArrays_dataOf ps)
    as (_ & _ & _ & _ & _ & _ & _ & _ & _ & _ & Htarget & _).
  rewrite Htarget in Hv.
  destruct (nth_error ps i) as [p|] eqn:Hp; [|discriminate].
  injection Hv as <-.
  apply nth_error_In in Hp.
  rewrite Forall_forall in Hps. now apply Hps.
Qed.

(** C5.  Every target position of the wood set and of the blossom set of a
    generated tree is at a distance between 80 and 200 from the origin, and
    the galaxy position of every photo of [createPhotoData] at a distance
    between 100 and 200. *)
Theorem targets_in_shell (rs : RandomSource) (fuel : nat) (params : TreeGenParams)
    (c : nat) (nodes : list THREE.Vector3) (count : Z) (c2 : nat) :
  (Z.to_nat (depth params) < fuel)%nat ->
  (exists t c',
     generateTree rs fuel params c = Ok (t, c')
     /\ (forall i v, vec3At (targetPositions (wood t)) i = Some v ->
                     80 <= THREE.length v <= 200)
     /\ (forall i v, vec3At (targetPositions (blossoms t)) i = Some v ->
                     80 <= THREE.length v <= 200))
  /\ (forall ph, In ph (fst (createPhotoData rs nodes count c2)) ->
                 100 <= THREE.length (targetSpacePos ph) <= 200).
Proof.
  intros Hfuel. split.
  - destruct (generateTree_emits rs fuel params c Hfuel)
      as (t & e & Hrun & Hw & Hb & _ & (Hwood & Hblossom & _)).
    exists t, (c + e_draws e)%nat. split; [exact Hrun|].
    rewrite Hw, Hb. split; intros i v Hv.
    + now apply (dataOf_targets_in_shell (e_wood e) Hwood i v).
    + now apply (dataOf_targets_in_shell (e_blossom e) Hblossom i v).
  - intros ph Hin.
    apply In_nth_error in Hin. destruct Hin as [j Hj].
    destruct (createPhotoData_photo rs nodes count c2 j ph Hj)
      as (node & _ & _ & _ & Hshell).
    exact Hshell.
Qed.

Lemma targets_in_shell_witness :
  (exists t c',
     generateTree zeroSource 3 scenarioParams 0 = Ok (t, c')
     /\ (forall i v, vec3At (targetPositions (wood t)) i = Some v ->
                     80 <= THREE.length v <= 200)
     /\ (forall i v, vec3At (targetPositions (blossoms t)) i = Some v ->
                     80 <= THREE.length v <= 200))
  /\ (forall ph,
        In ph (fst (createPhotoData zeroSource [THREE.mkVector3 1 2 3] 16 0%nat)) ->
        100 <= THREE.length (targetSpacePos ph) <= 200).
Proof.
  apply (targets_in_shell zeroSource 3 scenarioParams 0 [THREE.mkVector3 1 2 3] 16 0%nat).
  simpl. lia.
Defined.

(** ** The number of children of a branch *)

Lemma branchCount_value (rs : RandomSource) (isTrunk : bool) (c : nat) :
  fst (branchCount rs isTrunk c)
  = Math_floor (binary64 (if isTrunk then draw rs c * (5 - 3) + 3
                          else draw rs c * (4 - 2) + 2)).
Proof.
  unfold branchCount, randomRange, Rbind, Rret, Math_random.
  destruct isTrunk; reflexivity.
Qed.

(** The count that a call draws is a value of [branchCount] at some
    position of the stream. *)
Lemma branchCount_drawn (rs : RandomSource) (isTrunk : bool) :
  Rand_spec (branchCount rs isTrunk)
            (fun n => exists c1, n = fst (branchCount rs isTrunk c1))
            (fun _ => True).
Proof.
  intros c. split; [now exists c|].
  destruct (branchCount_spec rs isTrunk c) as (_ & n & Hn & _).
  exists n. auto.
Qed.

(** A branch one level above the leaves pushes one leaf node per child. *)
Lemma growBranch_children_leaves (rs : RandomSource) (fuel : nat) (depth : Z)
    (start direction : THREE.Vector3) (length radius : R) :
  Emits (growBranch rs (S (S fuel)) depth start direction length radius 1)
        (fun _ e =>
           exists c1,
             List.length (e_leaves e)
             = Z.to_nat (fst (branchCount rs (1 =? depth)%Z c1))).
Proof.
  cbn [growBranch]. cbv zeta.
  eapply Emits_bind; [apply wood_loop_emits|].
  intros ? e1 (_ & _ & Hl1).
  change (1 >? 0)%Z with true. cbv iota.
  eapply Emits_bind; [apply Emits_rnd, branchCount_drawn|].
  intros count e2 ((c1 & Hcount) & d & -> & _).
  eapply Emits_weaken.
  - apply (Emits_forLoop (fun k e => List.length (e_leaves e) = k)).
    + reflexivity.
    + intros k acc _ Hacc.
      eapply Emits_bind; [apply Emits_rnd, childDirection_spec|].
      intros nextDir e3 (_ & d3 & -> & _).
      eapply Emits_weaken; [apply (growBranch_emits rs (S fuel)); simpl; lia|].
      intros ? e (_ & _ & _ & _ & Hone & _). simpl.
      rewrite length_app, Hacc, Hone by lia. apply Nat.add_1_r.
  - intros ? e He. cbv beta in He. exists c1.
    unfold Emit_app; cbn [e_leaves]. rewrite Hl1; cbn [app]. rewrite He.
    now rewrite Hcount.
Qed.

(** C9.  The number of children is between 3 and 5 for the trunk and
    between 2 and 4 for another branch, and each of these values is the
    count for some outcome of the random source: 5 and 4 for the draws
    just below 1, where the sum is rounded up to the maximum.  So a tree of
    depth 1 has between 3 and 5 leaf nodes, one per child of its trunk, 5
    of them for such a draw, and a branch of a deeper tree that is one
    level above the leaves pushes between 2 and 4. *)
Theorem branchCount_range (rs : RandomSource) (c fuel : nat) (length : R)
    (start direction : THREE.Vector3) (s : Closure.t) :
  (3 <= fst (branchCount rs true c) <= 5)%Z
  /\ (2 <= fst (branchCount rs false c) <= 4)%Z
  /\ fst (branchCount zeroSource true c) = 3%Z
  /\ fst (branchCount halfSource true c) = 4%Z
  /\ fst (branchCount nearOneSource true c) = 5%Z
  /\ fst (branchCount zeroSource false c) = 2%Z
  /\ fst (branchCount halfSource false c) = 3%Z
  /\ fst (branchCount largestSource false c) = 4%Z
  /\ (exists t c',
        generateTree rs (S (S fuel)) (mkTreeGenParams 1 length start) c = Ok (t, c')
        /\ (3 <= List.length (leafNodes t) <= 5)%nat)
  /\ (exists s' n,
        growBranch rs (S (S fuel)) 2 start direction length 10 1 s = Ok (tt, s')
        /\ Closure.leafNodes s' = Closure.leafNodes s ++ n
        /\ (2 <= List.length n <= 4)%nat)
  /\ (exists t c',
        generateTree nearOneSource (S (S fuel)) (mkTreeGenParams 1 length start) c
        = Ok (t, c')
        /\ List.length (leafNodes t) = 5%nat).
Proof.
  assert (Hfive : forall c1, fst (branchCount nearOneSource true c1) = 5%Z).
  { intros c1. rewrite branchCount_value.
    cbn [draw nearOneSource constantSource].
    rewrite binary64_rounds_to_5. apply Zfloor_eq. lra. }
  assert (Htree : forall rs0 : RandomSource,
            exists t c' c1,
              generateTree rs0 (S (S fuel)) (mkTreeGenParams 1 length start) c
              = Ok (t, c')
              /\ List.length (leafNodes t)
                 = Z.to_nat (fst (branchCount rs0 true c1))).
  { intros rs0.
    unfold generateTree; simpl depth; simpl startPos; simpl branchLength.
    destruct (growBranch_children_leaves rs0 fuel 1 start (THREE.mkVector3 0 1 0)
                length 10.0 (Closure.mk c ParticleBuffer.new ParticleBuffer.new []))
      as ([] & s' & e & -> & (_ & _ & Hl & _) & (c1 & He)).
    eexists _, _, c1; split; [reflexivity|].
    cbn [leafNodes]. rewrite Hl. exact He. }
  split; [apply (branchCount_spec rs true c)|].
  split; [apply (branchCount_spec rs false c)|].
  split; [|split; [|split; [exact (Hfive c)|split; [|split; [|split; [|split; [|split]]]]]]].
  - rewrite branchCount_value. cbn [draw zeroSource constantSource].
    apply Math_floor_binary64_IZR; [lia | lra].
  - rewrite branchCount_value. cbn [draw halfSource constantSource].
    apply Math_floor_binary64_IZR; [lia | lra].
  - rewrite branchCount_value. cbn [draw zeroSource constantSource].
    apply Math_floor_binary64_IZR; [lia | lra].
  - rewrite branchCount_value. cbn [draw halfSource constantSource].
    apply Math_floor_binary64_IZR; [lia | lra].
  - rewrite branchCount_value. cbn [draw largestSource constantSource].
    rewrite binary64_rounds_to_4. apply Zfloor_eq. lra.
  - destruct (Htree rs) as (t & c' & c1 & Hrun & Hlen).
    exists t, c'. split; [exact Hrun|]. rewrite Hlen.
    pose proof (branchCount_spec rs true c1) as (Hc & _).
    cbv beta iota in Hc. lia.
  - destruct (growBranch_children_leaves rs fuel 2 start direction length 10 s)
      as ([] & s' & e & Hrun & (_ & _ & Hl & _) & (c1 & He)).
    exists s', (e_leaves e). split; [exact Hrun|]. split; [exact Hl|].
    rewrite He. change (1 =? 2)%Z with false.
    pose proof (branchCount_spec rs false c1) as (Hc & _).
    cbv beta iota in Hc. lia.
  - destruct (Htree nearOneSource) as (t & c' & c1 & Hrun & Hlen).
    exists t, c'. split; [exact Hrun|]. now rewrite Hlen, Hfive.
Qed.

(** ** The expansion of [Scene] *)

Lemma runFrames_app (l l' : list (string * R)) (refs : SceneRefs) :
  runFrames (l ++ l') refs = runFrames l' (runFrames l refs).
Proof.
  revert refs. induction l as [|[g d] l IH]; intros refs; simpl; auto.
Qed.

Lemma targetExpansion_neutral (gesture : string) (current : R) :
  neutral gesture = true -> targetExpansion gesture current = current.
Proof.
  unfold neutral, targetExpansion. intros H.
  apply andb_prop in H. destruct H as [Hfist Hopen].
  apply negb_true_iff in Hfist, Hopen.
  now rewrite Hfist, Hopen.
Qed.

Lemma useFrame_neutral (gesture : string) (delta : R) (refs : SceneRefs) :
  neutral gesture = true ->
  expansionRef (useFrame gesture delta refs) = expansionRef refs.
Proof.
  intros H. unfold useFrame. simpl.
  rewrite (targetExpansion_neutral _ _ H).
  unfold THREE.MathUtils_lerp. ring.
Qed.

(** C4, as stated, fails: after one frame of OPEN_HAND, whose target is 1,
    the target of a frame of NONE is the current value 0.2 and the frame
    leaves the expansion at 0.2, where the rule that keeps the last target
    moves it on to 0.36. *)
Lemma expansion_hold_counterexample :
  let frames := [("OPEN_HAND", 0.1); ("NONE", 0.1)]%string in
  expansionRef (runFrames frames (mkSceneRefs 0 0)) = 0.2
  /\ targetExpansion "NONE" 0.2 = 0.2
  /\ fst (spec_holdTarget_run frames (0, 0)) = 0.36
  /\ expansionRef (runFrames frames (mkSceneRefs 0 0))
     <> fst (spec_holdTarget_run frames (0, 0)).
Proof.
  simpl. unfold targetExpansion, THREE.MathUtils_lerp. simpl.
  repeat split; try lra.
Qed.

(** C4, amended.  On a frame whose gesture is neither FIST nor OPEN_HAND
    the target is the current expansion, not the target of an earlier
    frame, so the expansion keeps its value: over any sequence of such
    frames it stays where it was. *)
Theorem expansion_frozen (frames : list (string * R)) (refs : SceneRefs) :
  Forall (fun f => neutral (fst f) = true) frames ->
  Forall (fun f => forall current, targetExpansion (fst f) current = current) frames
  /\ expansionRef (runFrames frames refs) = expansionRef refs.
Proof.
  intros H. split.
  - eapply Forall_impl; [|exact H].
    intros f Hf current. now apply targetExpansion_neutral.
  - revert refs.
    induction H as [|[g d] frames Hg _ IH]; intros refs; simpl; auto.
    rewrite IH. now apply useFrame_neutral.
Qed.

Lemma expansion_frozen_witness :
  Forall (fun f => forall current, targetExpansion (fst f) current = current)
         [("NONE", 0.1); ("TWO_FINGERS", 0.1)]%string
  /\ expansionRef (runFrames [("NONE", 0.1); ("TWO_FINGERS", 0.1)]%string
                             (mkSceneRefs 0.2 0))
     = expansionRef (mkSceneRefs 0.2 0).
Proof.
  apply (expansion_frozen [("NONE", 0.1); ("TWO_FINGERS", 0.1)]%string
                          (mkSceneRefs 0.2 0)).
  repeat constructor.
Defined.

(** Under OPEN_HAND the expansion after [n] frames is [1 - (1 - 2 delta)^n]. *)
Lemma expansionAfter_open (delta : R) (n : nat) :
  expansionAfter "OPEN_HAND" delta n = 1 - (1 - 2 * delta) ^ n.
Proof.
  unfold expansionAfter.
  induction n as [|n IH].
  - simpl. ring.
  - cbn [repeat]. rewrite repeat_cons, runFrames_app. simpl runFrames.
    unfold useFrame at 1. simpl. rewrite IH.
    replace (delta * 2.0) with (2 * delta) by lra.
    unfold targetExpansion, THREE.MathUtils_lerp. simpl. ring.
Qed.

(** C7, as stated, fails: with a delta of one second the first frame takes
    the expansion from 0 to 2. *)
Lemma expansion_overshoot_counterexample :
  0 < 1 /\ expansionAfter "OPEN_HAND" 1 1 = 2 /\ 1 < expansionAfter "OPEN_HAND" 1 1.
Proof.
  rewrite expansionAfter_open. simpl. repeat split; lra.
Qed.

(** C7, amended.  From 0, under OPEN_HAND at every frame with a fixed delta
    between 0 and half a second, the expansion increases strictly at each
    frame, stays below 1 and converges to 1. *)
Theorem expansion_converges (delta : R) :
  0 < delta < 1 / 2 ->
  (forall n, expansionAfter "OPEN_HAND" delta n
             < expansionAfter "OPEN_HAND" delta (S n))
  /\ (forall n, expansionAfter "OPEN_HAND" delta n < 1)
  /\ Un_cv (expansionAfter "OPEN_HAND" delta) 1.
Proof.
  intros Hdelta.
  assert (Hq : 0 < 1 - 2 * delta < 1) by lra.
  assert (Hpow : forall n, 0 < (1 - 2 * delta) ^ n)
    by (intros n; apply pow_lt; lra).
  repeat split.
  - intros n. rewrite !expansionAfter_open. simpl.
    specialize (Hpow n). nra.
  - intros n. rewrite expansionAfter_open. specialize (Hpow n). lra.
  - intros eps Heps.
    destruct (pow_lt_1_zero (1 - 2 * delta)) with (y := eps) as [N HN]; auto.
    { rewrite Rabs_pos_eq; lra. }
    exists N. intros n Hn.
    rewrite expansionAfter_open. unfold R_dist.
    replace (1 - (1 - 2 * delta) ^ n - 1) with (- (1 - 2 * delta) ^ n) by ring.
    rewrite Rabs_Ropp. now apply HN.
Qed.

Lemma expansion_converges_witness :
  (forall n, expansionAfter "OPEN_HAND" (1 / 60) n
             < expansionAfter "OPEN_HAND" (1 / 60) (S n))
  /\ (forall n, expansionAfter "OPEN_HAND" (1 / 60) n < 1)
  /\ Un_cv (expansionAfter "OPEN_HAND" (1 / 60)) 1.
Proof.
  apply (expansion_converges (1 / 60)). lra.
Defined.


(** ** The setup of [Scene] *)

(** C8.  The setup generates two trees: the tree that is rendered is the
    result of the first call, drawn from the start of the random stream,
    and each of the 16 photos hangs 10 below a leaf node of the result of a
    second call, drawn from a later part of the stream. *)
Theorem Scene_photos_of_second_tree (rs : RandomSource) (fuel : nat) :
  (6 < fuel)%nat ->
  exists treeData c1 second c2 photos c3,
    Scene_useMemo rs fuel 0 = Ok ((treeData, photos), c3)
    /\ generateTree rs fuel Scene_params 0 = Ok (treeData, c1)
    /\ generateTree rs fuel Scene_params c1 = Ok (second, c2)
    /\ (0 < c1 < c2)%nat
    /\ photos = fst (createPhotoData rs (leafNodes second) 16 c2)
    /\ List.length photos = 16%nat
    /\ forall ph, In ph photos ->
         exists node,
           In node (leafNodes second)
           /\ position ph = THREE.add node (THREE.mkVector3 0 (-10.0) 0).
Proof.
  intros Hfuel.
  assert (Hf : (Z.to_nat (depth Scene_params) < fuel)%nat) by (simpl; lia).
  destruct (generateTree_emits rs fuel Scene_params 0 Hf)
    as (treeData & e1 & Hrun1 & _ & _ & _ & (_ & _ & _ & _ & _ & Hd1)).
  destruct (generateTree_emits rs fuel Scene_params (0 + e_draws e1) Hf)
    as (second & e2 & Hrun2 & _ & _ & Hl2 & (_ & _ & _ & Hleaves & _ & Hd2)).
  set (c1 := (0 + e_draws e1)%nat) in *.
  set (c2 := (c1 + e_draws e2)%nat) in *.
  destruct (createPhotoData rs (leafNodes second) 16 c2) as [photos c3] eqn:Hphotos.
  exists treeData, c1, second, c2, photos, c3.
  assert (Hp : photos = fst (createPhotoData rs (leafNodes second) 16 c2))
    by now rewrite Hphotos.
  split; [unfold Scene_useMemo; now rewrite Hrun1, Hrun2, Hphotos|].
  do 2 (split; [assumption|]).
  split; [unfold c2, c1; lia|].
  split; [assumption|].
  split.
  - rewrite Hp, createPhotoData_length by lia.
    rewrite Hl2. change (Z.to_nat (depth Scene_params)) with 6%nat in Hleaves.
    simpl in Hleaves. change (Z.to_nat 16) with 16%nat. lia.
  - intros ph Hin. rewrite Hp in Hin.
    apply In_nth_error in Hin. destruct Hin as [j Hj].
    destruct (createPhotoData_photo rs (leafNodes second) 16 c2 j ph Hj)
      as (node & Hnode & _ & Hpos & _).
    exists node; auto.
Qed.

Lemma Scene_photos_of_second_tree_witness :
  exists treeData c1 second c2 photos c3,
    Scene_useMemo zeroSource 7 0 = Ok ((treeData, photos), c3)
    /\ generateTree zeroSource 7 Scene_params 0 = Ok (treeData, c1)
    /\ generateTree zeroSource 7 Scene_params c1 = Ok (second, c2)
    /\ (0 < c1 < c2)%nat
    /\ photos = fst (createPhotoData zeroSource (leafNodes second) 16 c2)
    /\ List.length photos = 16%nat
    /\ forall ph, In ph photos ->
         exists node,
           In node (leafNodes second)
           /\ position ph = THREE.add node (THREE.mkVector3 0 (-10.0) 0).
Proof.
  apply (Scene_photos_of_second_tree zeroSource 7). lia.
Defined.

(** * Further properties of the code *)

(** ** The hue and the expansion of [useFrame] *)

Lemma MathUtils_lerp_between (a c t : R) :
  0 <= t <= 1 -> Rmin a c <= THREE.MathUtils_lerp a c t <= Rmax a c.
Proof.
  intros Ht. unfold THREE.MathUtils_lerp, Rmin, Rmax.
  destruct (Rle_dec a c); nra.
Qed.

(** X1.  The hue after a sequence of frames is the hue before plus half the
    time spent under ONE_FINGER: frames of other gestures leave it as it
    is, nothing resets it, and with deltas that are not negative it never
    decreases. *)
Theorem hue_accumulates (frames : list (string * R)) (refs : SceneRefs) :
  hueRef (runFrames frames refs)
  = hueRef refs + 0.5 * gestureTime "ONE_FINGER" frames
  /\ (Forall (fun f => 0 <= snd f) frames ->
      hueRef refs <= hueRef (runFrames frames refs)).
Proof.
  assert (Heq : forall frames refs,
             hueRef (runFrames frames refs)
             = hueRef refs + 0.5 * gestureTime "ONE_FINGER" frames).
  { clear. induction frames as [|[g d] frames IH]; intros refs; simpl.
    - lra.
    - rewrite IH. unfold useFrame; simpl.
      destruct (g =? "ONE_FINGER")%string; lra. }
  split; [apply Heq|].
  intros Hpos. rewrite Heq.
  assert (0 <= gestureTime "ONE_FINGER" frames); [|lra].
  clear Heq. induction Hpos as [|[g d] frames Hd _ IH]; simpl in *.
  - lra.
  - destruct (g =? "ONE_FINGER")%string; lra.
Qed.

(** The expansion under FIST at every frame is the start value times
    [(1 - 2 delta)^n]. *)
Lemma expansion_fist (delta : R) (n : nat) (refs : SceneRefs) :
  expansionRef (runFrames (repeat ("FIST"%string, delta) n) refs)
  = expansionRef refs * (1 - 2 * delta) ^ n.
Proof.
  induction n as [|n IH].
  - simpl. ring.
  - cbn [repeat]. rewrite repeat_cons, runFrames_app. simpl runFrames.
    unfold useFrame at 1. simpl. rewrite IH.
    replace (delta * 2.0) with (2 * delta) by lra.
    unfold targetExpansion, THREE.MathUtils_lerp. simpl. ring.
Qed.

(** X2.  From any expansion in [[0, 1]], under FIST at every frame with a
    fixed delta between 0 and half a second, the expansion never increases,
    stays non-negative and converges to 0. *)
Theorem expansion_collapses (delta : R) (refs : SceneRefs) :
  0 < delta < 1 / 2 ->
  0 <= expansionRef refs <= 1 ->
  let value n := expansionRef (runFrames (repeat ("FIST"%string, delta) n) refs) in
  (forall n, 0 <= value (S n) <= value n)
  /\ Un_cv value 0.
Proof.
  intros Hdelta Hrefs value. subst value. cbv beta.
  assert (Hpow : forall n, 0 < (1 - 2 * delta) ^ n)
    by (intros n; apply pow_lt; lra).
  split.
  - intros n. rewrite !expansion_fist. simpl.
    specialize (Hpow n).
    set (p := (1 - 2 * delta) ^ n) in *.
    assert (Hvp : 0 <= expansionRef refs * p) by nra.
    replace (expansionRef refs * ((1 - 2 * delta) * p))
      with ((1 - 2 * delta) * (expansionRef refs * p)) by ring.
    nra.
  - intros eps Heps.
    destruct (pow_lt_1_zero (1 - 2 * delta)) with (y := eps) as [N HN]; auto.
    { rewrite Rabs_pos_eq; lra. }
    exists N. intros n Hn.
    rewrite expansion_fist. unfold R_dist.
    rewrite Rminus_0_r, Rabs_mult.
    specialize (HN n Hn).
    rewrite (Rabs_pos_eq (expansionRef refs)) by lra.
    pose proof (Rabs_pos ((1 - 2 * delta) ^ n)). nra.
Qed.

Lemma expansion_collapses_witness :
  let value n :=
    expansionRef (runFrames (repeat ("FIST"%string, 1 / 60) n) (mkSceneRefs 1 0)) in
  (forall n, 0 <= value (S n) <= value n)
  /\ Un_cv value 0.
Proof.
  apply (expansion_collapses (1 / 60) (mkSceneRefs 1 0)); simpl; lra.
Defined.

(** X3.  With every delta between 0 and half a second, whatever the
    gestures, an expansion in [[0, 1]] stays in [[0, 1]]. *)
Theorem expansion_in_unit_interval (frames : list (string * R)) (refs : SceneRefs) :
  Forall (fun f => 0 <= snd f <= 1 / 2) frames ->
  0 <= expansionRef refs <= 1 ->
  0 <= expansionRef (runFrames frames refs) <= 1.
Proof.
  intros Hframes. revert refs.
  induction Hframes as [|[g d] frames Hd _ IH]; intros refs Hrefs; simpl; auto.
  apply IH. unfold useFrame; simpl. simpl in Hd.
  assert (Ht : 0 <= targetExpansion g (expansionRef refs) <= 1).
  { unfold targetExpansion.
    destruct (g =? "OPEN_HAND")%string; [lra|].
    destruct (g =? "FIST")%string; lra. }
  pose proof (MathUtils_lerp_between (expansionRef refs)
                (targetExpansion g (expansionRef refs)) (d * 2.0)
                ltac:(lra)) as Hb.
  unfold Rmin, Rmax in Hb.
  destruct (Rle_dec (expansionRef refs) (targetExpansion g (expansionRef refs))); lra.
Qed.

Lemma expansion_in_unit_interval_witness :
  0 <= expansionRef
         (runFrames [("OPEN_HAND", 0.5); ("NONE", 0.1); ("FIST", 0.25)]%string
                    (mkSceneRefs 0 0)) <= 1.
Proof.
  apply (expansion_in_unit_interval
           [("OPEN_HAND", 0.5); ("NONE", 0.1); ("FIST", 0.25)]%string
           (mkSceneRefs 0 0)).
  - repeat constructor; simpl; lra.
  - simpl; lra.
Defined.

(** ** The camera joystick *)

Lemma joystick_magnitude (d speed : R) :
  Rltb 0.15 (Rabs d) = true ->
  Math_sign d * ((Rabs d - 0.15) / (0.5 - 0.15)) * speed
  = (d - Math_sign d * 0.15) / 0.35 * speed
  /\ (0 < d -> Math_sign d = 1) /\ (d < 0 -> Math_sign d = -1).
Proof.
  unfold Rltb, Math_sign, Rltb.
  destruct (Rlt_dec 0.15 (Rabs d)) as [Hout|]; [intros _|discriminate].
  unfold Rabs in *.
  destruct (Rcase_abs d); destruct (Rlt_dec 0 d); destruct (Rlt_dec d 0);
    repeat split; intros; try lra; field.
Qed.

(** X4.  The angle passed to [setPolarAngle] lies between 0.5 and
    [PI - 0.5], whatever the hand position, the delta and the current
    angles. *)
Theorem camera_polar_clamped (handPos : R * R) (delta azimuth polar : R) :
  exists a p,
    cameraControl handPos delta (Some (azimuth, polar)) = Some (a, p)
    /\ 0.5 <= p <= PI - 0.5.
Proof.
  eexists _, _; split; [reflexivity|].
  pose proof PI2_1.
  unfold Rmax, Rmin.
  destruct (Rle_dec (PI - 0.5) _); destruct (Rle_dec 0.5 _); lra.
Qed.

(** X5.  With the hand within 0.15 of the centre on both axes, the frame
    asks for no rotation: the azimuth passed on is the current one, and so
    is the polar angle when it is within its bounds, whatever the delta. *)
Theorem camera_dead_zone (handPos : R * R) (delta azimuth polar : R) :
  Rabs (fst handPos - 0.5) <= 0.15 ->
  Rabs (snd handPos - 0.5) <= 0.15 ->
  0.5 <= polar <= PI - 0.5 ->
  cameraControl handPos delta (Some (azimuth, polar)) = Some (azimuth, polar).
Proof.
  intros Hx Hy Hpolar. unfold cameraControl, azimuthRate, polarRate, Rltb.
  destruct (Rlt_dec 0.15 (Rabs (fst handPos - 0.5))); [lra|].
  destruct (Rlt_dec 0.15 (Rabs (snd handPos - 0.5))); [lra|].
  f_equal. f_equal; [lra|].
  unfold Rmax, Rmin.
  destruct (Rle_dec (PI - 0.5) _); destruct (Rle_dec 0.5 _); lra.
Qed.

Lemma camera_dead_zone_witness :
  cameraControl (0.6, 0.4) 0.016 (Some (1, 1)) = Some (1, 1).
Proof.
  pose proof PI2_1.
  apply (camera_dead_zone (0.6, 0.4) 0.016 1 1); simpl;
    try (unfold Rabs; destruct (Rcase_abs _); lra); lra.
Defined.

(** X6.  For a hand position in [[0, 1]] the azimuth rate is at most 2 and
    the polar rate at most 1.5 in absolute value, both reached at the
    edges; beyond the dead zone the rate has the sign of the offset from
    the centre; and mirroring the position about the centre negates the
    rate. *)
Theorem joystick_rates (v : R) :
  0 <= v <= 1 ->
  Rabs (azimuthRate v) <= 2
  /\ Rabs (polarRate v) <= 1.5
  /\ azimuthRate 1 = 2 /\ azimuthRate 0 = -2
  /\ polarRate 1 = 1.5 /\ polarRate 0 = -1.5
  /\ (0.65 < v -> 0 < azimuthRate v /\ 0 < polarRate v)
  /\ (v < 0.35 -> azimuthRate v < 0 /\ polarRate v < 0)
  /\ azimuthRate (1 - v) = - azimuthRate v
  /\ polarRate (1 - v) = - polarRate v.
Proof.
  intros Hv.
  assert (Hrate : forall w speed,
             (if Rltb 0.15 (Rabs (w - 0.5))
              then Math_sign (w - 0.5) * ((Rabs (w - 0.5) - 0.15) / (0.5 - 0.15)) * speed
              else 0)
             = if Rlt_dec 0.65 w then (w - 0.65) / 0.35 * speed
               else if Rlt_dec w 0.35 then (w - 0.35) / 0.35 * speed
               else 0).
  { intros w speed.
    destruct (Rltb 0.15 (Rabs (w - 0.5))) eqn:Hout.
    - destruct (joystick_magnitude (w - 0.5) speed Hout) as (-> & Hpos & Hneg).
      unfold Rltb in Hout.
      destruct (Rlt_dec 0.15 (Rabs (w - 0.5))) as [Hd|]; [|discriminate].
      unfold Rabs in Hd. destruct (Rcase_abs (w - 0.5)).
      + rewrite Hneg by lra.
        destruct (Rlt_dec 0.65 w); [lra|]. destruct (Rlt_dec w 0.35); [|lra]. lra.
      + rewrite Hpos by lra.
        destruct (Rlt_dec 0.65 w); [|lra]. lra.
    - unfold Rltb in Hout.
      destruct (Rlt_dec 0.15 (Rabs (w - 0.5))) as [|Hd]; [discriminate|].
      unfold Rabs in Hd. destruct (Rcase_abs (w - 0.5));
        destruct (Rlt_dec 0.65 w); try lra; destruct (Rlt_dec w 0.35); lra. }
  unfold azimuthRate, polarRate; cbv zeta. rewrite !Hrate.
  repeat split;
    repeat match goal with
           | |- context [Rlt_dec ?a ?c] => destruct (Rlt_dec a c)
           end;
    try (unfold Rabs; destruct (Rcase_abs _)); intros; lra.
Qed.

Lemma joystick_rates_witness :
  Rabs (azimuthRate 0.8) <= 2
  /\ Rabs (polarRate 0.8) <= 1.5
  /\ azimuthRate 1 = 2 /\ azimuthRate 0 = -2
  /\ polarRate 1 = 1.5 /\ polarRate 0 = -1.5
  /\ (0.65 < 0.8 -> 0 < azimuthRate 0.8 /\ 0 < polarRate 0.8)
  /\ (0.8 < 0.35 -> azimuthRate 0.8 < 0 /\ polarRate 0.8 < 0)
  /\ azimuthRate (1 - 0.8) = - azimuthRate 0.8
  /\ polarRate (1 - 0.8) = - polarRate 0.8.
Proof.
  apply (joystick_rates 0.8). lra.
Defined.

(** ** The gestures of HandTracker *)

(** X7.  The gesture is FIST exactly when no finger is counted, OPEN_HAND
    exactly when all five are, ONE_FINGER exactly when the index alone is
    up, TWO_FINGERS exactly when the index and the middle finger alone are
    up, and [COUNT_n] with the count otherwise: a raised thumb alone is
    COUNT_1.  UNKNOWN, NONE, COUNT_0 and COUNT_5 are never the gesture of a
    hand. *)
Theorem gesture_classification (thumbOpen indexUp middleUp ringUp pinkyUp : bool) :
  let count := countFingers thumbOpen indexUp middleUp ringUp pinkyUp in
  let gesture := gestureOf count indexUp middleUp in
  (count <= 5)%nat
  /\ (gesture = "FIST"%string <-> count = 0%nat)
  /\ (gesture = "OPEN_HAND"%string <-> count = 5%nat)
  /\ (gesture = "ONE_FINGER"%string
      <-> (thumbOpen, indexUp, middleUp, ringUp, pinkyUp)
          = (false, true, false, false, false))
  /\ (gesture = "TWO_FINGERS"%string
      <-> (thumbOpen, indexUp, middleUp, ringUp, pinkyUp)
          = (false, true, true, false, false))
  /\ (gesture = "FIST"%string \/ gesture = "OPEN_HAND"%string
      \/ gesture = "ONE_FINGER"%string \/ gesture = "TWO_FINGERS"%string
      \/ (gesture = ("COUNT_" ++ Number_toString count)%string
          /\ (1 <= count <= 4)%nat))
  /\ gestureOf (countFingers true false false false false) false false
     = "COUNT_1"%string.
Proof.
  destruct thumbOpen, indexUp, middleUp, ringUp, pinkyUp; vm_compute;
    repeat split; intros; try discriminate; try lia; auto 10.
  all: try (right; right; right; right; split; [reflexivity | split; lia]).
Qed.

(** X8.  What the gesture of a hand does to the expansion of [Scene]: the
    target is 0 when no finger is counted, 1 when all five are, and the
    current value, which freezes the expansion, for every other hand and
    when no hand is seen. *)
Theorem gesture_drives_expansion (thumbOpen indexUp middleUp ringUp pinkyUp : bool)
    (current : R) :
  let count := countFingers thumbOpen indexUp middleUp ringUp pinkyUp in
  targetExpansion (gestureOf count indexUp middleUp) current
  = (if (count =? 0)%nat then 0 else if (count =? 5)%nat then 1 else current)
  /\ targetExpansion "NONE" current = current.
Proof.
  destruct thumbOpen, indexUp, middleUp, ringUp, pinkyUp; split; reflexivity.
Qed.

Lemma landmarkAt_cases (landmarks : list Landmark.t) (i : nat) :
  (exists l, landmarkAt landmarks i = Ok l /\ nth_error landmarks i = Some l
             /\ (i < List.length landmarks)%nat)
  \/ (exists e, landmarkAt landmarks i = Throw e
                /\ (List.length landmarks <= i)%nat).
Proof.
  unfold landmarkAt.
  destruct (nth_error landmarks i) as [l|] eqn:Hi.
  - left. exists l. repeat split; auto.
    apply nth_error_Some. congruence.
  - right. eexists; split; [reflexivity|].
    now apply nth_error_None.
Qed.

Lemma azimuthRate_mirror (v : R) : azimuthRate (1.0 - v) = - azimuthRate v.
Proof.
  unfold azimuthRate, Rltb, Math_sign, Rltb; cbv zeta.
  replace (1.0 - v - 0.5) with (- (v - 0.5)) by lra.
  rewrite Rabs_Ropp.
  destruct (Rlt_dec 0.15 (Rabs (v - 0.5))); [|lra].
  destruct (Rlt_dec 0 (- (v - 0.5))); destruct (Rlt_dec (- (v - 0.5)) 0);
    destruct (Rlt_dec 0 (v - 0.5)); destruct (Rlt_dec (v - 0.5) 0);
    try lra.
  all: unfold Rabs in *; destruct (Rcase_abs (v - 0.5)); lra.
Qed.

(** X9.  [onResults] on the first hand of a result: it reports an update
    exactly when the hand has at least 21 landmarks, and throws a TypeError
    otherwise.  The update is marked as tracking; its position is the palm
    landmark 9 mirrored in x, which stays in the unit square and turns the
    azimuth rate of the camera into its opposite.  Without a hand it
    reports NONE at the centre, not tracking; without a canvas it reports
    nothing. *)
Theorem onResults_reports (landmarks : list Landmark.t)
    (others : list (list Landmark.t)) :
  ((21 <= List.length landmarks)%nat
   <-> exists d, onResults true (Some (landmarks :: others)) = Ok (Some d))
  /\ ((List.length landmarks < 21)%nat
      <-> exists e, onResults true (Some (landmarks :: others)) = Throw e)
  /\ (forall d,
        onResults true (Some (landmarks :: others)) = Ok (Some d) ->
        HandData.isTracking d = true
        /\ (HandData.fingerCount d <= 5)%nat
        /\ exists palm,
             nth_error landmarks 9 = Some palm
             /\ HandData.position d = (1 - Landmark.x palm, Landmark.y palm)
             /\ (0 <= Landmark.x palm <= 1 -> 0 <= fst (HandData.position d) <= 1)
             /\ azimuthRate (fst (HandData.position d))
                = - azimuthRate (Landmark.x palm))
  /\ onResults true None = Ok (Some (HandData.mk 0 "NONE" (0.5, 0.5) false))
  /\ onResults true (Some []) = Ok (Some (HandData.mk 0 "NONE" (0.5, 0.5) false))
  /\ onResults false (Some (landmarks :: others)) = Ok None.
Proof.
  assert (Hrun :
    ((21 <= List.length landmarks)%nat
     /\ exists t i m r p palm,
          nth_error landmarks 9 = Some palm
          /\ onResults true (Some (landmarks :: others))
             = Ok (Some (HandData.mk (countFingers t i m r p)
                           (gestureOf (countFingers t i m r p) i m)
                           (1.0 - Landmark.x palm, Landmark.y palm) true)))
    \/ ((List.length landmarks < 21)%nat
        /\ exists e, onResults true (Some (landmarks :: others)) = Throw e)).
  { unfold onResults, fingersUp, isFingerUp, result_bind.
    repeat match goal with
           | |- context [landmarkAt landmarks ?i] =>
               destruct (landmarkAt_cases landmarks i)
                 as [(? & -> & ? & ?) | (? & -> & ?)]
           end;
      try (right; split; [lia | eexists; reflexivity]).
    left. split; [lia|]. do 5 eexists. eexists. split; [eassumption|reflexivity]. }
  split; [|split; [|split; [|repeat split]]].
  - split.
    + intros Hlen. destruct Hrun as [(_ & t & i & m & r & p & palm & _ & ->) | (Hlt & _)];
        [eexists; reflexivity | lia].
    + intros [d Hd]. destruct Hrun as [(Hlen & _) | (_ & e & He)]; [exact Hlen|].
      rewrite He in Hd. discriminate.
  - split.
    + intros Hlen. destruct Hrun as [(Hge & _) | (_ & He)]; [lia | exact He].
    + intros [e He]. destruct Hrun as [(_ & t & i & m & r & p & palm & _ & Hd) | (Hlt & _)];
        [|exact Hlt].
      rewrite Hd in He. discriminate.
  - intros d Hd.
    destruct Hrun as [(_ & t & i & m & r & p & palm & Hpalm & Hok) | (_ & e & He)];
      [|rewrite He in Hd; discriminate].
    rewrite Hok in Hd. injection Hd as <-. simpl.
    split; [reflexivity|]. split.
    + destruct t, i, m, r, p; simpl; lia.
    + exists palm. repeat split; try lra; auto.
      * f_equal; lra.
      * apply azimuthRate_mirror.
Qed.

(** X10.  What [App] keeps of an update of the hand tracker.  The gesture
    is always taken over.  The update is not tracking exactly when no hand
    is in the result; the position is then left as it was, so the centre
    that the tracker reports never reaches the state and the camera of
    [Scene] goes on turning at the rates of the last hand seen, while the
    expansion is frozen.  A tracked hand replaces the position. *)
Theorem hand_lost_keeps_position
    (multiHandLandmarks : option (list (list Landmark.t)))
    (d : HandData.t) (st : AppState) (delta current : R)
    (controls : option (R * R)) :
  onResults true multiHandLandmarks = Ok (Some d) ->
  let st' := handleHandUpdate d st in
  currentGesture st' = HandData.gesture d
  /\ (HandData.isTracking d = false
      <-> multiHandLandmarks = None \/ multiHandLandmarks = Some [])
  /\ (HandData.isTracking d = false ->
      HandData.position d = (0.5, 0.5)
      /\ currentGesture st' = "NONE"%string
      /\ handPosition st' = handPosition st
      /\ cameraControl (handPosition st') delta controls
         = cameraControl (handPosition st) delta controls
      /\ targetExpansion (currentGesture st') current = current)
  /\ (HandData.isTracking d = true ->
      handPosition st' = HandData.position d).
Proof.
  intros Hd st'. split; [reflexivity|].
  destruct multiHandLandmarks as [[|landmarks others]|].
  - simpl in Hd. injection Hd as <-. simpl.
    repeat split; auto; discriminate.
  - assert (Htrack : HandData.isTracking d = true).
    { revert Hd. unfold onResults, result_bind.
      destruct (fingersUp landmarks) as [[[[[t i] m] r] p]| |]; try discriminate.
      destruct (landmarkAt landmarks 9); try discriminate.
      now intros [= <-]. }
    split; [|split].
    + split; [congruence|]. intros [H | H]; discriminate.
    + congruence.
    + intros _. subst st'. unfold handleHandUpdate; simpl. now rewrite Htrack.
  - simpl in Hd. injection Hd as <-. simpl.
    repeat split; auto; discriminate.
Qed.

Lemma hand_lost_keeps_position_witness :
  let d := HandData.mk 0 "NONE" (0.5, 0.5) false in
  let st := mkAppState (1%nat, "ONE_FINGER"%string) "ONE_FINGER" (0.9, 0.5) in
  let st' := handleHandUpdate d st in
  currentGesture st' = HandData.gesture d
  /\ (HandData.isTracking d = false
      <-> @None (list (list Landmark.t)) = None
          \/ @None (list (list Landmark.t)) = Some [])
  /\ (HandData.isTracking d = false ->
      HandData.position d = (0.5, 0.5)
      /\ currentGesture st' = "NONE"%string
      /\ handPosition st' = handPosition st
      /\ cameraControl (handPosition st') 0.016 (Some (0, 1))
         = cameraControl (handPosition st) 0.016 (Some (0, 1))
      /\ targetExpansion (currentGesture st') 0.5 = 0.5)
  /\ (HandData.isTracking d = true ->
      handPosition st' = HandData.position d).
Proof.
  intros d st.
  apply (hand_lost_keeps_position None d st 0.016 0.5 (Some (0, 1))).
  reflexivity.
Defined.

(** ** The shaders *)

Lemma Math_pow_3 (base : R) : 0 <= base -> Math_pow base 3.0 = base * base * base.
Proof.
  intros Hb. unfold Math_pow.
  destruct (Req_dec_T base 0) as [-> | Hnz].
  - destruct (Req_dec_T 3.0 0); lra.
  - replace 3.0 with (INR 3) by (simpl; lra).
    rewrite Rpower_pow by lra. simpl. ring.
Qed.

Lemma cube_le (a c : R) : 0 <= a <= c -> a * a * a <= c * c * c.
Proof.
  intros [Ha Hac].
  assert (0 <= (c - a) * (c * c + a * c + a * a)) by (apply Rmult_le_pos; nra).
  nra.
Qed.

(** The two branches of [easeInOutCubic] on [[0, 1]]. *)
Lemma easeInOutCubic_cases (a : R) :
  0 <= a <= 1 ->
  (a < 0.5 /\ easeInOutCubic a = 4 * (a * a * a))
  \/ (0.5 <= a
      /\ easeInOutCubic a = 1 - 4 * ((1 - a) * (1 - a) * (1 - a))).
Proof.
  intros Ha. unfold easeInOutCubic, Rltb.
  destruct (Rlt_dec a 0.5).
  - left. split; [assumption | lra].
  - right. split; [lra|].
    rewrite Math_pow_3 by lra. lra.
Qed.

(** X11.  On [[0, 1]] the easing of the expansion goes from 0 at 0 through
    0.5 at 0.5 to 1 at 1, never decreases, stays in [[0, 1]], and is
    symmetric about the centre: [ease (1 - a) = 1 - ease a]. *)
Theorem easeInOutCubic_curve (a c : R) :
  0 <= a <= c -> c <= 1 ->
  easeInOutCubic 0 = 0 /\ easeInOutCubic 0.5 = 0.5 /\ easeInOutCubic 1 = 1
  /\ 0 <= easeInOutCubic a <= 1
  /\ easeInOutCubic a <= easeInOutCubic c
  /\ easeInOutCubic (1 - a) = 1 - easeInOutCubic a.
Proof.
  intros Hac Hc.
  assert (Hrange : forall w, 0 <= w <= 1 -> 0 <= easeInOutCubic w <= 1).
  { intros w Hw.
    destruct (easeInOutCubic_cases w Hw) as [[Hlt ->] | [Hge ->]].
    - pose proof (cube_le 0 w ltac:(lra)). pose proof (cube_le w 0.5 ltac:(lra)). lra.
    - pose proof (cube_le 0 (1 - w) ltac:(lra)).
      pose proof (cube_le (1 - w) 0.5 ltac:(lra)). lra. }
  repeat split.
  - destruct (easeInOutCubic_cases 0 ltac:(lra)) as [[_ ->] | [H _]]; lra.
  - destruct (easeInOutCubic_cases 0.5 ltac:(lra)) as [[H _] | [_ ->]]; lra.
  - destruct (easeInOutCubic_cases 1 ltac:(lra)) as [[H _] | [_ ->]]; lra.
  - apply Hrange; lra.
  - apply Hrange; lra.
  - destruct (easeInOutCubic_cases a ltac:(lra)) as [[Ha ->] | [Ha ->]];
      destruct (easeInOutCubic_cases c ltac:(lra)) as [[Hc' ->] | [Hc' ->]].
    + pose proof (cube_le a c ltac:(lra)). lra.
    + pose proof (cube_le a 0.5 ltac:(lra)).
      pose proof (cube_le (1 - c) 0.5 ltac:(lra)). lra.
    + lra.
    + pose proof (cube_le (1 - c) (1 - a) ltac:(lra)). lra.
  - destruct (easeInOutCubic_cases a ltac:(lra)) as [[Ha ->] | [Ha ->]];
      destruct (easeInOutCubic_cases (1 - a) ltac:(lra)) as [[Hm ->] | [Hm ->]];
      try lra.
    assert (a = 0.5) by lra. subst a. lra.
Qed.

Lemma easeInOutCubic_curve_witness :
  easeInOutCubic 0 = 0 /\ easeInOutCubic 0.5 = 0.5 /\ easeInOutCubic 1 = 1
  /\ 0 <= easeInOutCubic 0.25 <= 1
  /\ easeInOutCubic 0.25 <= easeInOutCubic 0.75
  /\ easeInOutCubic (1 - 0.25) = 1 - easeInOutCubic 0.25.
Proof.
  apply (easeInOutCubic_curve 0.25 0.75); lra.
Defined.

Lemma GLSL_smoothstep_range (edge0 edge1 a : R) :
  0 <= GLSL_smoothstep edge0 edge1 a <= 1.
Proof.
  unfold GLSL_smoothstep, GLSL_clamp.
  set (q := (a - edge0) / (edge1 - edge0)).
  assert (Ht : 0 <= Rmin (Rmax q 0) 1 <= 1).
  { unfold Rmin, Rmax. destruct (Rle_dec q 0); destruct (Rle_dec _ 1); lra. }
  set (t := Rmin (Rmax q 0) 1) in *.
  split; [apply Rmult_le_pos; nra|].
  assert (0 <= (1 - t) * (1 - t) * (1 + 2 * t)) by (apply Rmult_le_pos; nra).
  nra.
Qed.

Lemma GLSL_smoothstep_above (edge0 edge1 a : R) :
  edge0 < edge1 -> edge1 <= a -> GLSL_smoothstep edge0 edge1 a = 1.
Proof.
  intros He Ha. unfold GLSL_smoothstep, GLSL_clamp.
  assert (Hq : 1 <= (a - edge0) / (edge1 - edge0)).
  { apply (Rmult_le_reg_r (edge1 - edge0)); [lra|].
    unfold Rdiv. rewrite Rmult_assoc, Rinv_l by lra. lra. }
  assert (Ht : Rmin (Rmax ((a - edge0) / (edge1 - edge0)) 0) 1 = 1).
  { unfold Rmin, Rmax.
    destruct (Rle_dec _ 0); destruct (Rle_dec _ 1); lra. }
  rewrite Ht. ring.
Qed.

Lemma GLSL_smoothstep_below (edge0 edge1 a : R) :
  edge0 < edge1 -> a <= edge0 -> GLSL_smoothstep edge0 edge1 a = 0.
Proof.
  intros He Ha. unfold GLSL_smoothstep, GLSL_clamp.
  assert (Hq : (a - edge0) / (edge1 - edge0) <= 0).
  { apply (Rmult_le_reg_r (edge1 - edge0)); [lra|].
    unfold Rdiv. rewrite Rmult_assoc, Rinv_l by lra. lra. }
  assert (Ht : Rmin (Rmax ((a - edge0) / (edge1 - edge0)) 0) 1 = 0).
  { unfold Rmin, Rmax.
    destruct (Rle_dec _ 0); destruct (Rle_dec _ 1); lra. }
  rewrite Ht. ring.
Qed.

(** X12.  Once the expansion has reached 0.2 a wood vertex has alpha 0 at
    every depth, and each of its fragments is discarded. *)
Theorem wood_fades_out (u : Uniforms) (viewDepth : R) (vColor : THREE.Vector3)
    (texColor : THREE.Vector3 * R) :
  0.5 < uIsWood u ->
  0.2 <= uExpansion u ->
  vAlpha u viewDepth = 0
  /\ fragmentMain vColor (vAlpha u viewDepth) texColor = None.
Proof.
  intros Hwood Hexp.
  assert (Halpha : vAlpha u viewDepth = 0).
  { unfold vAlpha, woodFade, Rltb.
    destruct (Rlt_dec 0.5 (uIsWood u)); [|lra].
    rewrite (GLSL_smoothstep_above 0.0 0.2) by lra. lra. }
  split; [exact Halpha|].
  rewrite Halpha. unfold fragmentMain, Rltb.
  destruct (Rlt_dec (snd texColor) 0.3); [reflexivity|].
  destruct (Rlt_dec 0 0.01); [reflexivity | lra].
Qed.

Lemma wood_fades_out_witness :
  vAlpha (mkUniforms 0 0.3 1 0 1.0) 50 = 0
  /\ fragmentMain (THREE.mkVector3 1 1 1) (vAlpha (mkUniforms 0 0.3 1 0 1.0) 50)
                  (THREE.mkVector3 1 1 1, 1) = None.
Proof.
  apply (wood_fades_out (mkUniforms 0 0.3 1 0 1.0) 50); simpl; lra.
Defined.

(** X13.  The alpha of a vertex lies in [[0, 1]]; it is 0 up to depth 10
    in front of the camera, and for blossoms, and for wood while the
    expansion is not positive, it is 1 from depth 30 on. *)
Theorem vAlpha_range (u : Uniforms) (viewDepth : R) :
  0 <= vAlpha u viewDepth <= 1
  /\ (viewDepth <= 10 -> vAlpha u viewDepth = 0)
  /\ (30 <= viewDepth -> uIsWood u <= 0.5 \/ uExpansion u <= 0 ->
      vAlpha u viewDepth = 1).
Proof.
  assert (Hfade : 0 <= woodFade u <= 1).
  { unfold woodFade. destruct (Rltb 0.5 (uIsWood u)); [|lra].
    pose proof (GLSL_smoothstep_range 0.0 0.2 (uExpansion u)). lra. }
  pose proof (GLSL_smoothstep_range 10.0 30.0 viewDepth) as Hcam.
  unfold vAlpha. repeat split.
  - apply Rmult_le_pos; lra.
  - nra.
  - intros Hnear. rewrite GLSL_smoothstep_below by lra. lra.
  - intros Hfar Hcase. rewrite GLSL_smoothstep_above by lra.
    unfold woodFade, Rltb.
    destruct (Rlt_dec 0.5 (uIsWood u)); [|lra].
    destruct Hcase; [lra|].
    rewrite GLSL_smoothstep_below by lra. lra.
Qed.

(** The angle and the radius that the orbit takes give the point back. *)
Lemma polar_roundtrip (a b : R) :
  sqrt (a * a + b * b) * cos (GLSL_atan2 b a) = a
  /\ sqrt (a * a + b * b) * sin (GLSL_atan2 b a) = b.
Proof.
  set (r := sqrt (a * a + b * b)).
  assert (Hscale : forall w, 0 < w -> w * w = a * a ->
             let s := sqrt (1 + (b / a) * (b / a)) in
             0 < s /\ r = w * s).
  { intros w Hw Hww s.
    assert (Ha : a <> 0) by (intros ->; nra).
    assert (Hs : 0 < s).
    { apply sqrt_lt_R0. pose proof (Rle_0_sqr (b / a)). unfold Rsqr in *. lra. }
    split; [exact Hs|].
    unfold r. apply sqrt_lem_1.
    - nra.
    - apply Rmult_le_pos; lra.
    - replace (w * s * (w * s)) with (w * w * (s * s)) by ring.
      unfold s. rewrite sqrt_sqrt
        by (pose proof (Rle_0_sqr (b / a)); unfold Rsqr in *; lra).
      rewrite Hww. field. exact Ha. }
  unfold GLSL_atan2, Rltb.
  destruct (Rlt_dec 0 a) as [Hpos|Hnpos].
  - destruct (Hscale a Hpos eq_refl) as [Hs ->].
    rewrite cos_atan, sin_atan. unfold Rsqr.
    split; field; repeat split; lra.
  - destruct (Rlt_dec a 0) as [Hneg|Hnneg].
    + destruct (Hscale (- a) ltac:(lra) ltac:(ring)) as [Hs ->].
      destruct (Rlt_dec b 0).
      * unfold Rminus at 1 2.
        rewrite cos_plus, sin_plus, cos_neg, sin_neg, cos_PI, sin_PI,
          cos_atan, sin_atan.
        unfold Rsqr. split; field; repeat split; lra.
      * rewrite neg_cos, neg_sin, cos_atan, sin_atan.
        unfold Rsqr. split; field; repeat split; lra.
    + assert (a = 0) by lra. subst a.
      assert (Hr : r = Rabs b).
      { unfold r. replace (0 * 0 + b * b) with (Rsqr b) by (unfold Rsqr; ring).
        apply sqrt_Rsqr_abs. }
      rewrite Hr. unfold Rabs.
      destruct (Rlt_dec 0 b); [|destruct (Rlt_dec b 0)].
      * rewrite cos_PI2, sin_PI2. destruct (Rcase_abs b); lra.
      * rewrite cos_neg, sin_neg, cos_PI2, sin_PI2. destruct (Rcase_abs b); lra.
      * rewrite cos_0, sin_0. destruct (Rcase_abs b); lra.
Qed.

Lemma GLSL_mix3_ends (a c : THREE.Vector3) :
  GLSL_mix3 a c 0 = a /\ GLSL_mix3 a c 1 = c.
Proof.
  destruct a, c. unfold GLSL_mix3, GLSL_mix; simpl.
  split; f_equal; ring.
Qed.

(** X14.  While the expansion is below 0.5 the shader moves a vertex from
    the blend of its two positions only sideways: by at most
    [0.3 |0.01 y + 1|] in x and at most 0.2 in z, the height is the blend's.
    At expansion 0 the blend is the rest position. *)
Theorem vertexPos_sway (u : Uniforms) (v : Vertex) :
  uExpansion u < 0.5 ->
  let blend := GLSL_mix3 (a_position v) (aTargetPos v)
                         (easeInOutCubic (uExpansion u)) in
  let p := vertexPos u v in
  THREE.y p = THREE.y blend
  /\ Rabs (THREE.x p - THREE.x blend) <= 0.3 * Rabs (THREE.y blend * 0.01 + 1)
  /\ Rabs (THREE.z p - THREE.z blend) <= 0.2
  /\ (uExpansion u = 0 -> blend = a_position v).
Proof.
  intros Hexp blend p. subst p.
  assert (Hend : uExpansion u = 0 -> blend = a_position v).
  { intros H0. unfold blend. rewrite H0.
    replace (easeInOutCubic 0) with 0.
    - apply GLSL_mix3_ends.
    - unfold easeInOutCubic, Rltb. destruct (Rlt_dec 0 0.5); lra. }
  unfold vertexPos, Rltb.
  destruct (Rlt_dec (uExpansion u) 0.5); [|lra].
  change (GLSL_mix3 (a_position v) (aTargetPos v) (easeInOutCubic (uExpansion u)))
    with blend.
  clearbody blend. cbv zeta. simpl.
  repeat split; [| |exact Hend].
  - replace (THREE.x blend
             + sin (uTime u * 1.5 + THREE.y blend * 0.05) * 0.3
               * (THREE.y blend * 0.01 + 1.0) - THREE.x blend)
      with (sin (uTime u * 1.5 + THREE.y blend * 0.05)
            * (0.3 * (THREE.y blend * 0.01 + 1))) by lra.
    rewrite Rabs_mult, (Rabs_mult 0.3), (Rabs_pos_eq 0.3) by lra.
    pose proof (SIN_bound (uTime u * 1.5 + THREE.y blend * 0.05)) as Hsin.
    assert (Rabs (sin (uTime u * 1.5 + THREE.y blend * 0.05)) <= 1)
      by (apply Rabs_le; lra).
    pose proof (Rabs_pos (THREE.y blend * 0.01 + 1)). nra.
  - match goal with
    | |- Rabs (_ + cos ?w * 0.2 - _) <= _ =>
        pose proof (COS_bound w) as Hcos;
        replace (THREE.z blend + cos w * 0.2 - THREE.z blend) with (cos w * 0.2) by lra
    end.
    apply Rabs_le. lra.
Qed.

Lemma vertexPos_sway_witness :
  let u := mkUniforms 3 0 1 0 0 in
  let v := mkVertex (THREE.mkVector3 1 2 3) (THREE.mkVector3 100 0 0) 5
                    (THREE.mkVector3 1 1 1) 0 in
  let blend := GLSL_mix3 (a_position v) (aTargetPos v)
                         (easeInOutCubic (uExpansion u)) in
  let p := vertexPos u v in
  THREE.y p = THREE.y blend
  /\ Rabs (THREE.x p - THREE.x blend) <= 0.3 * Rabs (THREE.y blend * 0.01 + 1)
  /\ Rabs (THREE.z p - THREE.z blend) <= 0.2
  /\ (uExpansion u = 0 -> blend = a_position v).
Proof.
  intros u v.
  apply (vertexPos_sway u v). simpl. lra.
Defined.

(** What the orbit does to the blend of the two positions. *)
Lemma vertexPos_orbit_blend (u : Uniforms) (v : Vertex) :
  0.5 <= uExpansion u ->
  let blend := GLSL_mix3 (a_position v) (aTargetPos v)
                         (easeInOutCubic (uExpansion u)) in
  let p := vertexPos u v in
  THREE.x p * THREE.x p + THREE.z p * THREE.z p
  = THREE.x blend * THREE.x blend + THREE.z blend * THREE.z blend
  /\ Rabs (THREE.y p - THREE.y blend) <= 0.5
  /\ (uTime u = 0 -> THREE.x p = THREE.x blend /\ THREE.z p = THREE.z blend)
  /\ (uExpansion u = 1 -> blend = aTargetPos v).
Proof.
  intros Hexp blend p. subst p.
  assert (Hend : uExpansion u = 1 -> blend = aTargetPos v).
  { intros H1. unfold blend. rewrite H1.
    replace (easeInOutCubic 1) with 1.
    - apply GLSL_mix3_ends.
    - unfold easeInOutCubic, Rltb. destruct (Rlt_dec 1 0.5); [lra|].
      rewrite Math_pow_3 by lra. lra. }
  unfold vertexPos, Rltb.
  destruct (Rlt_dec (uExpansion u) 0.5); [lra|].
  change (GLSL_mix3 (a_position v) (aTargetPos v) (easeInOutCubic (uExpansion u)))
    with blend.
  clearbody blend. cbv zeta. simpl.
  set (r := sqrt (THREE.x blend * THREE.x blend + THREE.z blend * THREE.z blend)).
  assert (Hr : r * r = THREE.x blend * THREE.x blend + THREE.z blend * THREE.z blend)
    by (apply sqrt_sqrt; nra).
  repeat split.
  - match goal with
    | |- r * cos ?w * _ + _ = _ =>
        pose proof (sin2_cos2 w) as Hw; unfold Rsqr in Hw;
        replace (r * cos w * (r * cos w) + r * sin w * (r * sin w))
          with (r * r * (sin w * sin w + cos w * cos w)) by ring;
        rewrite Hw, Rmult_1_r; exact Hr
    end.
  - match goal with
    | |- Rabs (_ + sin ?w * 0.5 - _) <= _ =>
        pose proof (SIN_bound w) as Hsin;
        replace (THREE.y blend + sin w * 0.5 - THREE.y blend) with (sin w * 0.5) by lra
    end.
    apply Rabs_le. lra.
  - rewrite H. rewrite Rmult_0_l, Rmult_0_l, Rplus_0_r.
    apply polar_roundtrip.
  - rewrite H. rewrite Rmult_0_l, Rmult_0_l, Rplus_0_r.
    apply polar_roundtrip.
  - exact Hend.
Qed.


(** X15.  From expansion 0.5 on the shader turns a vertex about the
    vertical axis and bobs it: its distance from that axis is the blend's,
    its height within 0.5 of the blend's, and at time 0 its x and z are the
    blend's.  At expansion 1 the blend is the target position. *)
Theorem vertexPos_orbit (u : Uniforms) (v : Vertex) :
  0.5 <= uExpansion u ->
  let blend := GLSL_mix3 (a_position v) (aTargetPos v)
                         (easeInOutCubic (uExpansion u)) in
  let p := vertexPos u v in
  THREE.x p * THREE.x p + THREE.z p * THREE.z p
  = THREE.x blend * THREE.x blend + THREE.z blend * THREE.z blend
  /\ Rabs (THREE.y p - THREE.y blend) <= 0.5
  /\ (uTime u = 0 -> THREE.x p = THREE.x blend /\ THREE.z p = THREE.z blend)
  /\ (uExpansion u = 1 -> blend = aTargetPos v).
Proof. exact (vertexPos_orbit_blend u v). Qed.

Lemma vertexPos_orbit_witness :
  let u := mkUniforms 3 1 1 0 0 in
  let v := mkVertex (THREE.mkVector3 1 2 3) (THREE.mkVector3 100 0 0) 5
                    (THREE.mkVector3 1 1 1) 0 in
  let blend := GLSL_mix3 (a_position v) (aTargetPos v)
                         (easeInOutCubic (uExpansion u)) in
  let p := vertexPos u v in
  THREE.x p * THREE.x p + THREE.z p * THREE.z p
  = THREE.x blend * THREE.x blend + THREE.z blend * THREE.z blend
  /\ Rabs (THREE.y p - THREE.y blend) <= 0.5
  /\ (uTime u = 0 -> THREE.x p = THREE.x blend /\ THREE.z p = THREE.z blend)
  /\ (uExpansion u = 1 -> blend = aTargetPos v).
Proof.
  intros u v.
  apply (vertexPos_orbit u v). simpl. lra.
Defined.

(** ** The geometry of SakuraTree on a generated tree *)

Lemma fillRotations_spec (rs : RandomSource) (len : nat) :
  forall (n i : nat) (rotations : list R) (c : nat),
    List.length rotations = Nat.min i len ->
    Forall (fun r => 0 <= r < PI * 2) rotations ->
    let out := fillRotations rs len i n rotations c in
    List.length (fst out) = Nat.min (i + n) len
    /\ Forall (fun r => 0 <= r < PI * 2) (fst out)
    /\ snd out = (c + n)%nat.
Proof.
  induction n as [|n IH]; intros i rotations c Hlen Hall; simpl.
  - rewrite Nat.add_0_r, Nat.add_0_r. auto.
  - unfold Rbind, Math_random.
    pose proof (draw_range rs c) as Hdraw. pose proof PI_RGT_0 as Hpi.
    destruct (IH (S i)
                (if (i <? len)%nat then rotations ++ [draw rs c * PI * 2] else rotations)
                (S c)) as (Hl & Hf & Hc).
    + destruct (i <? len)%nat eqn:Hi.
      * apply Nat.ltb_lt in Hi. rewrite length_app, Hlen. cbn [List.length]. lia.
      * apply Nat.ltb_ge in Hi. rewrite Hlen. lia.
    + destruct (i <? len)%nat; auto.
      apply Forall_app. split; auto.
      constructor; auto. nra.
    + rewrite Hl, Hc. repeat split; auto; f_equal; lia.
Qed.

(** X16.  On a particle set of [generateTree], [SakuraTree] builds one
    rotation per particle, each in [[0, 2 PI)], with one random draw each;
    all five attributes have the particle count as their count, and vertex
    [i] of the geometry carries the rest position, the target position and
    the size of particle [i]. *)
Theorem SakuraTree_geometry (rs : RandomSource) (fuel : nat) (params : TreeGenParams)
    (c c2 : nat) :
  (Z.to_nat (depth params) < fuel)%nat ->
  exists t c', generateTree rs fuel params c = Ok (t, c')
    /\ forall data, data = wood t \/ data = blossoms t ->
       let rotations := fst (SakuraTree_rotations rs data c2) in
       List.length rotations = particleCount data
       /\ snd (SakuraTree_rotations rs data c2) = (c2 + particleCount data)%nat
       /\ Forall (fun r => 0 <= r < PI * 2) rotations
       /\ BufferAttribute_count (positions data) 3 = particleCount data
       /\ BufferAttribute_count (targetPositions data) 3 = particleCount data
       /\ BufferAttribute_count (colors data) 3 = particleCount data
       /\ BufferAttribute_count (sizes data) 1 = particleCount data
       /\ forall i, (i < particleCount data)%nat ->
            exists v p,
              geometryVertex data rotations i = Some v
              /\ particleAt data i = Some p
              /\ a_position v = pos p
              /\ aTargetPos v = targetPos p
              /\ aSize v = size p.
Proof.
  intros Hfuel.
  destruct (generateTree_emits rs fuel params c Hfuel)
    as (t & e & Hrun & Hw & Hb & _).
  exists t, (c + e_draws e)%nat. split; [exact Hrun|].
  assert (Hdata : forall ps,
    let data := dataOf ps in
    let rotations := fst (SakuraTree_rotations rs data c2) in
    List.length rotations = particleCount data
    /\ snd (SakuraTree_rotations rs data c2) = (c2 + particleCount data)%nat
    /\ Forall (fun r => 0 <= r < PI * 2) rotations
    /\ BufferAttribute_count (positions data) 3 = particleCount data
    /\ BufferAttribute_count (targetPositions data) 3 = particleCount data
    /\ BufferAttribute_count (colors data) 3 = particleCount data
    /\ BufferAttribute_count (sizes data) 1 = particleCount data
    /\ forall i, (i < particleCount data)%nat ->
         exists v p,
           geometryVertex data rotations i = Some v
           /\ particleAt data i = Some p
           /\ a_position v = pos p
           /\ aTargetPos v = targetPos p
           /\ aSize v = size p).
  { intros ps data rotations.
    destruct (ParallelArrays_dataOf ps)
      as (_ & Hn & Hp & Ht & Hc & Hs & _ & _ & Hat & Hpos & Htar & Hsize).
    change (dataOf ps) with data in Hn, Hp, Ht, Hc, Hs, Hat, Hpos, Htar, Hsize.
    clearbody data.
    assert (Hcount : INR (List.length (positions data)) / 3
                     = IZR (Z.of_nat (List.length ps))).
    { rewrite Hp, <- INR_IZR_INZ, mult_INR. simpl. field. }
    assert (Hrot : List.length rotations = List.length ps
                   /\ Forall (fun r => 0 <= r < PI * 2) rotations
                   /\ snd (SakuraTree_rotations rs data c2)
                      = (c2 + List.length ps)%nat).
    { unfold rotations, SakuraTree_rotations. rewrite Hcount.
      unfold Zceil. rewrite <- opp_IZR, !ZfloorZ, Z.opp_involutive, Nat2Z.id.
      destruct (fillRotations_spec rs (List.length ps) (List.length ps) 0 [] c2
                  eq_refl (Forall_nil _)) as (Hl & Hf & Hc').
      rewrite Hl, Hc'. repeat split; auto. simpl. lia. }
    destruct Hrot as (Hrl & Hrf & Hrc).
    unfold BufferAttribute_count. rewrite Hn, Hp, Ht, Hc, Hs.
    repeat split; auto.
    - rewrite Nat.mul_comm. apply Nat.div_mul. lia.
    - rewrite Nat.mul_comm. apply Nat.div_mul. lia.
    - rewrite Nat.mul_comm. apply Nat.div_mul. lia.
    - apply Nat.div_1_r.
    - intros i Hi.
      destruct (nth_error ps i) as [p|] eqn:Hpi;
        [|apply nth_error_None in Hpi; lia].
      destruct (nth_error rotations i) as [r|] eqn:Hri;
        [|apply nth_error_None in Hri; lia].
      pose proof (Hat i) as Hati. rewrite Hpi in Hati.
      assert (Hcol : exists col, vec3At (colors data) i = Some col).
      { unfold particleAt in Hati.
        destruct (vec3At (positions data) i); [|discriminate].
        destruct (vec3At (targetPositions data) i); [|discriminate].
        destruct (vec3At (colors data) i); [eauto | discriminate]. }
      destruct Hcol as [col Hcol].
      unfold geometryVertex. rewrite Hpos, Htar, Hsize, Hpi, Hri, Hcol. simpl.
      eexists _, p. repeat split; auto. }
  intros data [-> | ->].
  - rewrite Hw. apply Hdata.
  - rewrite Hb. apply Hdata.
Qed.

Lemma SakuraTree_geometry_witness :
  exists t c', generateTree zeroSource 3 scenarioParams 0 = Ok (t, c')
    /\ forall data, data = wood t \/ data = blossoms t ->
       let rotations := fst (SakuraTree_rotations zeroSource data 0%nat) in
       List.length rotations = particleCount data
       /\ snd (SakuraTree_rotations zeroSource data 0%nat)
          = (0 + particleCount data)%nat
       /\ Forall (fun r => 0 <= r < PI * 2) rotations
       /\ BufferAttribute_count (positions data) 3 = particleCount data
       /\ BufferAttribute_count (targetPositions data) 3 = particleCount data
       /\ BufferAttribute_count (colors data) 3 = particleCount data
       /\ BufferAttribute_count (sizes data) 1 = particleCount data
       /\ forall i, (i < particleCount data)%nat ->
            exists v p,
              geometryVertex data rotations i = Some v
              /\ particleAt data i = Some p
              /\ a_position v = pos p
              /\ aTargetPos v = targetPos p
              /\ aSize v = size p.
Proof.
  apply (SakuraTree_geometry zeroSource 3 scenarioParams 0 0).
  simpl. lia.
Defined.

(** ** The galaxy as it is displayed *)

Lemma sqrt_le_bound (a c : R) : 0 <= c -> a <= c * c -> sqrt a <= c.
Proof.
  intros Hc Ha.
  rewrite <- (sqrt_square c Hc). now apply sqrt_le_1_alt.
Qed.

(** Two points at the same distance from the vertical axis whose heights
    differ by at most [d] are at distances from the origin that differ by
    at most [d]. *)
Lemma length_bob (p q : THREE.Vector3) (d : R) :
  THREE.x p * THREE.x p + THREE.z p * THREE.z p
  = THREE.x q * THREE.x q + THREE.z q * THREE.z q ->
  Rabs (THREE.y p - THREE.y q) <= d ->
  THREE.length q - d <= THREE.length p <= THREE.length q + d.
Proof.
  intros Haxis Hy.
  assert (Hd : 0 <= d) by (pose proof (Rabs_pos (THREE.y p - THREE.y q)); lra).
  assert (Hyy : - d <= THREE.y p - THREE.y q <= d)
    by (unfold Rabs in Hy; destruct (Rcase_abs _); lra).
  assert (Hside : forall a b : THREE.Vector3,
             THREE.x a * THREE.x a + THREE.z a * THREE.z a
             = THREE.x b * THREE.x b + THREE.z b * THREE.z b ->
             - d <= THREE.y a - THREE.y b <= d ->
             THREE.length a <= THREE.length b + d).
  { intros a b Hab Hyab. unfold THREE.length.
    set (A := THREE.x b * THREE.x b + THREE.z b * THREE.z b) in *.
    replace (THREE.x a * THREE.x a + THREE.y a * THREE.y a + THREE.z a * THREE.z a)
      with (A + THREE.y a * THREE.y a) by lra.
    replace (THREE.x b * THREE.x b + THREE.y b * THREE.y b + THREE.z b * THREE.z b)
      with (A + THREE.y b * THREE.y b) by (unfold A; lra).
    assert (HA : 0 <= A) by (unfold A; nra).
    set (L := sqrt (A + THREE.y b * THREE.y b)).
    assert (HL : 0 <= L) by apply sqrt_pos.
    assert (HLL : L * L = A + THREE.y b * THREE.y b) by (apply sqrt_sqrt; nra).
    assert (HLy : - L <= THREE.y b <= L) by (split; nra).
    apply sqrt_le_bound; [lra|].
    nra. }
  split.
  - assert (THREE.length q <= THREE.length p + d); [|lra].
    apply Hside; [symmetry; exact Haxis | lra].
  - apply Hside; [exact Haxis | exact Hyy].
Qed.

(** X17.  In the galaxy, at expansion 1, every vertex of the wood set and
    of the blossom set of a generated tree is displayed at a distance
    between 79.5 and 200.5 from the origin, at every time. *)
Theorem galaxy_display_in_shell (rs : RandomSource) (fuel : nat)
    (params : TreeGenParams) (c : nat) :
  (Z.to_nat (depth params) < fuel)%nat ->
  exists t c', generateTree rs fuel params c = Ok (t, c')
    /\ forall data i target u v,
         data = wood t \/ data = blossoms t ->
         vec3At (targetPositions data) i = Some target ->
         aTargetPos v = target ->
         uExpansion u = 1 ->
         79.5 <= THREE.length (vertexPos u v) <= 200.5.
Proof.
  intros Hfuel.
  destruct (generateTree_emits rs fuel params c Hfuel)
    as (t & e & Hrun & Hw & Hb & _ & (Hwood & Hblossom & _)).
  exists t, (c + e_draws e)%nat. split; [exact Hrun|].
  intros data i target u v Hdata Htarget Hv Hexp.
  assert (Hshell : in_shell 80 200 target).
  { destruct Hdata as [-> | ->].
    - rewrite Hw in Htarget. now apply (dataOf_targets_in_shell (e_wood e) Hwood i).
    - rewrite Hb in Htarget.
      now apply (dataOf_targets_in_shell (e_blossom e) Hblossom i). }
  destruct (vertexPos_orbit_blend u v ltac:(lra)) as (Haxis & Hy & _ & Hend).
  rewrite (Hend Hexp), Hv in Haxis, Hy.
  pose proof (length_bob (vertexPos u v) target 0.5 Haxis Hy).
  unfold in_shell in Hshell. lra.
Qed.

Lemma galaxy_display_in_shell_witness :
  exists t c', generateTree zeroSource 3 scenarioParams 0 = Ok (t, c')
    /\ forall data i target u v,
         data = wood t \/ data = blossoms t ->
         vec3At (targetPositions data) i = Some target ->
         aTargetPos v = target ->
         uExpansion u = 1 ->
         79.5 <= THREE.length (vertexPos u v) <= 200.5.
Proof.
  apply (galaxy_display_in_shell zeroSource 3 scenarioParams 0).
  simpl. lia.
Defined.

(** ** The polaroids of FloatingGallery *)

(** X18.  While the photos are revealed, the target of a polaroid depends
    on its index and on the number of photos only: it lies on the circle of
    radius 35 about the vertical axis through [(0, 0, 20)], at height 3 for
    an even index and -3 for an odd one, with scale 2.5; the targets of the
    indices [i] and [total - i] mirror each other in x, so that index 0,
    alone, has no partner. *)
Theorem revealed_layout (lookAt : THREE.Vector3 -> THREE.Vector3 -> THREE.Euler)
    (data : PhotoData) (index total : nat) (expansion : R)
    (cameraPosition : THREE.Vector3) :
  (index <= total)%nat ->
  let target i :=
    polaroidTarget lookAt data i total true expansion cameraPosition in
  let p := fst (fst (target index)) in
  let q := fst (fst (target (total - index)%nat)) in
  THREE.x p * THREE.x p + (THREE.z p - 20) * (THREE.z p - 20) = 35 * 35
  /\ THREE.y p = (if Nat.even index then 3 else -3)
  /\ snd (target index) = 2.5
  /\ THREE.x q = - THREE.x p
  /\ THREE.z q = THREE.z p.
Proof.
  intros Hle target p q. subst p q target. cbv beta. unfold polaroidTarget. simpl.
  repeat split.
  - set (w := INR index * 0.4 - INR total * 0.4 / 2).
    pose proof (sin2_cos2 w) as Hw. unfold Rsqr in Hw. nra.
  - destruct (Nat.even index); lra.
  - rewrite minus_INR by exact Hle.
    replace ((INR total - INR index) * 0.4 - INR total * 0.4 / 2)
      with (- (INR index * 0.4 - INR total * 0.4 / 2)) by lra.
    rewrite sin_neg. lra.
  - rewrite minus_INR by exact Hle.
    replace ((INR total - INR index) * 0.4 - INR total * 0.4 / 2)
      with (- (INR index * 0.4 - INR total * 0.4 / 2)) by lra.
    rewrite cos_neg. lra.
Qed.

Lemma revealed_layout_witness :
  let lookAt := fun (_ _ : THREE.Vector3) => THREE.mkEuler 0 0 0 in
  let data := mkPhotoData 0 (THREE.mkVector3 0 0 0) (THREE.mkEuler 0 0 0) ""
                          (THREE.mkVector3 0 0 0) (THREE.mkEuler 0 0 0) in
  let target i :=
    polaroidTarget lookAt data i 16 true 0 (THREE.mkVector3 0 (-10) 60) in
  let p := fst (fst (target 3%nat)) in
  let q := fst (fst (target (16 - 3)%nat)) in
  THREE.x p * THREE.x p + (THREE.z p - 20) * (THREE.z p - 20) = 35 * 35
  /\ THREE.y p = (if Nat.even 3 then 3 else -3)
  /\ snd (target 3%nat) = 2.5
  /\ THREE.x q = - THREE.x p
  /\ THREE.z q = THREE.z p.
Proof.
  intros lookAt data.
  apply (revealed_layout lookAt data 3 16 0 (THREE.mkVector3 0 (-10) 60)).
  lia.
Defined.

Lemma distance_scaled (a c g : THREE.Vector3) (k : R) :
  0 <= k ->
  THREE.x a - THREE.x g = k * (THREE.x c - THREE.x g) ->
  THREE.y a - THREE.y g = k * (THREE.y c - THREE.y g) ->
  THREE.z a - THREE.z g = k * (THREE.z c - THREE.z g) ->
  Vector3_distanceTo a g = k * Vector3_distanceTo c g.
Proof.
  intros Hk Hx Hy Hz. unfold Vector3_distanceTo.
  rewrite Hx, Hy, Hz.
  match goal with
  | |- sqrt ?l = k * sqrt ?r => replace l with (k * k * r) by ring
  end.
  rewrite sqrt_mult_alt by nra.
  now rewrite sqrt_square.
Qed.

(** X19.  One frame of a polaroid, with a delta of at most a third of a
    second: the group moves straight towards its goal, the target with the
    height bobbed by at most 0.5, and its distance to the goal is
    multiplied by [1 - delta * lerpSpeed], with [lerpSpeed] 3 when revealed
    and 1.5 otherwise; the scale is the same on the three axes and, if it
    was between 0.3 and 2.5, stays there. *)
Theorem Polaroid_frame (lookAt : THREE.Vector3 -> THREE.Vector3 -> THREE.Euler)
    (data : PhotoData) (index total : nat) (isRevealed : bool) (expansion : R)
    (cameraPosition : THREE.Vector3) (elapsedTime randomOffset delta : R)
    (m : Group) :
  0 <= delta <= 1 / 3 ->
  let targetPos :=
    fst (fst (polaroidTarget lookAt data index total isRevealed expansion
                             cameraPosition)) in
  exists m' goal,
    Polaroid_useFrame lookAt data index total isRevealed expansion cameraPosition
                      elapsedTime randomOffset delta (Some m) = Some m'
    /\ THREE.x goal = THREE.x targetPos /\ THREE.z goal = THREE.z targetPos
    /\ Rabs (THREE.y goal - THREE.y targetPos) <= 0.5
    /\ Vector3_distanceTo (g_position m') goal
       = (1 - delta * (if isRevealed then 3 else 1.5))
         * Vector3_distanceTo (g_position m) goal
    /\ THREE.y (g_scale m') = THREE.x (g_scale m')
    /\ THREE.z (g_scale m') = THREE.x (g_scale m')
    /\ (0.3 <= THREE.x (g_scale m) <= 2.5 -> 0.3 <= THREE.x (g_scale m') <= 2.5).
Proof.
  intros Hdelta targetPos. subst targetPos.
  unfold Polaroid_useFrame.
  destruct (polaroidTarget lookAt data index total isRevealed expansion
                           cameraPosition) as [[targetPos targetRot] targetScale] eqn:Ht.
  assert (Hscale : targetScale = 2.5 \/ targetScale = 0.5 \/ targetScale = 0.3).
  { unfold polaroidTarget in Ht.
    destruct isRevealed; [|destruct (Rltb 0.5 expansion)]; injection Ht; auto. }
  simpl fst.
  set (floatY := sin ((elapsedTime + randomOffset) * (if isRevealed then 1.0 else 0.5))
                 * (if isRevealed then 0.5 else 0.2)).
  eexists _, (THREE.mkVector3 (THREE.x targetPos) (THREE.y targetPos + floatY)
                              (THREE.z targetPos)).
  split; [reflexivity|]. simpl.
  repeat split.
  - replace (THREE.y targetPos + floatY - THREE.y targetPos) with floatY by lra.
    unfold floatY.
    pose proof (SIN_bound ((elapsedTime + randomOffset)
                           * (if isRevealed then 1.0 else 0.5))) as Hsin.
    apply Rabs_le. destruct isRevealed; nra.
  - apply distance_scaled; simpl; destruct isRevealed; nra.
  - pose proof (MathUtils_lerp_between (THREE.x (g_scale m)) targetScale (delta * 2)
                  ltac:(lra)) as Hb.
    unfold Rmin, Rmax in Hb.
    destruct (Rle_dec (THREE.x (g_scale m)) targetScale); lra.
  - pose proof (MathUtils_lerp_between (THREE.x (g_scale m)) targetScale (delta * 2)
                  ltac:(lra)) as Hb.
    unfold Rmin, Rmax in Hb.
    destruct (Rle_dec (THREE.x (g_scale m)) targetScale); lra.
Qed.

Lemma Polaroid_frame_witness :
  let lookAt := fun (_ _ : THREE.Vector3) => THREE.mkEuler 0 0 0 in
  let data := mkPhotoData 0 (THREE.mkVector3 1 2 3) (THREE.mkEuler 0 0 0) ""
                          (THREE.mkVector3 100 0 0) (THREE.mkEuler 0 0 0) in
  let m := mkGroup (THREE.mkVector3 1 2 3) (THREE.mkEuler 0 0 0)
                   (THREE.mkVector3 0.3 0.3 0.3) in
  let camera := THREE.mkVector3 0 (-10) 60 in
  let targetPos := fst (fst (polaroidTarget lookAt data 0 16 false 1 camera)) in
  exists m' goal,
    Polaroid_useFrame lookAt data 0 16 false 1 camera 0 0 (1 / 60) (Some m) = Some m'
    /\ THREE.x goal = THREE.x targetPos /\ THREE.z goal = THREE.z targetPos
    /\ Rabs (THREE.y goal - THREE.y targetPos) <= 0.5
    /\ Vector3_distanceTo (g_position m') goal
       = (1 - 1 / 60 * (if false then 3 else 1.5))
         * Vector3_distanceTo (g_position m) goal
    /\ THREE.y (g_scale m') = THREE.x (g_scale m')
    /\ THREE.z (g_scale m') = THREE.x (g_scale m')
    /\ (0.3 <= THREE.x (g_scale m) <= 2.5 -> 0.3 <= THREE.x (g_scale m') <= 2.5).
Proof.
  intros lookAt data m camera.
  apply (Polaroid_frame lookAt data 0 16 false 1 camera 0 0 (1 / 60) m).
  lra.
Defined.

(** ** The attributes of the particles of [generateTree] *)

Lemma Math_cbrt_range (a : R) : 0 <= a < 1 -> 0 <= Math_cbrt a < 1.
Proof.
  intros Ha. unfold Math_cbrt.
  destruct (Req_dec_T a 0); [lra|].
  destruct (Rlt_dec 0 a); [|lra].
  unfold Rpower. split.
  - left. apply exp_pos.
  - apply Rlt_le_trans with (exp 0); [|rewrite exp_0; lra].
    apply exp_increasing.
    assert (ln a < 0) by (rewrite <- ln_1; apply ln_increasing; lra).
    lra.
Qed.

Lemma unit_product (a c : R) : -1 <= a <= 1 -> -1 <= c <= 1 -> -1 <= a * c <= 1.
Proof. intros Ha Hc. split; nra. Qed.

Section ParticleAttributes.

Variable rs : RandomSource.

Lemma woodParticle_ok_spec (isTrunk : bool) (start end_ u v : THREE.Vector3)
    (radius : R) (segmentParticles : Z) (i : nat) :
  Rand_spec (woodParticle rs isTrunk start end_ u v radius segmentParticles i)
            wood_particle_ok (fun _ => True).
Proof.
  unfold woodParticle; cbv zeta.
  do 4 rand_skip.
  eapply Rand_bind; [apply Math_random_spec|].
  intros colorMix nmix Hmix _.
  rand_skip.
  eapply Rand_bind;
    [apply (randomRange_strict rs ((if isTrunk then 5.0 else 3.0) * 0.9)
              ((if isTrunk then 5.0 else 3.0) * 1.5)); destruct isTrunk; lra|].
  intros sz nsz Hsz _.
  do 3 rand_skip.
  eapply Rand_bind; [apply Math_random_spec|].
  intros ph nph Hph _.
  apply Rand_ret; auto.
  unfold wood_particle_ok; simpl. pose proof PI_RGT_0.
  split; [destruct isTrunk; lra|]. split; [|nra].
  exists (Math_pow colorMix 3.0). split; [|reflexivity].
  rewrite Math_pow_3 by lra.
  pose proof (cube_le 0 colorMix ltac:(lra)).
  assert (colorMix * colorMix * colorMix < 1); [|lra].
  assert (colorMix * colorMix <= colorMix) by nra. nra.
Qed.

Lemma blossomCluster_ok_spec (end_ : THREE.Vector3) :
  Rand_spec (blossomCluster rs end_) (cluster_ok end_) (fun _ => True).
Proof.
  unfold blossomCluster; cbv zeta.
  eapply Rand_bind; [apply (randomRange_strict rs (-8) 8); lra|].
  intros ox nox Hox _.
  eapply Rand_bind; [apply (randomRange_strict rs (-4) 8); lra|].
  intros oy noy Hoy _.
  eapply Rand_bind; [apply (randomRange_strict rs (-8) 8); lra|].
  intros oz noz Hoz _.
  eapply Rand_bind; [apply (randomRange_strict rs 6 10); lra|].
  intros sx nsx Hsx _.
  eapply Rand_bind; [apply (randomRange_strict rs 4 7); lra|].
  intros sy nsy Hsy _.
  eapply Rand_bind; [apply (randomRange_strict rs 6 10); lra|].
  intros sz nsz Hsz _.
  apply Rand_ret; auto.
  unfold cluster_ok; simpl.
  repeat split; try lra; apply Rabs_le; lra.
Qed.

Lemma blossomParticle_ok_spec (leaf : THREE.Vector3) (cl : Cluster) :
  cluster_ok leaf cl ->
  Rand_spec (blossomParticle rs cl)
            (fun o => exists p, o = Some p /\ blossom_particle_ok leaf p)
            (fun _ => True).
Proof.
  intros (Hcx & Hcy & Hcz & Hsx & Hsy & Hsz).
  unfold blossomParticle; cbv zeta.
  do 2 rand_skip.
  eapply Rand_bind; [apply Math_random_spec|].
  intros rc nrc Hrc _.
  pose proof (Math_cbrt_range rc Hrc) as Hraw.
  set (rRaw := Math_cbrt rc) in *.
  match goal with
  | |- context [Rmax 0 (Rabs (rRaw * sin ?phi * cos ?theta) - 2)] =>
      set (sp := sin phi) in *; set (cp := cos phi) in *;
      set (ct := cos theta) in *; set (st := sin theta) in *;
      assert (Hsp : -1 <= sp <= 1) by apply SIN_bound;
      assert (Hcp : -1 <= cp <= 1) by apply COS_bound;
      assert (Hct : -1 <= ct <= 1) by apply COS_bound;
      assert (Hst : -1 <= st <= 1) by apply SIN_bound
  end.
  assert (Hunit : forall f1 f2, -1 <= f1 <= 1 -> -1 <= f2 <= 1 ->
                                -1 <= rRaw * f1 * f2 <= 1).
  { intros f1 f2 Hf1 Hf2. pose proof (unit_product f1 f2 Hf1 Hf2).
    replace (rRaw * f1 * f2) with (rRaw * (f1 * f2)) by ring. split; nra. }
  pose proof (Hunit sp ct Hsp Hct) as Hx.
  pose proof (Hunit sp st Hsp Hst) as Hy.
  assert (Hz : -1 <= rRaw * cp <= 1) by (split; nra).
  assert (Hweep : Rmax 0 (Rabs (rRaw * sp * ct) - 2) * 0.6 = 0).
  { rewrite Rmax_left; [lra|].
    assert (Rabs (rRaw * sp * ct) <= 1) by (apply Rabs_le; lra). lra. }
  rewrite Hweep.
  rand_skip.
  eapply Rand_bind with
    (Q1 := fun y => THREE.y (clusterCenter cl) + rRaw * sp * st * spreadY cl - 3 < y
                    <= THREE.y (clusterCenter cl) + rRaw * sp * st * spreadY cl)
    (P1 := fun _ => True).
  { match goal with
    | |- Rand_spec (if ?b then _ else _) _ _ => destruct b
    end.
    - eapply Rand_bind; [apply Math_random_spec|].
      intros w nw Hw _. apply Rand_ret; auto. lra.
    - apply Rand_ret; auto. lra. }
  intros py npy Hpy _.
  eapply Rand_bind; [apply Math_random_spec|].
  intros ci nci Hci _.
  eapply Rand_bind; [apply (randomRange_strict rs 0 3.0); lra|].
  intros sv nsv Hsv _.
  rand_skip.
  eapply Rand_bind; [apply (randomRange_strict rs 0.2 1.6); lra|].
  intros dy ndy Hdy _.
  do 2 rand_skip.
  eapply Rand_bind; [apply Math_random_spec|].
  intros ph nph Hph _.
  apply Rand_ret; auto.
  destruct (blossomColors_get ci Hci) as [col Hcol].
  assert (Hin : In col blossomColors).
  { unfold array_get in Hcol.
    destruct (_ <? 0)%Z; [discriminate|].
    now apply nth_error_In in Hcol. }
  rewrite Hcol. cbn [option_map].
  eexists; split; [reflexivity|].
  unfold blossom_particle_ok, near_leaf; cbn [size color phase drift pos THREE.x THREE.y THREE.z].
  pose proof PI_RGT_0.
  unfold Rabs in Hcx, Hcz.
  destruct (Rcase_abs (THREE.x (clusterCenter cl) - THREE.x leaf));
    destruct (Rcase_abs (THREE.z (clusterCenter cl) - THREE.z leaf));
    repeat split; try lra; try nra; try exact Hin;
    try (apply Rabs_def1; nra).
Qed.

End ParticleAttributes.

Lemma blossoms_by_leaf_nil (e : Emit) :
  e_blossom e = [] -> e_leaves e = [] -> blossoms_by_leaf e.
Proof.
  intros Hb Hl. exists []. rewrite Hb, Hl. split; [reflexivity | constructor].
Qed.

Lemma blossoms_by_leaf_app (e1 e2 : Emit) :
  blossoms_by_leaf e1 -> blossoms_by_leaf e2 -> blossoms_by_leaf (Emit_app e1 e2).
Proof.
  intros (c1 & Hb1 & Hf1) (c2 & Hb2 & Hf2).
  exists (c1 ++ c2). simpl. rewrite Hb1, Hb2, concat_app.
  split; [reflexivity|]. now apply Forall2_app.
Qed.

Lemma blossoms_by_leaf_one (e : Emit) (leaf : THREE.Vector3) :
  e_leaves e = [leaf] ->
  List.length (e_blossom e) = 450%nat ->
  Forall (blossom_particle_ok leaf) (e_blossom e) ->
  blossoms_by_leaf e.
Proof.
  intros Hl Hn Hf. exists [e_blossom e]. rewrite Hl. simpl.
  rewrite app_nil_r. split; [reflexivity|].
  constructor; [split; assumption | constructor].
Qed.

Section GrowBranchDetail.

Variable rs : RandomSource.

Lemma wood_loop_detail (isTrunk : bool) (start end_ u v : THREE.Vector3)
    (radius : R) (segmentParticles : Z) (n : nat) :
  Emits (forLoop 0 n
           (fun i =>
              Gbind (rnd (woodParticle rs isTrunk start end_ u v radius
                                       segmentParticles i))
                    (fun p => woodBuffer_add p)))
        (fun _ e => Forall wood_particle_ok (e_wood e)
                    /\ List.length (e_wood e) = n
                    /\ e_blossom e = [] /\ e_leaves e = []).
Proof.
  apply (Emits_forLoop
           (fun k e => Forall wood_particle_ok (e_wood e)
                       /\ List.length (e_wood e) = k
                       /\ e_blossom e = [] /\ e_leaves e = [])).
  - simpl; auto.
  - intros k acc _ (Hw & Hn & Hb & Hl).
    eapply Emits_bind; [apply Emits_rnd, woodParticle_ok_spec|].
    intros p e1 (Hp & d & -> & _).
    eapply Emits_weaken; [apply Emits_woodBuffer_add|].
    intros ? e ->; simpl.
    rewrite Hb, Hl, length_app, Hn. simpl. repeat split; auto.
    + apply Forall_app; split; auto.
    + lia.
Qed.

Lemma blossom_loop_detail (leaf : THREE.Vector3) (cl : Cluster) (n : nat) :
  cluster_ok leaf cl ->
  Emits (forLoop 0 n
           (fun k =>
              Gbind (rnd (blossomParticle rs cl)) (fun p => blossomBuffer_add p)))
        (fun _ e => e_wood e = []
                    /\ Forall (blossom_particle_ok leaf) (e_blossom e)
                    /\ List.length (e_blossom e) = n /\ e_leaves e = []).
Proof.
  intros Hcl.
  apply (Emits_forLoop
           (fun k e => e_wood e = []
                       /\ Forall (blossom_particle_ok leaf) (e_blossom e)
                       /\ List.length (e_blossom e) = k /\ e_leaves e = [])).
  - simpl; auto.
  - intros k acc _ (Hw & Hb & Hn & Hl).
    eapply Emits_bind; [apply Emits_rnd, (blossomParticle_ok_spec rs leaf cl Hcl)|].
    intros o e1 ((p & -> & Hp) & d & -> & _).
    eapply Emits_weaken; [apply Emits_blossomBuffer_add|].
    intros ? e ->; simpl.
    rewrite Hw, Hl, length_app, Hn; simpl. repeat split; auto.
    + apply Forall_app; split; auto.
    + lia.
Qed.

Lemma clusters_detail (end_ : THREE.Vector3) :
  Emits (forLoop 0 5
           (fun c =>
              Gbind (rnd (blossomCluster rs end_))
                (fun cl =>
                   forLoop 0 90
                     (fun k =>
                        Gbind (rnd (blossomParticle rs cl))
                              (fun p => blossomBuffer_add p)))))
        (fun _ e => e_wood e = []
                    /\ Forall (blossom_particle_ok end_) (e_blossom e)
                    /\ List.length (e_blossom e) = 450%nat /\ e_leaves e = []).
Proof.
  eapply Emits_weaken.
  - apply (Emits_forLoop
             (fun k e => e_wood e = []
                         /\ Forall (blossom_particle_ok end_) (e_blossom e)
                         /\ List.length (e_blossom e) = (90 * k)%nat
                         /\ e_leaves e = [])).
    + simpl; repeat split; auto.
    + intros k acc _ (Hw & Hb & Hn & Hl).
      eapply Emits_bind; [apply Emits_rnd, blossomCluster_ok_spec|].
      intros cl e1 (Hcl & d & -> & _).
      eapply Emits_weaken; [apply (blossom_loop_detail end_ cl 90 Hcl)|].
      intros ? e (Hw2 & Hb2 & Hn2 & Hl2); simpl.
      rewrite Hw, Hl, Hw2, Hl2, length_app, Hn, Hn2; simpl.
      repeat split; auto; try lia.
      apply Forall_app; split; auto.
  - intros ? e (Hw & Hb & Hn & Hl). repeat split; auto.
Qed.

Lemma growBranch_detail :
  forall (fuel : nat) (depth : Z) (start direction : THREE.Vector3)
         (length radius : R) (currentDepth : Z),
    (Z.to_nat currentDepth < fuel)%nat ->
    Emits (growBranch rs fuel depth start direction length radius currentDepth)
          (fun _ e =>
             GrowDetail
               (Z.to_nat (Math_ceil (length * radius
                                     * (if (currentDepth =? depth)%Z
                                        then 32.0 else 12.0))))
               currentDepth e).
Proof.
  induction fuel as [|fuel IH];
    intros depth start direction length radius currentDepth Hfuel; [lia|].
  cbn [growBranch]. cbv zeta.
  eapply Emits_bind; [apply wood_loop_detail|].
  intros ? e1 (Hw1 & Hn1 & Hb1 & Hl1).
  destruct (currentDepth >? 0)%Z eqn:Hcd.
  - apply Z.gtb_lt in Hcd.
    eapply Emits_bind; [apply Emits_rnd, branchCount_spec|].
    intros count e2 (_ & d & -> & _).
    eapply Emits_weaken.
    + apply (Emits_forLoop
               (fun k e => Forall wood_particle_ok (e_wood e) /\ blossoms_by_leaf e)).
      * split; [constructor | now apply blossoms_by_leaf_nil].
      * intros k acc _ (Aw & Ab).
        eapply Emits_bind; [apply Emits_rnd, childDirection_spec|].
        intros nextDir e3 (_ & d3 & -> & _).
        eapply Emits_weaken; [apply IH; lia|].
        intros ? e (Gw & _ & _ & Gb).
        split.
        -- simpl. apply Forall_app; split; auto.
        -- apply blossoms_by_leaf_app; [exact Ab|].
           apply blossoms_by_leaf_app; [now apply blossoms_by_leaf_nil | exact Gb].
    + intros ? e (Aw & Ab). unfold GrowDetail.
      split; [|split; [|split]].
      * simpl. apply Forall_app; split; auto.
      * simpl. rewrite length_app, Hn1. lia.
      * intros Hle. lia.
      * apply blossoms_by_leaf_app; [now apply blossoms_by_leaf_nil|].
        apply blossoms_by_leaf_app; [now apply blossoms_by_leaf_nil | exact Ab].
  - rewrite Z.gtb_ltb in Hcd. apply Z.ltb_ge in Hcd.
    eapply Emits_bind; [apply Emits_leafNodes_push|].
    intros ? e2 ->.
    eapply Emits_weaken; [apply clusters_detail|].
    intros ? e (Cw & Cb & Cn & Cl). unfold GrowDetail.
    split; [|split; [|split]].
    + simpl. rewrite Cw, app_nil_r. exact Hw1.
    + simpl. rewrite Cw, app_nil_r, Hn1. lia.
    + intros _. simpl. rewrite Cw, app_nil_r. exact Hn1.
    + apply blossoms_by_leaf_app; [now apply blossoms_by_leaf_nil|].
      apply (blossoms_by_leaf_one _
               (THREE.add start (THREE.multiplyScalar direction length)));
        simpl; rewrite ?Cl; auto.
Qed.

End GrowBranchDetail.

Lemma generateTree_detail (rs : RandomSource) (fuel : nat) (params : TreeGenParams)
    (c : nat) :
  (Z.to_nat (depth params) < fuel)%nat ->
  exists t e,
    generateTree rs fuel params c = Ok (t, (c + e_draws e)%nat)
    /\ wood t = dataOf (e_wood e)
    /\ blossoms t = dataOf (e_blossom e)
    /\ leafNodes t = e_leaves e
    /\ GrowDetail (Z.to_nat (Math_ceil (branchLength params * 10.0 * 32.0)))
                  (depth params) e.
Proof.
  intros Hfuel. unfold generateTree.
  destruct (growBranch_detail rs fuel (depth params) (startPos params)
              (THREE.mkVector3 0 1 0) (branchLength params) 10.0 (depth params) Hfuel
              (Closure.mk c ParticleBuffer.new ParticleBuffer.new []))
    as ([] & s' & e & Hrun & (Hw & Hb & Hl & Hc) & Hpost).
  rewrite Hrun. simpl in Hw, Hb, Hl, Hc.
  rewrite Z.eqb_refl in Hpost.
  eexists _, e; split; [rewrite Hc; reflexivity|].
  unfold dataOf; simpl. rewrite Hw, Hb, Hl. auto.
Qed.

(** The particle at an index of the blossoms, leaf by leaf. *)
Lemma chunk_of_index {A B} (P : A -> B -> Prop) (leaves : list A)
    (chunks : list (list B)) :
  Forall2 (fun leaf chunk => List.length chunk = 450%nat /\ Forall (P leaf) chunk)
          leaves chunks ->
  forall i p,
    nth_error (List.concat chunks) i = Some p ->
    exists leaf, nth_error leaves (i / 450) = Some leaf /\ P leaf p.
Proof.
  induction 1 as [|leaf chunk leaves chunks [Hlen Hall] _ IH]; intros i p Hi.
  - now destruct i.
  - simpl in Hi.
    destruct (Nat.lt_ge_cases i 450) as [Hlt | Hge].
    + rewrite nth_error_app1 in Hi by lia.
      rewrite Nat.div_small by exact Hlt.
      exists leaf. split; [reflexivity|].
      rewrite Forall_forall in Hall. apply Hall.
      now apply nth_error_In in Hi.
    + rewrite nth_error_app2, Hlen in Hi by lia.
      destruct (IH _ _ Hi) as (leaf' & Hleaf & HP).
      exists leaf'. split; [|exact HP].
      replace i with (1 * 450 + (i - 450))%nat at 1 by lia.
      rewrite Nat.div_add_l by lia. exact Hleaf.
Qed.

(** X20.  The attributes of the particles of a generated tree.  A wood
    particle has a size in [[2.7, 7.5)], a colour between the two wood
    colours and a phase in [[0, 2 PI)]; a blossom particle has a size
    between 1.2 and 10.2, one of the five colours of the palette, a phase
    in [[0, 2 PI)] and an upward drift in [[0.2, 1.6)]. *)
Theorem particle_attributes (rs : RandomSource) (fuel : nat) (params : TreeGenParams)
    (c : nat) :
  (Z.to_nat (depth params) < fuel)%nat ->
  exists t c', generateTree rs fuel params c = Ok (t, c')
    /\ (forall i p, particleAt (wood t) i = Some p ->
          2.7 <= size p < 7.5
          /\ (exists m, 0 <= m < 1
                        /\ color p = THREE.lerp woodColorBase woodColorVar m)
          /\ 0 <= phase p < PI * 2)
    /\ (forall i p, particleAt (blossoms t) i = Some p ->
          1.2 < size p < 10.2
          /\ In (color p) blossomColors
          /\ 0 <= phase p < PI * 2
          /\ 0.2 <= THREE.y (drift p) < 1.6).
Proof.
  intros Hfuel.
  destruct (generateTree_detail rs fuel params c Hfuel)
    as (t & e & Hrun & Hw & Hb & Hl & (Hwood & _ & _ & chunks & Hchunks & Hall)).
  exists t, (c + e_draws e)%nat. split; [exact Hrun|]. split.
  - intros i p Hp. rewrite Hw in Hp.
    destruct (ParallelArrays_dataOf (e_wood e))
      as (_ & _ & _ & _ & _ & _ & _ & _ & Hat & _).
    rewrite Hat in Hp. apply nth_error_In in Hp.
    rewrite Forall_forall in Hwood. exact (Hwood p Hp).
  - intros i p Hp. rewrite Hb in Hp.
    destruct (ParallelArrays_dataOf (e_blossom e))
      as (_ & _ & _ & _ & _ & _ & _ & _ & Hat & _).
    rewrite Hat, Hchunks in Hp.
    destruct (chunk_of_index blossom_particle_ok _ _ Hall i p Hp)
      as (leaf & _ & Hs & Hc & Hph & Hd & _).
    auto.
Qed.

Lemma particle_attributes_witness :
  exists t c', generateTree zeroSource 3 scenarioParams 0 = Ok (t, c')
    /\ (forall i p, particleAt (wood t) i = Some p ->
          2.7 <= size p < 7.5
          /\ (exists m, 0 <= m < 1
                        /\ color p = THREE.lerp woodColorBase woodColorVar m)
          /\ 0 <= phase p < PI * 2)
    /\ (forall i p, particleAt (blossoms t) i = Some p ->
          1.2 < size p < 10.2
          /\ In (color p) blossomColors
          /\ 0 <= phase p < PI * 2
          /\ 0.2 <= THREE.y (drift p) < 1.6).
Proof.
  apply (particle_attributes zeroSource 3 scenarioParams 0). simpl. lia.
Defined.

(** X21.  The blossoms are stored leaf by leaf: blossom particle [i]
    belongs to leaf node [i / 450], and its rest position lies in a box
    around that node, less than 18 away in x and in z, less than 14 below
    and less than 15 above. *)
Theorem blossoms_near_leaf (rs : RandomSource) (fuel : nat) (params : TreeGenParams)
    (c : nat) :
  (Z.to_nat (depth params) < fuel)%nat ->
  exists t c', generateTree rs fuel params c = Ok (t, c')
    /\ forall i p, vec3At (positions (blossoms t)) i = Some p ->
         exists leaf,
           nth_error (leafNodes t) (i / 450) = Some leaf
           /\ Rabs (THREE.x p - THREE.x leaf) < 18
           /\ -14 < THREE.y p - THREE.y leaf < 15
           /\ Rabs (THREE.z p - THREE.z leaf) < 18.
Proof.
  intros Hfuel.
  destruct (generateTree_detail rs fuel params c Hfuel)
    as (t & e & Hrun & Hw & Hb & Hl & (_ & _ & _ & chunks & Hchunks & Hall)).
  exists t, (c + e_draws e)%nat. split; [exact Hrun|].
  intros i p Hp. rewrite Hb in Hp.
  destruct (ParallelArrays_dataOf (e_blossom e))
    as (_ & _ & _ & _ & _ & _ & _ & _ & _ & Hpos & _).
  rewrite Hpos, Hchunks in Hp.
  destruct (nth_error (List.concat chunks) i) as [q|] eqn:Hq; [|discriminate].
  injection Hp as <-.
  destruct (chunk_of_index blossom_particle_ok _ _ Hall i q Hq)
    as (leaf & Hleaf & _ & _ & _ & _ & Hnear).
  exists leaf. rewrite Hl. split; [exact Hleaf | exact Hnear].
Qed.

Lemma blossoms_near_leaf_witness :
  exists t c', generateTree zeroSource 3 scenarioParams 0 = Ok (t, c')
    /\ forall i p, vec3At (positions (blossoms t)) i = Some p ->
         exists leaf,
           nth_error (leafNodes t) (i / 450) = Some leaf
           /\ Rabs (THREE.x p - THREE.x leaf) < 18
           /\ -14 < THREE.y p - THREE.y leaf < 15
           /\ Rabs (THREE.z p - THREE.z leaf) < 18.
Proof.
  apply (blossoms_near_leaf zeroSource 3 scenarioParams 0). simpl. lia.
Defined.



(** ** The photos of createPhotoData *)

Lemma String_length_append (s1 s2 : string) :
  String.length (s1 ++ s2) = (String.length s1 + String.length s2)%nat.
Proof.
  induction s1 as [|a s1 IH]; simpl; auto.
Qed.

Lemma String_append_inj_l (p s1 s2 : string) :
  (p ++ s1 = p ++ s2)%string -> s1 = s2.
Proof.
  induction p as [|a p IH]; simpl; auto.
  intros [= H]. auto.
Qed.

Lemma String_append_inj_r (s1 s2 q : string) :
  (s1 ++ q = s2 ++ q)%string -> s1 = s2.
Proof.
  revert s2. induction s1 as [|a s1 IH]; intros [|b s2] H; simpl in H; auto.
  - apply (f_equal String.length) in H. simpl in H.
    rewrite String_length_append in H. lia.
  - apply (f_equal String.length) in H. simpl in H.
    rewrite String_length_append in H. lia.
  - injection H as -> H. f_equal. auto.
Qed.

(** Two numbers with the same decimal digits are equal. *)
Lemma Number_toString_inj (n m : nat) :
  Number_toString n = Number_toString m -> n = m.
Proof.
  assert (Hnil : forall k, Nat.to_uint k <> Decimal.Nil).
  { intros k Hk. pose proof (DecimalNat.Unsigned.of_to k) as Hof.
    rewrite Hk in Hof. simpl in Hof. subst k. discriminate. }
  unfold Number_toString. intros H.
  apply DecimalNat.Unsigned.to_uint_inj.
  pose proof (NilZero.usu (Nat.to_uint n) (Hnil n)) as Hn.
  pose proof (NilZero.usu (Nat.to_uint m) (Hnil m)) as Hm.
  rewrite H in Hn. congruence.
Qed.

(** The fields of a photo that [photoOf_spec] leaves out. *)
Lemma photoOf_detail (rs : RandomSource) (node : THREE.Vector3) (index c : nat) :
  let ph := fst (photoOf rs node index c) in
  id ph = index
  /\ url ph = ("https://picsum.photos/seed/" ++ Number_toString (index + 420)
                 ++ "/300/400.jpg")%string
  /\ (- 0.15 <= THREE.ex (rotation ph) <= 0.15
      /\ 0 <= THREE.ey (rotation ph) <= PI * 2
      /\ - 0.15 <= THREE.ez (rotation ph) <= 0.15)
  /\ (0 <= THREE.ex (targetSpaceRot ph) < PI
      /\ 0 <= THREE.ey (targetSpaceRot ph) < PI
      /\ 0 <= THREE.ez (targetSpaceRot ph) < PI)
  /\ snd (photoOf rs node index c) = (c + 9)%nat.
Proof.
  pose proof PI_RGT_0 as Hpi.
  unfold photoOf, randomRange, Math_random, Rbind, Rret; simpl.
  pose proof (draw_range rs (c + 3)) as H3.
  pose proof (draw_range rs (c + 4)) as H4.
  pose proof (draw_range rs (c + 5)) as H5.
  pose proof (draw_range rs (c + 6)) as H6.
  pose proof (draw_range rs (c + 7)) as H7.
  pose proof (draw_range rs (c + 8)) as H8.
  replace (S (S (S c))) with (c + 3)%nat by lia.
  replace (S (c + 3)) with (c + 4)%nat by lia.
  replace (S (c + 4)) with (c + 5)%nat by lia.
  replace (S (c + 5)) with (c + 6)%nat by lia.
  replace (S (c + 6)) with (c + 7)%nat by lia.
  replace (S (c + 7)) with (c + 8)%nat by lia.
  repeat split; try nra; try lia.
Qed.

Lemma forEach_from_map {A B C} (f : A -> nat -> Rand B) (g : B -> C) (h : nat -> C) :
  (forall a i c, g (fst (f a i c)) = h i) ->
  forall (arr : list A) (index c : nat),
    map g (fst (forEach_from f index arr c)) = map h (seq index (List.length arr)).
Proof.
  intros Hf. induction arr as [|a rest IH]; intros index c; simpl; auto.
  unfold Rbind. pose proof (Hf a index c) as Ha.
  destruct (f a index c) as [p c1].
  specialize (IH (S index) c1).
  destruct (forEach_from f (S index) rest c1) as [ps c2]; simpl in *.
  now rewrite Ha, IH.
Qed.

(** X23.  A negative count is not refused: [Math.min] keeps it and [slice]
    counts it from the end, so that [createPhotoData] returns a photo for
    all but the last [-count] nodes of the shuffled list, and none when
    there are not that many. *)
Theorem createPhotoData_negative_count (rs : RandomSource)
    (leafNodes : list THREE.Vector3) (count : Z) (c : nat) :
  (count < 0)%Z ->
  List.length (fst (createPhotoData rs leafNodes count c))
  = Z.to_nat (Z.of_nat (List.length leafNodes) + count).
Proof.
  intros Hcount.
  destruct (createPhotoData_chosen rs leafNodes count c)
    as (sorted & c1 & Hperm & ->).
  rewrite forEach_from_length. unfold Array_slice0.
  rewrite Z.min_l by lia.
  destruct (count <? 0)%Z eqn:Hneg; [|apply Z.ltb_ge in Hneg; lia].
  rewrite length_firstn, <- (Permutation_length Hperm). lia.
Qed.

Lemma createPhotoData_negative_count_witness :
  let leaves := [THREE.mkVector3 1 0 0; THREE.mkVector3 2 0 0; THREE.mkVector3 3 0 0] in
  List.length (fst (createPhotoData zeroSource leaves (-1) 0%nat))
  = Z.to_nat (Z.of_nat (List.length leaves) + -1).
Proof.
  intros leaves.
  apply (createPhotoData_negative_count zeroSource leaves (-1) 0%nat).
  lia.
Defined.

(** X24.  The photos are numbered from 0 in the order of the array, photo
    [j] loads the picture of seed [j + 420], and no two photos of one call
    have the same URL. *)
Theorem photo_urls_distinct (rs : RandomSource)
    (leafNodes : list THREE.Vector3) (count : Z) (c : nat) :
  let photos := fst (createPhotoData rs leafNodes count c) in
  map id photos = seq 0 (List.length photos)
  /\ map url photos
     = map (fun j => ("https://picsum.photos/seed/" ++ Number_toString (j + 420)
                        ++ "/300/400.jpg")%string)
           (seq 0 (List.length photos))
  /\ NoDup (map url photos).
Proof.
  intros photos. subst photos.
  destruct (createPhotoData_chosen rs leafNodes count c)
    as (sorted & c1 & _ & ->).
  set (chosen := Array_slice0 sorted _).
  set (h := fun j => ("https://picsum.photos/seed/" ++ Number_toString (j + 420)
                        ++ "/300/400.jpg")%string).
  assert (Hid : map id (fst (forEach_from (photoOf rs) 0 chosen c1))
                = map (fun j => j) (seq 0 (List.length chosen))).
  { apply forEach_from_map. intros a i c0. apply photoOf_detail. }
  assert (Hurl : map url (fst (forEach_from (photoOf rs) 0 chosen c1))
                 = map h (seq 0 (List.length chosen))).
  { apply forEach_from_map. intros a i c0. apply photoOf_detail. }
  rewrite forEach_from_length, Hid, Hurl, map_id.
  repeat split.
  apply Finite.Injective_map_NoDup; [|apply seq_NoDup].
  intros i j Hij. unfold h in Hij.
  apply String_append_inj_l, String_append_inj_r, Number_toString_inj in Hij.
  lia.
Qed.

(** X25.  Every photo hangs almost upright, tilted by at most 0.15 about x
    and z and turned freely about y, and its orientation in the galaxy has
    each angle in [0, PI). *)
Theorem photo_rotations (rs : RandomSource)
    (leafNodes : list THREE.Vector3) (count : Z) (c : nat) :
  Forall (fun ph =>
            (Rabs (THREE.ex (rotation ph)) <= 0.15
             /\ 0 <= THREE.ey (rotation ph) <= PI * 2
             /\ Rabs (THREE.ez (rotation ph)) <= 0.15)
            /\ (0 <= THREE.ex (targetSpaceRot ph) < PI
                /\ 0 <= THREE.ey (targetSpaceRot ph) < PI
                /\ 0 <= THREE.ez (targetSpaceRot ph) < PI))
         (fst (createPhotoData rs leafNodes count c)).
Proof.
  destruct (createPhotoData_chosen rs leafNodes count c)
    as (sorted & c1 & _ & ->).
  apply Forall_forall. intros ph Hin.
  apply In_nth_error in Hin. destruct Hin as [j Hj].
  apply (forEach_from_nth_error (photoOf rs)
           (fun _ _ p =>
              (- 0.15 <= THREE.ex (rotation p) <= 0.15
               /\ 0 <= THREE.ey (rotation p) <= PI * 2
               /\ - 0.15 <= THREE.ez (rotation p) <= 0.15)
              /\ (0 <= THREE.ex (targetSpaceRot p) < PI
                  /\ 0 <= THREE.ey (targetSpaceRot p) < PI
                  /\ 0 <= THREE.ez (targetSpaceRot p) < PI))) in Hj.
  - destruct Hj as (_ & _ & (Hx & Hy & Hz) & Ht).
    repeat split; try apply Ht; try apply Hy; apply Rabs_le; lra.
  - intros a i c0.
    pose proof (photoOf_detail rs a i c0) as (_ & _ & Hr & Ht & _).
    split; assumption.
Qed.

(** ** The motion centroid of WebcamInput *)

Lemma motionStep_ok (currentData prevData : list Z) (i : nat) (acc : Motion) :
  (List.length currentData <= 64 * 48 * 4)%nat ->
  Motion_ok acc -> Motion_ok (motionStep 64 currentData prevData i acc).
Proof.
  intros Hlen Hacc. unfold motionStep.
  destruct (nth_error currentData (i + 1)) as [cur|] eqn:Hcur; [|exact Hacc].
  destruct (nth_error prevData (i + 1)) as [prev|]; [|exact Hacc].
  cbv zeta. destruct (25 <? Z.abs (cur - prev))%Z; [|exact Hacc].
  assert (Hi : (i + 1 < List.length currentData)%nat)
    by (apply nth_error_Some; congruence).
  assert (Hp : (0 <= Z.of_nat i / 4 < 3072)%Z).
  { split; [apply Z.div_pos; lia|]. apply Z.div_lt_upper_bound; lia. }
  pose proof (Z.mod_pos_bound (Z.of_nat i / 4) 64 ltac:(lia)) as Hx.
  assert (Hy : (0 <= Z.of_nat i / 4 / 64 < 48)%Z).
  { split; [apply Z.div_pos; lia|]. apply Z.div_lt_upper_bound; lia. }
  destruct Hacc as (Hc & Hsx & Hsy).
  unfold Motion_ok; cbn [sumX sumY motionCount].
  set (x := ((Z.of_nat i / 4) mod 64)%Z) in *.
  set (y := (Z.of_nat i / 4 / 64)%Z) in *.
  clearbody x y. lia.
Qed.

Lemma motionLoop_ok (currentData prevData : list Z) :
  (List.length currentData <= 64 * 48 * 4)%nat ->
  forall (fuel i : nat) (acc : Motion),
    Motion_ok acc -> Motion_ok (motionLoop 64 currentData prevData fuel i acc).
Proof.
  intros Hlen. induction fuel as [|fuel IH]; intros i acc Hacc; simpl; auto.
  destruct (i <? List.length currentData)%nat; auto.
  apply IH. now apply motionStep_ok.
Qed.

(** The fuel of [processFrame] is enough: more of it changes nothing. *)
Lemma motionLoop_fuel (w : Z) (currentData prevData : list Z) :
  forall (fuel extra i : nat) (acc : Motion),
    (List.length currentData <= i + 4 * fuel)%nat ->
    motionLoop w currentData prevData (fuel + extra) i acc
    = motionLoop w currentData prevData fuel i acc.
Proof.
  induction fuel as [|fuel IH]; intros extra i acc Hlen.
  - destruct extra as [|extra]; simpl; auto.
    destruct (i <? List.length currentData)%nat eqn:Hi; auto.
    apply Nat.ltb_lt in Hi. lia.
  - simpl. destruct (i <? List.length currentData)%nat; auto.
    apply IH. lia.
Qed.

(** Two equal frames show no motion. *)
Lemma motionLoop_still (w : Z) (currentData : list Z) :
  forall (fuel i : nat) (acc : Motion),
    motionLoop w currentData currentData fuel i acc = acc.
Proof.
  induction fuel as [|fuel IH]; intros i acc; simpl; auto.
  destruct (i <? List.length currentData)%nat; auto.
  rewrite IH. unfold motionStep.
  destruct (nth_error currentData (i + 1)) as [cur|]; auto.
  cbv zeta. now rewrite Z.sub_diag.
Qed.

Lemma mean_range (sum k bound : R) :
  0 < k -> 0 <= sum <= bound * k -> 0 <= sum / k <= bound.
Proof.
  intros Hk [H0 H1].
  assert (Hinv : 0 < / k) by now apply Rinv_0_lt_compat.
  unfold Rdiv. split; [apply Rmult_le_pos; lra|].
  apply Rmult_le_reg_r with k; [lra|].
  rewrite Rmult_assoc, Rinv_l by lra. lra.
Qed.

(** X26.  On a frame of the 64 x 48 canvas, whatever the frame before,
    [processFrame] reports a position with x in [-1, 1) and y in (-1, 1]
    and an intensity in [0, 1]; the intensity is 0 only together with the
    position (0, 0), and the frame becomes the previous one. *)
Theorem motion_update_in_range (currentData : list Z)
    (prevFrameRef : option (list Z)) :
  (List.length currentData <= 64 * 48 * 4)%nat ->
  exists normX normY intensity,
    processFrame true currentData prevFrameRef
    = (Some (normX, normY, intensity), Some currentData)
    /\ - 1 <= normX < 1
    /\ - 1 < normY <= 1
    /\ 0 <= intensity <= 1
    /\ (intensity = 0 -> normX = 0 /\ normY = 0).
Proof.
  intros Hlen.
  assert (Hm : exists m, Motion_ok m
             /\ match prevFrameRef with
                | Some prevData =>
                    motionLoop 64 currentData prevData (List.length currentData) 0
                      (mkMotion 0 0 0)
                | None => mkMotion 0 0 0
                end = m).
  { eexists; split; [|reflexivity].
    assert (H0 : Motion_ok (mkMotion 0 0 0)) by (unfold Motion_ok; simpl; lia).
    destruct prevFrameRef as [prevData|]; [|exact H0].
    apply motionLoop_ok; [exact Hlen | exact H0]. }
  destruct Hm as (m & (Hc & Hsx & Hsy) & Hrun).
  unfold processFrame. cbv zeta. rewrite Hrun.
  destruct (5 <? motionCount m)%Z eqn:H5.
  - apply Z.ltb_lt in H5.
    do 3 eexists. split; [reflexivity|].
    assert (Hk : 6 <= IZR (motionCount m)) by (apply IZR_le; lia).
    assert (Hx0 : 0 <= IZR (sumX m)) by (apply IZR_le; lia).
    assert (Hy0 : 0 <= IZR (sumY m)) by (apply IZR_le; lia).
    assert (Hx1 : IZR (sumX m) <= 63 * IZR (motionCount m))
      by (rewrite <- mult_IZR; apply IZR_le; lia).
    assert (Hy1 : IZR (sumY m) <= 47 * IZR (motionCount m))
      by (rewrite <- mult_IZR; apply IZR_le; lia).
    set (k := IZR (motionCount m)) in *.
    assert (Hax : 0 <= IZR (sumX m) / k <= 63) by (apply mean_range; lra).
    assert (Hay : 0 <= IZR (sumY m) / k <= 47) by (apply mean_range; lra).
    assert (Hint : 0 < k / (64 * 48 * 0.1)).
    { apply Rdiv_lt_0_compat; lra. }
    assert (Hmin : 0 < Rmin (k / (64 * 48 * 0.1)) 1.0 <= 1).
    { split; [apply Rmin_glb_lt; lra|].
      eapply Rle_trans; [apply Rmin_r|lra]. }
    repeat split; try lra.
  - exists 0, 0, 0. repeat split; auto; lra.
Qed.

Lemma motion_update_in_range_witness :
  let currentData := repeat 255%Z 32 in
  let prevFrameRef := Some (repeat 0%Z 32) in
  exists normX normY intensity,
    processFrame true currentData prevFrameRef
    = (Some (normX, normY, intensity), Some currentData)
    /\ - 1 <= normX < 1
    /\ - 1 < normY <= 1
    /\ 0 <= intensity <= 1
    /\ (intensity = 0 -> normX = 0 /\ normY = 0).
Proof.
  intros currentData prevFrameRef.
  apply (motion_update_in_range currentData prevFrameRef).
  simpl. lia.
Defined.

(** X27.  The first frame reports no motion, and so does a frame that is
    shown twice in a row, whatever came before it: position (0, 0) with
    intensity 0.  Without the video or the canvas nothing is reported and
    the previous frame is kept. *)
Theorem motion_still (currentData : list Z) (prevFrameRef : option (list Z)) :
  processFrame true currentData None = (Some (0, 0, 0), Some currentData)
  /\ processFrame true currentData
       (snd (processFrame true currentData prevFrameRef))
     = (Some (0, 0, 0), Some currentData)
  /\ processFrame false currentData prevFrameRef = (None, prevFrameRef).
Proof.
  split; [reflexivity|]. split; [|reflexivity].
  unfold processFrame. cbv zeta. cbn [snd]. now rewrite motionLoop_still.
Qed.

(** ** The hue rotation of the vertex shader *)

(** X28.  The hue rotation turns a colour about the grey axis: at angle 0
    it changes nothing, a grey colour stays grey, and the sum of the three
    channels is kept up to the factor [f], which is within 0.000002 of 1
    because [0.57735] is not quite the inverse of the square root of 3.
    A hue offset of at most 0.01 leaves the colour of the particle as it
    is. *)
Theorem hueRotate_grey_axis (col : THREE.Vector3) (g angle : R)
    (u : Uniforms) (v : Vertex) :
  let f := 1 - (1 - 3 * (0.57735 * 0.57735)) * (1 - cos angle) in
  let out := hueRotate col angle in
  hueRotate col 0 = col
  /\ THREE.x out + THREE.y out + THREE.z out
     = (THREE.x col + THREE.y col + THREE.z col) * f
  /\ hueRotate (THREE.mkVector3 g g g) angle
     = THREE.mkVector3 (g * f) (g * f) (g * f)
  /\ 1 - 0.000002 <= f <= 1
  /\ (uHueOffset u <= 0.01 -> vertexColor u v = a_color v).
Proof.
  intros f out.
  pose proof (COS_bound angle) as [Hc0 Hc1].
  split; [|split; [|split; [|split]]].
  - unfold hueRotate, THREE.add, THREE.multiplyScalar, THREE.crossVectors,
      GLSL_dot; cbn [THREE.x THREE.y THREE.z].
    rewrite cos_0, sin_0. destruct col as [cx cy cz]; cbn [THREE.x THREE.y THREE.z].
    f_equal; lra.
  - subst out f.
    unfold hueRotate, THREE.add, THREE.multiplyScalar, THREE.crossVectors,
      GLSL_dot; cbn [THREE.x THREE.y THREE.z].
    destruct col as [cx cy cz]; cbn [THREE.x THREE.y THREE.z].
    set (c := cos angle). set (s := sin angle). clearbody c s.
    replace 0.57735 with (57735 / 100000) by lra.
    replace 1.0 with 1 by lra. field.
  - subst f.
    unfold hueRotate, THREE.add, THREE.multiplyScalar, THREE.crossVectors,
      GLSL_dot; cbn [THREE.x THREE.y THREE.z].
    set (c := cos angle). set (s := sin angle). clearbody c s.
    replace 0.57735 with (57735 / 100000) by lra.
    replace 1.0 with 1 by lra. f_equal; field.
  - subst f. split; nra.
  - intros Hhue. unfold vertexColor, Rltb.
    destruct (Rlt_dec 0.01 (uHueOffset u)); [lra | reflexivity].
Qed.
